(** * Encoded-simultaneous-source full-waveform inversion: step-length search,
      velocity update and geometry validation

    A shallow embedding of the numerical driver code of
    [src/ess-fwi2d/main-essfwi2d.cpp], of the parameter validation and the
    distribution of the shots of [src/tool/main-born.cpp], and of the
    finite-difference time step of [src/modeling/fd4t10s-damp-zjh.c],
    followed by the properties established for it.

    Numeric model.  The C++ types [float] and [double] are embedded as exact
    rationals [Q]; C++ [int] is embedded as [Z] (counters that only run upwards
    from zero as [nat]).  Rounding, overflow and the IEEE special values of
    the floating-point arithmetic are therefore outside the model, with two
    exceptions: where the code stores a quiet NaN on purpose the value is
    kept apart by the type [fval], and where the code passes an array size to
    a [float] parameter the size is rounded to the nearest [float]
    ([float_of_Z]).  The [int] expressions of [src/tool/main-born.cpp] are
    computed with their wrap-around to 32 bits ([int32]).
    Arithmetic equalities are stated up to [Qeq] ([==]); structural equalities
    (copies, untouched cells) are stated with Leibniz equality.  A division
    by zero, which gives the program an infinity or a NaN, gives [0] in [Q]:
    what is proved about a quotient is to be read for a divisor that does not
    vanish.

    Arrays are lists indexed with stdpp's lookup and insert.  A C++ read or
    write outside an array is undefined; the embedding reads the default [0]
    and drops the write, and every theorem that depends on the difference
    carries the length hypothesis it needs. *)

From Stdlib Require Import ZArith QArith Qminmax Qabs Qround Lqa Lia List.
From stdpp Require Import base list gmap.

Local Open Scope Q_scope.

(** ** Numbers *)

#[global] Instance Q_inhabited : Inhabited Q := populate 0.

(** [a < b] on [float] operands, as a test. *)
Definition Qltb (x y : Q) : bool := negb (Qle_bool y x).

(** [a <= b] on [float] operands, as a test. *)
Definition Qleb (x y : Q) : bool := Qle_bool x y.

(** [std::min(a, b)] is [(b < a) ? b : a]. *)
Definition std_min (a b : Q) : Q := if Qltb b a then b else a.

(** [std::max(a, b)] is [(a < b) ? b : a]. *)
Definition std_max (a b : Q) : Q := if Qltb a b then b else a.

(** The value of the C++ type [int] congruent to [z]: 32 bits, two's
    complement. *)
Definition int32 (z : Z) : Z := ((z + 2 ^ 31) mod 2 ^ 32 - 2 ^ 31)%Z.

(** [a + b], [a - b] and [a * b] on [int] operands. *)
Definition int_add (a b : Z) : Z := int32 (a + b).
Definition int_sub (a b : Z) : Z := int32 (a - b).
Definition int_mul (a b : Z) : Z := int32 (a * b).

(** The [float] an integer converts to when it is passed for a [float]
    parameter: the nearest number with a significand of 24 bits, a tie going
    to the even significand.  Integers up to [2^24] in magnitude convert to
    themselves. *)
Definition float_of_Z (n : Z) : Q :=
  let m := Z.abs n in
  let e := (Z.log2 m - 23)%Z in
  if (e <=? 0)%Z then inject_Z n
  else
    let q := Z.shiftr m e in
    let r := Z.land m (Z.ones e) in
    let half := Z.shiftl 1 (e - 1) in
    let q := if ((half <? r) || ((r =? half) && Z.odd q))%Z then (q + 1)%Z else q in
    inject_Z (Z.sgn n * Z.shiftl q e).

(** A [float] that may hold the quiet NaN the code writes as a marker. *)
Inductive fval : Type :=
| Num (q : Q)
| NaN.

(** ** Process outcomes

    A routine either returns to its caller or ends the process through
    [exit(status)] after writing a diagnostic. *)

Inductive diagnostic : Type :=
| VmaxBelowVmin (vmax vmin : Q)      (* ERROR() "vmax(%f) < vmin(%f)" *)
| SourcesExceedZone                  (* "sources exceeds the computing zone!" *)
| GeophonesExceedZone.               (* "geophones exceeds the computing zone!" *)

Inductive outcome (A : Type) : Type :=
| Done (a : A)
| Exit (status : Z) (msg : diagnostic)
| OutOfFuel.   (* the bounded unrolling of a [while] loop was too short;
                  not a behaviour of the program *)

Arguments Done {A} a.
Arguments Exit {A} status msg.
Arguments OutOfFuel {A}.

#[global] Instance outcome_ret : MRet outcome := fun A a => Done a.

#[global] Instance outcome_bind : MBind outcome := fun A B k m =>
  match m with
  | Done a => k a
  | Exit s d => Exit s d
  | OutOfFuel => OutOfFuel
  end.

(** [for (i = 0; i < n; i++) s = body(i, s);] *)
Definition for_upto {S : Type} (n : nat) (body : nat -> S -> S) (s : S) : S :=
  fold_left (fun acc i => body i acc) (seq 0 n) s.

(** A routine called on the address [&buf[off]] works on the tail of [buf]. *)
Definition at_offset (off : nat) (f : list Q -> list Q) (buf : list Q) : list Q :=
  take off buf ++ f (drop off buf).

(** Number of iterations of [for (int i = 0; i < size; i++)] when the bound
    [size] is a [float]: the integers [0 <= i < size]. *)
Definition trip_count (size : Q) : nat := Z.to_nat (Qceiling size).

(** ** Velocity update ([update_vel], lines 509-524) *)

Module UpdateVel.

(** The two successive tests applied to [new_vel[i]] after the assignment. *)
Definition clamp (vmin vmax v : Q) : Q :=
  let v1 := if Qltb vmax v then vmax else v in
  if Qltb v1 vmin then vmin else v1.

(** One pass of the loop body at index [i]; [vel] and [new_vel] are distinct
    buffers. *)
Definition body (vel grad : list Q) (steplen vmin vmax : Q)
    (i : nat) (new_vel : list Q) : list Q :=
  <[ i := clamp vmin vmax (vel !!! i + steplen * grad !!! i) ]> new_vel.

(** [update_vel(vel, grad, size, steplen, vmin, vmax, new_vel)]; the result is
    the content of [new_vel] on return. *)
Definition update_vel (vel grad : list Q) (size steplen vmin vmax : Q)
    (new_vel : list Q) : outcome (list Q) :=
  if Qleb vmax vmin then Exit 0 (VmaxBelowVmin vmax vmin)
  else Done (for_upto (trip_count size) (body vel grad steplen vmin vmax) new_vel).

(** The same loop body when the caller passes one buffer as both [vel] and
    [new_vel], as [main] does with [exvel.dat]. *)
Definition body_inplace (grad : list Q) (steplen vmin vmax : Q)
    (i : nat) (buf : list Q) : list Q :=
  <[ i := clamp vmin vmax (buf !!! i + steplen * grad !!! i) ]> buf.

Definition update_vel_inplace (grad : list Q) (size steplen vmin vmax : Q)
    (buf : list Q) : outcome (list Q) :=
  if Qleb vmax vmin then Exit 0 (VmaxBelowVmin vmax vmin)
  else Done (for_upto (trip_count size) (body_inplace grad steplen vmin vmax) buf).

End UpdateVel.

(** ** Collaborators outside the embedded sources

    The propagator class [Damp4t10d], the geometry class [ShotPosition], the
    matrix helpers and the misfit sum are declared in headers that are not
    among the embedded files.  They enter the development as the fields of
    one interface; nothing is assumed about what they compute. *)

(** Modelled from the spec: [Velocity] is "a flat array of squared-slowness-like
    values plus (nx, nz)". *)
Record Velocity : Type := mkVelocity {
  dat : list Q;
  vnx : Z;
  vnz : Z
}.

(** Modelled from the spec: [ShotPosition] is the lattice
    "(zbeg, xbeg, jz, jx, count, nz)" of source or receiver positions, built
    as [ShotPosition(zbeg, xbeg, jz, jx, ns, nz)]; [count] is the member the
    code reads as [allSrcPos.ns]. *)
Record ShotPosition : Type := mkShotPosition {
  zbeg : Z;
  xbeg : Z;
  jz : Z;
  jx : Z;
  count : Z;
  pnz : Z
}.

(** Modelled from the spec: the grid column and row of lattice point [i], and
    its "derived absolute index = (xbeg + i*jx)*nz + (zbeg + i*jz)". *)
Definition pos_x (p : ShotPosition) (i : Z) : Z := (xbeg p + i * jx p)%Z.
Definition pos_z (p : ShotPosition) (i : Z) : Z := (zbeg p + i * jz p)%Z.
Definition pos_index (p : ShotPosition) (i : Z) : Z :=
  (pos_x p i * pnz p + pos_z p i)%Z.

(** Names of the checkpoint files [check_time_last_k.su] and
    [check_time_<it>_k.su] under [CHECKPOINTDIR]. *)
Inductive checkpoint : Type :=
| CheckLast (k : nat)
| CheckAt (it : Z) (k : nat).

Class Collaborators : Type := {
  (* [Damp4t10d] with the velocity it is bound to passed explicitly; each
     method returns the new content of the buffer it writes *)
  stepForward : Velocity -> list Q -> list Q -> list Q;
  stepBackward : Velocity -> list Q -> list Q -> list Q;
  addSource : list Q -> list Q -> ShotPosition -> list Q;
  subSource : list Q -> list Q -> ShotPosition -> list Q;
  recordSeis : list Q -> list Q -> ShotPosition -> list Q;
  removeDirectArrival :
    Velocity -> ShotPosition -> ShotPosition -> list Q -> Z -> Q -> list Q;
  refillBoundary : Velocity -> list Q -> list Q;
  (* free helpers *)
  matrix_transpose : list Q -> Z -> Z -> list Q;
  cal_objective : list Q -> Q;
  readBin : checkpoint -> list Q;
  fsqrt : Q -> Q;                       (* [std::sqrt] *)
  (* lines 849-906 of [main]: the random encoding of the shots, the
     baseline misfit [obj1] and the masked gradient [g1] of one iteration *)
  encsrc_of : Z -> list Q;
  encobs_of : Z -> Velocity -> list Q;
  baseline_of : Z -> Velocity -> Q;
  gradient_of : Z -> Velocity -> list Q
}.

(** [FLT_MAX], the largest finite [float]. *)
Definition FLT_MAX : Q := inject_Z (2 ^ 128 - 2 ^ 104).

(** ** Conjugate direction ([prevCurrCorrDirection], lines 85-115) *)

Module Direction.

(** [std::copy(src, src + n, dst)] *)
Definition std_copy (src : list Q) (n : nat) (dst : list Q) : list Q :=
  for_upto n (fun i d => <[ i := src !!! i ]> d) dst.

(** The accumulators [a], [b], [c] of the first loop. *)
Definition sums_body (pre cur : list Q) (i : nat) (s : Q * Q * Q) : Q * Q * Q :=
  let '(a, b, c) := s in
  (a + cur !!! i * cur !!! i,
   b + cur !!! i * pre !!! i,
   c + pre !!! i * pre !!! i).

Definition direction_body (cur : list Q) (beta : Q) (i : nat)
    (update_direction : list Q) : list Q :=
  <[ i := cur !!! i + beta * update_direction !!! i ]> update_direction.

(** The value of [beta] after [if (beta < 0.0f) beta = 0.0f;]. *)
Definition beta_of (a b c : Q) : Q :=
  let beta := (a - b) / c in
  if Qltb beta 0 then 0 else beta.

(** Returns the contents of [pre_gradient] and [update_direction] on return. *)
Definition prevCurrCorrDirection (pre_gradient cur_gradient update_direction : list Q)
    (model_size iter : Z) : list Q * list Q :=
  let n := Z.to_nat model_size in
  if (iter =? 0)%Z then
    let update_direction := std_copy cur_gradient n update_direction in
    let pre_gradient := std_copy cur_gradient n pre_gradient in
    (pre_gradient, update_direction)
  else
    let '(a, b, c) := for_upto n (sums_body pre_gradient cur_gradient) (0, 0, 0) in
    let beta := beta_of a b c in
    let update_direction := for_upto n (direction_body cur_gradient beta) update_direction in
    (std_copy cur_gradient n pre_gradient, update_direction).

End Direction.

(** ** Adjoint source filter (lines 274-306) *)

Module VirtualSource.

Definition filter_body (tmp_vsrc : list Q) (num : Z) (i : nat) (vsrc : list Q) : list Q :=
  if (Z.of_nat i <=? 1)%Z then <[ i := 0 ]> vsrc
  else if ((num - 1 =? Z.of_nat i) || (num - 2 =? Z.of_nat i))%Z then <[ i := 0 ]> vsrc
  else <[ i := -(1) / 12 * tmp_vsrc !!! (i - 2)%nat + 4 / 3 * tmp_vsrc !!! (i - 1)%nat
               - 2.5 * tmp_vsrc !!! i + 4 / 3 * tmp_vsrc !!! (i + 1)%nat
               - 1 / 12 * tmp_vsrc !!! (i + 2)%nat ]> vsrc.

(** [second_order_virtual_source_forth_accuracy(vsrc, num, dt)]; [tmp_vsrc] is
    the [memcpy] of the first [num] samples. *)
Definition second_order_virtual_source_forth_accuracy (vsrc : list Q) (num : Z) (dt : Q)
    : list Q :=
  let tmp_vsrc := take (Z.to_nat num) vsrc in
  for_upto (Z.to_nat num) (filter_body tmp_vsrc num) vsrc.

Section TransVsrc.
Context `{Collaborators}.

(** [transVsrc(vsrc, nt, ng, dt)]: the new content of [vsrc], and the array
    written to [vsrc.rsf]. *)
Definition transVsrc (vsrc : list Q) (nt ng : Z) (dt : Q) : list Q * list Q :=
  let trans := matrix_transpose vsrc ng nt in
  let trans :=
    for_upto (Z.to_nat ng)
      (fun ig t =>
         at_offset (ig * Z.to_nat nt)
           (fun trace => second_order_virtual_source_forth_accuracy trace nt dt) t)
      trans in
  (matrix_transpose trans nt ng, trans).

End TransVsrc.

End VirtualSource.

(** ** Backward gradient pass ([cross_correlation] and [hello], lines 346-483) *)

Module Gradient.

Definition cross_correlation (src_wave vsrc_wave image : list Q) (model_size : nat)
    (scale : Q) : list Q :=
  for_upto model_size
    (fun i img => <[ i := img !!! i - src_wave !!! i * vsrc_wave !!! i * scale ]> img)
    image.

Record wavefields : Type := mkWavefields {
  sp0 : list Q;
  sp1 : list Q;
  gp0 : list Q;
  gp1 : list Q
}.

Definition check_step : Z := 50.

Section Hello.
Context `{Collaborators}.
Variables (vel : Velocity) (allSrcPos allGeoPos : ShotPosition).
Variables (encSrc vsrc : list Q) (nt : Z) (dt : Q).

Let ns : Z := count allSrcPos.
Let ng : Z := count allGeoPos.

(** The loop body of [hello] at time step [it], up to and including the second
    [std::swap]. *)
Definition propagate (it : Z) (w : wavefields) : wavefields :=
  (* reload the stored source wavefields *)
  let '(s0, s1) :=
    if (it =? nt - 1)%Z then (readBin (CheckLast 2), readBin (CheckLast 1))
    else if ((0 <? check_step) && (Z.rem it check_step =? 0) && negb (it =? 0))%Z
         then (readBin (CheckAt it 2), readBin (CheckAt it 1))
         else (sp0 w, sp1 w) in
  (* stepBackward(sp0, sp1); swap(sp1, sp0) *)
  let s0' := stepBackward vel s0 s1 in
  let '(s0, s1) := (s1, s0') in
  (* subSource(sp0, &encSrc[it * ns]) *)
  let s0 := subSource s0 (drop (Z.to_nat (it * ns)) encSrc) allSrcPos in
  (* addSource(gp1, &vsrc[it * ng]); stepForward(gp0, gp1); swap(gp1, gp0) *)
  let g1 := addSource (gp1 w) (drop (Z.to_nat (it * ng)) vsrc) allGeoPos in
  let g0' := stepForward vel (gp0 w) g1 in
  mkWavefields s0 s1 g1 g0'.

(** The weight passed to [cross_correlation] on the second branch. *)
Definition ramp (it : Z) : Q := (dt * inject_Z it - 0.3) / 0.1.

(** [for (it = k - 1; it >= 0; it--)] with the [break] of the last branch. *)
Fixpoint hello_loop (k : nat) (w : wavefields) (g0 : list Q) : wavefields * list Q :=
  match k with
  | O => (w, g0)
  | S k' =>
      let it := Z.of_nat k' in
      let w := propagate it w in
      if Qltb 0.4 (dt * inject_Z it) then
        hello_loop k' w (cross_correlation (sp0 w) (gp0 w) g0 (length g0) 1)
      else if Qltb 0.3 (dt * inject_Z it) then
        hello_loop k' w (cross_correlation (sp0 w) (gp0 w) g0 (length g0) (ramp it))
      else (w, g0)
  end.

(** [hello]: the content of [g0] on return; [w] holds the [rand() % 100]
    values the four wavefields start from. *)
Definition hello (w : wavefields) (g0 : list Q) : list Q :=
  snd (hello_loop (Z.to_nat nt) w g0).

End Hello.

End Gradient.

(** ** Step-length search (lines 75-83 and 485-789) *)

Module StepLen.

Definition max_iter_select_alpha3 : nat := 5.
Definition vmax : Q := 5500.
Definition vmin : Q := 1500.
Definition maxdv : Q := 200.

Definition ParaPoint : Type := (Q * Q)%type.

(** [1e-10], written out. *)
Definition tolerance : Q := 0.0000000001.

Definition parabolicLessComp (a b : ParaPoint) : bool :=
  Qltb (snd a - snd b) tolerance.

(** Modelled from the C++ standard library (libstdc++, [stl_tree.h] and
    [tree.cc]), which is not part of the sources: a [std::set] with
    comparator [comp] is a red-black tree.  [insert] walks down from the
    root, to the left of a node when [comp] ranks the new element before it
    and to the right otherwise.  It then looks at the element just before
    the place it has arrived at, and drops the new element when [comp] does
    not rank that element before it; otherwise it hangs the new element
    there as a red leaf and restores the colours.  [begin()] is the leftmost
    node, [clear()] leaves the empty tree. *)
Inductive color : Type := Red | Black.

Inductive rbtree (A : Type) : Type :=
| Nil
| Node (c : color) (l : rbtree A) (v : A) (r : rbtree A).

Arguments Nil {A}.
Arguments Node {A} c l v r.

(** One node on the way down: its colour and element, the side taken, and
    the subtree on the other side. *)
Inductive passed (A : Type) : Type :=
| WentLeft (c : color) (v : A) (r : rbtree A)
| WentRight (c : color) (l : rbtree A) (v : A).

Arguments WentLeft {A} c v r.
Arguments WentRight {A} c l v.

(** The way from the place where [k] belongs up to the root; the nodes
    passed so far are in [path], the last one first. *)
Fixpoint descend {A : Type} (comp : A -> A -> bool) (k : A) (t : rbtree A)
    (path : list (passed A)) : list (passed A) :=
  match t with
  | Nil => path
  | Node c l v r =>
      if comp k v then descend comp k l (WentLeft c v r :: path)
      else descend comp k r (WentRight c l v :: path)
  end.

(** The element just before the place the path leads to, if there is one:
    the node of the last step to the right. *)
Fixpoint before_gap {A : Type} (path : list (passed A)) : option A :=
  match path with
  | [] => None
  | WentLeft _ _ _ :: path => before_gap path
  | WentRight _ _ v :: _ => Some v
  end.

(** The tree with [x] at the place the path leads to. *)
Fixpoint plug {A : Type} (x : rbtree A) (path : list (passed A)) : rbtree A :=
  match path with
  | [] => x
  | WentLeft c v r :: path => plug (Node c x v r) path
  | WentRight c l v :: path => plug (Node c l v x) path
  end.

(** The loop of [_Rb_tree_insert_and_rebalance]: [x] is the subtree of the
    red node [__x], [path] leads to it.  While the parent of [x] is red, a
    red uncle is recoloured with the parent and the loop goes on from the
    grandparent; a black uncle ends the loop with one or two rotations. *)
Fixpoint rebalance {A : Type} (x : rbtree A) (path : list (passed A)) : rbtree A :=
  match path with
  | WentLeft Red vp rp :: WentLeft _ vg uncle :: rest =>
      match uncle with
      | Node Red ul uv ur =>
          rebalance (Node Red (Node Black x vp rp) vg (Node Black ul uv ur)) rest
      | _ => plug (Node Black x vp (Node Red rp vg uncle)) rest
      end
  | WentRight Red lp vp :: WentLeft _ vg uncle :: rest =>
      match uncle with
      | Node Red ul uv ur =>
          rebalance (Node Red (Node Black lp vp x) vg (Node Black ul uv ur)) rest
      | _ =>
          match x with
          | Node _ xl xv xr =>
              plug (Node Black (Node Red lp vp xl) xv (Node Red xr vg uncle)) rest
          | Nil => plug x path
          end
      end
  | WentRight Red lp vp :: WentRight _ uncle vg :: rest =>
      match uncle with
      | Node Red ul uv ur =>
          rebalance (Node Red (Node Black ul uv ur) vg (Node Black lp vp x)) rest
      | _ => plug (Node Black (Node Red uncle vg lp) vp x) rest
      end
  | WentLeft Red vp rp :: WentRight _ uncle vg :: rest =>
      match uncle with
      | Node Red ul uv ur =>
          rebalance (Node Red (Node Black ul uv ur) vg (Node Black x vp rp)) rest
      | _ =>
          match x with
          | Node _ xl xv xr =>
              plug (Node Black (Node Red uncle vg xl) xv (Node Red xr vp rp)) rest
          | Nil => plug x path
          end
      end
  | _ => plug x path
  end.

(** [__root->_M_color = _S_black] *)
Definition blacken {A : Type} (t : rbtree A) : rbtree A :=
  match t with
  | Nil => Nil
  | Node _ l v r => Node Black l v r
  end.

Definition set_insert {A : Type} (comp : A -> A -> bool) (k : A) (t : rbtree A)
    : rbtree A :=
  let path := descend comp k t [] in
  let hung := blacken (rebalance (Node Red Nil k Nil) path) in
  match before_gap path with
  | None => hung
  | Some j => if comp j k then hung else t
  end.

Fixpoint leftmost {A : Type} (d : A) (t : rbtree A) : A :=
  match t with
  | Nil => d
  | Node _ l v _ => leftmost v l
  end.

Definition set_begin (t : rbtree ParaPoint) : ParaPoint := leftmost (0, 0) t.

(** Modelled from the spec: the warm-start state [PreservedAlpha] is "a small
    persisted map from velocity-parameter index to last successful step
    length, with an initialized flag per index".  An index never written
    reads as [false] and [0]. *)
Record PreservedAlpha : Type := mkPreservedAlpha {
  isInit : gmap Z bool;
  alpha : gmap Z Q
}.

Definition getIsInit (st : PreservedAlpha) (ivel : Z) : bool :=
  default false (isInit st !! ivel).

Definition getAlpha (st : PreservedAlpha) (ivel : Z) : Q :=
  default 0 (alpha st !! ivel).

Definition setIsInit (ivel : Z) (b : bool) (st : PreservedAlpha) : PreservedAlpha :=
  mkPreservedAlpha (<[ ivel := b ]> (isInit st)) (alpha st).

Definition setAlpha (ivel : Z) (a : Q) (st : PreservedAlpha) : PreservedAlpha :=
  mkPreservedAlpha (isInit st) (<[ ivel := a ]> (alpha st)).

Definition minAlpha : Q := 0.0000001.   (* 1.0E-7 *)
Definition resetAlpha : Q := 0.0001.    (* 1.0E-4 *)

(** [initAlpha2_3(ivel, max_alpha3, initAlpha2, initAlpha3)]: the pair
    [(initAlpha2, initAlpha3)] and the state afterwards. *)
Definition initAlpha2_3 (ivel : Z) (max_alpha3 : Q) (st : PreservedAlpha)
    : (Q * Q) * PreservedAlpha :=
  let st :=
    if negb (getIsInit st ivel)
    then setAlpha ivel max_alpha3 (setIsInit ivel true st)
    else st in
  let initAlpha3 := getAlpha st ivel in
  let initAlpha3 := if Qltb initAlpha3 minAlpha then resetAlpha else initAlpha3 in
  let initAlpha2 := initAlpha3 * 0.5 in
  ((initAlpha2, initAlpha3), st).

(** [calcParabolaVertex]: the pair [(xv, yv)]. *)
Definition calcParabolaVertex (x1 y1 x2 y2 x3 y3 : Q) : Q * Q :=
  let denom := (x1 - x2) * (x1 - x3) * (x2 - x3) in
  let A := (x3 * (y2 - y1) + x2 * (y1 - y3) + x1 * (y3 - y2)) / denom in
  let B := (x3 * x3 * (y1 - y2) + x2 * x2 * (y3 - y1) + x1 * x1 * (y2 - y3)) / denom in
  let C := (x2 * x3 * (x2 - x3) * y1 + x3 * x1 * (x3 - x1) * y2
            + x1 * x2 * (x1 - x2) * y3) / denom in
  (- B / (2 * A), C - B * B / (4 * A)).

(** The first disjunct of the test of [calcParabolaVertexEnhanced]. *)
Definition nearly_collinear (x1 y1 x2 y2 x3 y3 : Q) : bool :=
  let k2 := (y3 - y2) / (x3 - x2) in
  let k1 := (y2 - y1) / (x2 - x1) in
  Qltb (Qabs (k2 - k1)) (0.001 * std_max (Qabs k2) (Qabs k1)).

(** [xv == -quiet_NaN()]: a comparison with NaN is never true. *)
Definition equals_nan (xv : Q) : bool := false.

(** [calcParabolaVertexEnhanced]: the pair [(xv, yv)]. *)
Definition calcParabolaVertexEnhanced (x1 y1 x2 y2 x3 y3 max_alpha3 : Q) : Q * fval :=
  let '(xv, yv) := calcParabolaVertex x1 y1 x2 y2 x3 y3 in
  if nearly_collinear x1 y1 x2 y2 x3 y3 || equals_nan xv
  then (std_min (2 * x3) max_alpha3, NaN)
  else (xv, Num yv).

Section WithCollaborators.
Context `{Collaborators}.

(** [calMaxAlpha2_3]: the pair [(ret_alpha2, ret_alpha3)]. *)
Definition calMaxAlpha2_3 (exvel : Velocity) (grad : list Q) (dt dx maxdv : Q) : Q * Q :=
  let vel := dat exvel in
  let alpha2 :=
    for_upto (Z.to_nat (vnx exvel * vnz exvel))
      (fun i alpha2 =>
         let tmpv := dx / (dt * fsqrt (vel !!! i)) in
         let tmpv := tmpv - maxdv in
         let tmpv := (dx / (dt * tmpv)) * (dx / (dt * tmpv)) in
         if Qltb (Qabs (grad !!! i)) 0.0000000001 (* 1e-10 *) then alpha2
         else if Qltb ((tmpv - vel !!! i) / Qabs (grad !!! i)) alpha2
              then (tmpv - vel !!! i) / Qabs (grad !!! i)
              else alpha2)
      FLT_MAX in
  (alpha2, 2 * alpha2).

(** [std::transform(dobs.begin(), dobs.end(), dcal.begin(), vsrc.begin(), minus)] *)
Definition vectorMinus (dobs dcal vsrc : list Q) : list Q :=
  for_upto (length dobs) (fun i v => <[ i := dobs !!! i - dcal !!! i ]> v) vsrc.

(** [forwardModeling] (lines 240-268): the content of [dobs] on return. *)
Definition forwardModeling (vel : Velocity) (allSrcPos allGeoPos : ShotPosition)
    (encSrc dobs : list Q) (nt : Z) : list Q :=
  let ns := count allSrcPos in
  let ng := count allGeoPos in
  let zeros := replicate (Z.to_nat (vnz vel * vnx vel)) 0 in
  snd (for_upto (Z.to_nat nt)
         (fun it '((p0, p1), dobs) =>
            let p1 := addSource p1 (drop (it * Z.to_nat ns) encSrc) allSrcPos in
            let p0 := stepForward vel p0 p1 in
            let dobs :=
              at_offset (it * Z.to_nat ng)
                        (fun d => recordSeis d p0 allGeoPos) dobs in
            ((p1, p0), dobs))
         ((zeros, zeros), dobs)).

Section Search.
Variables (fmVel : Velocity) (allSrcPos allGeoPos : ShotPosition).
Variables (encsrc encobs grad : list Q) (nt : Z) (dt fm : Q).

(** [calculate_obj_val] (lines 540-582): the value stored in [*obj_val_out]. *)
Definition calculate_obj_val (vel : list Q) (vmin vmax steplen : Q) : outcome Q :=
  let nx := vnx fmVel in
  let nz := vnz fmVel in
  let size := (nx * nz)%Z in
  new_vel ← UpdateVel.update_vel vel grad (float_of_Z size) steplen vmin vmax
               (replicate (Z.to_nat size) 0);
  let updateVel := mkVelocity (take (Z.to_nat size) new_vel) nx nz in
  let ng := count allGeoPos in
  let dcal := replicate (Z.to_nat (nt * ng)) 0 in
  let dcal := forwardModeling updateVel allSrcPos allGeoPos encsrc dcal nt in
  let dcal := removeDirectArrival updateVel allSrcPos allGeoPos dcal nt 0.15 in
  let vdiff := vectorMinus encobs dcal (replicate (Z.to_nat (nt * ng)) 0) in
  mret (cal_objective vdiff).

Variables (obj_val1 vmin vmax maxAlpha3 : Q).

(** The misfit of a step length, as [selectAlpha] evaluates it. *)
Definition misfit (steplen : Q) : outcome Q :=
  calculate_obj_val (dat fmVel) vmin vmax steplen.

(** The local variables of [selectAlpha] that the two tuning loops update. *)
Record tuning : Type := mkTuning {
  t_alpha2 : Q;
  t_obj_val2 : Q;
  t_alpha3 : Q;
  t_obj_val3 : Q;
  tunedAlpha : rbtree ParaPoint
}.

(** [for (; iter < max_iter_select_alpha3 && obj_val2 > obj_val1; iter++)],
    with [left = max_iter_select_alpha3 - iter]. *)
Fixpoint halving (left : nat) (t : tuning) : outcome tuning :=
  match left with
  | O => mret t
  | S left' =>
      if Qltb obj_val1 (t_obj_val2 t) then
        let alpha3 := t_alpha2 t in
        let obj_val3 := t_obj_val2 t in
        let alpha2 := t_alpha2 t / 2 in
        obj_val2 ← misfit alpha2;
        halving left'
          (mkTuning alpha2 obj_val2 alpha3 obj_val3
             (set_insert parabolicLessComp (alpha2, obj_val2) (tunedAlpha t)))
      else mret t
  end.

(** [while (obj_val3 < linearFitAlph3 && obj_val3 < obj_val1 && alpha3 < maxAlpha3)],
    unrolled at most [fuel] times. *)
Fixpoint doubling (fuel : nat) (linearFitAlph3 : Q) (t : tuning) : outcome tuning :=
  if Qltb (t_obj_val3 t) linearFitAlph3 && Qltb (t_obj_val3 t) obj_val1
     && Qltb (t_alpha3 t) maxAlpha3
  then
    match fuel with
    | O => OutOfFuel
    | S fuel' =>
        let alpha2 := t_alpha3 t in
        let obj_val2 := t_obj_val3 t in
        let alpha3 := std_min (t_alpha3 t * 2) maxAlpha3 in
        obj_val3 ← misfit alpha3;
        doubling fuel' linearFitAlph3
          (mkTuning alpha2 obj_val2 alpha3 obj_val3
             (set_insert parabolicLessComp (alpha3, obj_val3) (tunedAlpha t)))
    end
  else mret t.

(** The reference arguments of [selectAlpha] on return. *)
Record selected : Type := mkSelected {
  r_alpha2 : Q;
  r_obj_val2 : Q;
  r_alpha3 : Q;
  r_obj_val3 : Q;
  toParabolicFit : bool
}.

(** [selectAlpha] (lines 584-716), called with [_alpha2] and [_alpha3]. *)
Definition selectAlpha (fuel : nat) (_alpha2 _alpha3 : Q) : outcome selected :=
  let alpha3 := _alpha3 in
  let alpha2 := _alpha2 in
  obj_val2 ← misfit alpha2;
  obj_val3 ← misfit alpha3;
  let tunedAlpha0 := set_insert parabolicLessComp (alpha2, obj_val2) Nil in
  t ← halving max_iter_select_alpha3 (mkTuning alpha2 obj_val2 alpha3 obj_val3 tunedAlpha0);
  if Qltb obj_val1 (t_obj_val2 t) then
    (* the halving did not bring the misfit down *)
    let it := set_begin (tunedAlpha t) in
    let _alpha2 := fst it in
    let _obj_val2 := snd it in
    let _alpha3 := std_min (_alpha2 * 2) maxAlpha3 in
    _obj_val3 ← misfit (t_alpha3 t);
    mret (mkSelected _alpha2 _obj_val2 _alpha3 _obj_val3 false)
  else
    let alpha1 := 0 in
    let linearFitAlph3 :=
      (t_obj_val2 t - obj_val1) / (t_alpha2 t - alpha1) * (t_alpha3 t - alpha1)
      + obj_val1 in
    let tunedAlpha1 := set_insert parabolicLessComp (t_alpha3 t, t_obj_val3 t) Nil in
    t ← doubling fuel linearFitAlph3
          (mkTuning (t_alpha2 t) (t_obj_val2 t) (t_alpha3 t) (t_obj_val3 t) tunedAlpha1);
    if Qltb (maxAlpha3 + 0.1) (t_alpha3 t) then
      let it := set_begin (tunedAlpha t) in
      let _alpha3 := fst it in
      let _obj_val3 := snd it in
      let _alpha2 := _alpha3 / 2 in
      _obj_val2 ← misfit (t_alpha2 t);
      mret (mkSelected _alpha2 _obj_val2 _alpha3 _obj_val3 false)
    else
      mret (mkSelected (t_alpha2 t) (t_obj_val2 t) (t_alpha3 t) (t_obj_val3 t) true).

End Search.

(** [calStepLen] (lines 743-789): the returned [alpha4], the [obj_val4] it
    logs, and the warm-start state afterwards. *)
Definition calStepLen (fuel : nat) (fmVel : Velocity) (allSrcPos allGeoPos : ShotPosition)
    (encsrc encobs updateDirection : list Q) (iter nt ivel : Z) (dt dx fm : Q)
    (obj_val1 min_vel max_vel : Q) (st : PreservedAlpha)
    : outcome ((Q * fval) * PreservedAlpha) :=
  let '(max_alpha2, max_alpha3) := calMaxAlpha2_3 fmVel updateDirection dt dx maxdv in
  let alpha1 := 0 in
  let '((alpha2, alpha3), st) := initAlpha2_3 ivel max_alpha3 st in
  r ← selectAlpha fmVel allSrcPos allGeoPos encsrc encobs updateDirection nt
        obj_val1 min_vel max_vel max_alpha3 fuel alpha2 alpha3;
  let '(alpha4, obj_val4) :=
    if toParabolicFit r then
      let '(alpha4, obj_val4) :=
        calcParabolaVertexEnhanced alpha1 obj_val1 (r_alpha2 r) (r_obj_val2 r)
          (r_alpha3 r) (r_obj_val3 r) max_alpha3 in
      (if Qltb max_alpha3 alpha4 then max_alpha3 else alpha4, obj_val4)
    else (r_alpha3 r, Num (r_obj_val3 r)) in
  mret ((alpha4, obj_val4), setAlpha ivel alpha4 st).

(** The variables of [main] that live across the iterations of its loop. *)
Record driver : Type := mkDriver {
  exvel : Velocity;
  g0 : list Q;
  preserved : PreservedAlpha
}.

(** One pass of the loop of [main] (lines 846-928), from the values that
    lines 849-906 produce for this iteration.  [fmMethod] was bound to
    [exvel] before the loop and is taken to see the model as updated so far. *)
Definition main_iteration (fuel : nat) (allSrcPos allGeoPos : ShotPosition)
    (nt : Z) (dt dx fm : Q) (iter : Z) (s : driver) : outcome driver :=
  let encsrc := encsrc_of iter in
  let encobs := encobs_of iter (exvel s) in
  let obj1 := baseline_of iter (exvel s) in
  let g1 := gradient_of iter (exvel s) in
  let updateDirection := replicate (Z.to_nat (vnx (exvel s) * vnz (exvel s))) 0 in
  let '(g0', updateDirection) :=
    Direction.prevCurrCorrDirection (g0 s) g1 updateDirection
      (Z.of_nat (length (g0 s))) iter in
  let ivel := 0%Z in
  let min_vel := (dx / dt / vmax) * (dx / dt / vmax) in
  let max_vel := (dx / dt / vmin) * (dx / dt / vmin) in
  '(steplen, _, st) ← calStepLen fuel (exvel s) allSrcPos allGeoPos encsrc encobs
                         updateDirection iter nt ivel dt dx fm obj1 min_vel max_vel
                         (preserved s);
  dat' ← UpdateVel.update_vel_inplace updateDirection
            (float_of_Z (Z.of_nat (length (dat (exvel s))))) steplen min_vel max_vel
            (dat (exvel s));
  let v' := mkVelocity dat' (vnx (exvel s)) (vnz (exvel s)) in
  let dat'' := refillBoundary v' dat' in
  mret (mkDriver (mkVelocity dat'' (vnx (exvel s)) (vnz (exvel s))) g0' st).

End WithCollaborators.

End StepLen.

(** ** Geometry validation ([Params::check], [src/tool/main-born.cpp]) *)

Module Born.

Record Params : Type := mkParams {
  nb : Z; nz : Z; nx : Z; ns : Z; ng : Z;
  sxbeg : Z; szbeg : Z; gxbeg : Z; gzbeg : Z;
  jsx : Z; jsz : Z; jgx : Z; jgz : Z
}.

(** [beg + (n - 1)*j] on [int] operands: the last position of a lattice, as
    [check] computes it. *)
Definition last_pos (beg n j : Z) : Z := int_add beg (int_mul (int_sub n 1) j).

(** [Params::check()], the last statement of the constructor. *)
Definition check (p : Params) : outcome unit :=
  if negb ((0 <=? sxbeg p) && (0 <=? szbeg p)
           && (last_pos (sxbeg p) (ns p) (jsx p) <? nx p)
           && (last_pos (szbeg p) (ns p) (jsz p) <? nz p))%Z
  then Exit 1 SourcesExceedZone
  else if negb ((0 <=? gxbeg p) && (0 <=? gzbeg p)
                && (last_pos (gxbeg p) (ng p) (jgx p) <? nx p)
                && (last_pos (gzbeg p) (ng p) (jgz p) <? nz p))%Z
  then Exit 1 GeophonesExceedZone
  else Done tt.

(** A number that an [int] holds. *)
Definition fits_int (z : Z) : Prop := (- 2 ^ 31 <= z < 2 ^ 31)%Z.

(** The last position of each lattice, along each axis, is a number that an
    [int] holds, so that [check] compares the position itself. *)
Definition ends_fit (p : Params) : Prop :=
  fits_int (sxbeg p + (ns p - 1) * jsx p) /\ fits_int (szbeg p + (ns p - 1) * jsz p)
  /\ fits_int (gxbeg p + (ng p - 1) * jgx p) /\ fits_int (gzbeg p + (ng p - 1) * jgz p).

(** The two lattices [main] builds once [Params] is constructed. *)
Definition allSrcPos (p : Params) : ShotPosition :=
  mkShotPosition (szbeg p) (sxbeg p) (jsz p) (jsx p) (ns p) (nz p).

Definition allGeoPos (p : Params) : ShotPosition :=
  mkShotPosition (gzbeg p) (gxbeg p) (jgz p) (jgx p) (ng p) (nz p).

(** Point [i] of a lattice lies on the [nx] by [nz] grid. *)
Definition in_grid (p : Params) (pos : ShotPosition) (i : Z) : Prop :=
  (0 <= pos_x pos i < nx p)%Z /\ (0 <= pos_z pos i < nz p)%Z.

(** Point [i] of a lattice lies on the grid widened by the [nb] absorbing
    cells on every side. *)
Definition in_padded_grid (p : Params) (pos : ShotPosition) (i : Z) : Prop :=
  (- nb p <= pos_x pos i < nx p + nb p)%Z /\ (- nb p <= pos_z pos i < nz p + nb p)%Z.

(** The program up to the start of the simulation: construct [Params], then
    build the lattices. *)
Definition startup (p : Params) : outcome (ShotPosition * ShotPosition) :=
  _ ← check p;
  mret (allSrcPos p, allGeoPos p).

End Born.

(** [for (i = lo; i < hi; i++) s = body(i, s);] on [int] bounds. *)
Definition for_range {S : Type} (lo hi : Z) (body : Z -> S -> S) (s : S) : S :=
  fold_left (fun acc i => body i acc) (seqZ lo (hi - lo)) s.

(** ** Finite-difference time step ([src/modeling/fd4t10s-damp-zjh.c]) *)

Module Stencil.

Definition d : Z := 6.
Definition max_delta : Q := 0.05.

(** The array [a] of Zhang Jinhai's coefficients. *)
Definition a (k : nat) : Q :=
  match k with
  | 0%nat => 1.53400796
  | 1%nat => 1.78858721
  | 2%nat => - 0.31660756
  | 3%nat => 0.07612173
  | 4%nat => - 0.01626042
  | 5%nat => 0.00216736
  | _ => 0
  end.

(** [buf[i]] for an [int] index. *)
Definition rd (buf : list Q) (i : Z) : Q := buf !!! Z.to_nat i.

(** The value the first loop nest stores in [u2[curPos]]. *)
Definition laplace (curr_wave : list Q) (nz curPos : Z) : Q :=
  -(4.0) * a 0 * rd curr_wave curPos +
  a 1 * (rd curr_wave (curPos - 1) + rd curr_wave (curPos + 1) +
         rd curr_wave (curPos - nz) + rd curr_wave (curPos + nz)) +
  a 2 * (rd curr_wave (curPos - 2) + rd curr_wave (curPos + 2) +
         rd curr_wave (curPos - 2 * nz) + rd curr_wave (curPos + 2 * nz)) +
  a 3 * (rd curr_wave (curPos - 3) + rd curr_wave (curPos + 3) +
         rd curr_wave (curPos - 3 * nz) + rd curr_wave (curPos + 3 * nz)) +
  a 4 * (rd curr_wave (curPos - 4) + rd curr_wave (curPos + 4) +
         rd curr_wave (curPos - 4 * nz) + rd curr_wave (curPos + 4 * nz)) +
  a 5 * (rd curr_wave (curPos - 5) + rd curr_wave (curPos + 5) +
         rd curr_wave (curPos - 5 * nz) + rd curr_wave (curPos + 5 * nz)).

(** The value of [dist] after the four [if] statements. *)
Definition dist_of (nx nz bx bz ix iz : Z) : Q :=
  let dist := 0 in
  let dist := if ((bx <=? ix) && (ix <? nx - bx) && (iz <? nz - bz))%Z then 0 else dist in
  let dist := if (ix <? bx)%Z then inject_Z (bx - ix) / inject_Z bx else dist in
  let dist :=
    if (nx - bx <=? ix)%Z then inject_Z (ix - (nx - bx) + 1) / inject_Z bx else dist in
  let dist :=
    if (nz - bz <=? iz)%Z then inject_Z (iz - (nz - bz) + 1) / inject_Z bz else dist in
  dist.

(** The value the second loop nest stores in [prev_wave[curPos]], from the
    value [prev] it holds before. *)
Definition advance (prev : Q) (curr_wave vel u2 : list Q) (nx nz nb ix iz : Z) : Q :=
  let bz := nb in
  let bx := nb in
  let dist := dist_of nx nz bx bz ix iz in
  let delta := max_delta * dist * dist in
  let curPos := (ix * nz + iz)%Z in
  let curvel := rd vel curPos in
  (2 - 2 * delta + delta * delta) * rd curr_wave curPos
  - (1 - 2 * delta) * prev
  + (1 / curvel) * rd u2 curPos
  + 1 / 12 * (1 / curvel) * (1 / curvel) *
    (rd u2 (curPos - 1) + rd u2 (curPos + 1) + rd u2 (curPos - nz) + rd u2 (curPos + nz)
     - 4 * rd u2 curPos).

(** The first loop nest: the content of [u2] after it.  Every pass writes a
    cell of its own and reads [curr_wave] only, so the parallel loop stores
    what this sequential one does. *)
Definition laplace_pass (curr_wave u2 : list Q) (nx nz : Z) : list Q :=
  for_range (d - 1) (nx - (d - 1))
    (fun ix u2 =>
       for_range (d - 1) (nz - (d - 1))
         (fun iz u2 =>
            let curPos := (ix * nz + iz)%Z in
            <[ Z.to_nat curPos := laplace curr_wave nz curPos ]> u2)
         u2)
    u2.

(** The second loop nest: the content of [prev_wave] after it.  Every pass
    reads and writes its own cell of [prev_wave] and no other. *)
Definition advance_pass (prev_wave curr_wave vel u2 : list Q) (nx nz nb : Z) : list Q :=
  for_range d (nx - d)
    (fun ix prev_wave =>
       for_range d (nz - d)
         (fun iz prev_wave =>
            let curPos := (ix * nz + iz)%Z in
            <[ Z.to_nat curPos :=
                 advance (rd prev_wave curPos) curr_wave vel u2 nx nz nb ix iz ]>
              prev_wave)
         prev_wave)
    prev_wave.

(** [fd4t10s_damp_zjh_2d_vtrans(prev_wave, curr_wave, vel, u2, nx, nz, nb)]:
    the contents of [prev_wave] and of [u2] on return. *)
Definition fd4t10s_damp_zjh_2d_vtrans (prev_wave curr_wave vel u2 : list Q)
    (nx nz nb : Z) : list Q * list Q :=
  let u2 := laplace_pass curr_wave u2 nx nz in
  let prev_wave := advance_pass prev_wave curr_wave vel u2 nx nz nb in
  (prev_wave, u2).

End Stencil.

(** ** Forward pass with checkpoints ([forwardPropagate], lines 308-344) *)

Module Forward.
Import Gradient.

Section ForwardPropagate.
Context `{Collaborators}.
Variables (vel : Velocity) (allSrcPos : ShotPosition) (encSrc : list Q) (nt : Z).

(** The loop of [forwardPropagate] over the first [k] time steps: the
    wavefields [p0] and [p1], and the files handed to [writeBin] so far, in
    the order they are written, each with the array it holds. *)
Definition forward_loop (k : nat) : list Q * list Q * list (checkpoint * list Q) :=
  let ns := count allSrcPos in
  let zeros := replicate (Z.to_nat (vnz vel * vnx vel)) 0 in
  for_upto k
    (fun it '(p0, p1, written) =>
       let p1 := addSource p1 (drop (it * Z.to_nat ns) encSrc) allSrcPos in
       let p0 := stepForward vel p0 p1 in
       let '(p1, p0) := (p0, p1) in
       let it := Z.of_nat it in
       if ((0 <? it) && negb (it =? nt - 1) && (Z.rem it check_step =? 0))%Z
       then (p0, p1, written ++ [(CheckAt it 1, p0); (CheckAt it 2, p1)])
       else (p0, p1, written))
    (zeros, zeros, []).

(** [forwardPropagate]: all the files it writes. *)
Definition forwardPropagate : list (checkpoint * list Q) :=
  let '(p0, p1, written) := forward_loop (Z.to_nat nt) in
  written ++ [(CheckLast 1, p0); (CheckLast 2, p1)].

End ForwardPropagate.

End Forward.

(** ** Distribution of the shots over the processes ([src/tool/main-born.cpp],
       lines 179-182, 295-297 and 345-349) *)

Module BornTasks.

(** [k = std::ceil(ns * 1.0 / np)] *)
Definition k_of (ns np : Z) : Z := Qceiling (inject_Z ns * 1.0 / inject_Z np).

(** [ntask = std::min(k, ns - rank*k)] *)
Definition ntask_of (ns np rank : Z) : Z :=
  let k := k_of ns np in
  let rest := int_sub ns (int_mul rank k) in
  if (rest <? k)%Z then rest else k.

(** [std::vector<float> trans(params.ntask * params.nt * params.ng, 0)]: the
    [int] product is converted to the unsigned size of the vector.  A
    negative product becomes a size beyond [max_size()], for which the
    constructor throws; nothing catches the exception, so the process is
    terminated there.  [None] when it throws, else the number of cells. *)
Definition trans_cells (ntask nt ng : Z) : option nat :=
  let n := int_mul (int_mul ntask nt) ng in
  if (n <? 0)%Z then None else Some (Z.to_nat n).

(** The values [is] takes in [for (int is = rank*k; is < rank*k + ntask; is++)]. *)
Definition shots_of (ns np rank : Z) : list Z :=
  let k := k_of ns np in
  let first := int_mul rank k in
  seqZ first (int_add first (ntask_of ns np rank) - first).

(** The shots process [rank] simulates: [main] sets up [trans] and then runs
    the loop over its shots.  [None] when the process is terminated before
    the loop. *)
Definition simulated (ns np nt ng rank : Z) : option (list Z) :=
  match trans_cells (ntask_of ns np rank) nt ng with
  | None => None
  | Some _ => Some (shots_of ns np rank)
  end.

(** The process [other_is / k] that rank 0 receives shot [other_is] from. *)
Definition sender_of (ns np other_is : Z) : Z := (other_is ÷ k_of ns np)%Z.

(** The shots rank 0 receives once its own are done:
    [for (other_is = rank*k + ntask; other_is < ns; other_is++)] with [rank = 0]. *)
Definition received (ns np : Z) : list Z :=
  let first := int_add (int_mul 0 (k_of ns np)) (ntask_of ns np 0) in
  seqZ first (ns - first).

End BornTasks.

(** ** A small instance of the interface

    A one-cell world on which the embedding runs: the wavefield of the
    propagator is the velocity model itself, the receivers read it back, the
    misfit is the sum of squared residuals. *)

Module Sample.

Definition sum_squares (l : list Q) : Q := fold_left (fun acc x => acc + x * x) l 0.

Definition collaborators (observed : Q) : Collaborators := {|
  stepForward := fun vel _ _ => dat vel;
  stepBackward := fun _ _ p1 => p1;
  addSource := fun p _ _ => p;
  subSource := fun p _ _ => p;
  recordSeis := fun d p pos =>
    take (Z.to_nat (count pos)) p ++ drop (Z.to_nat (count pos)) d;
  removeDirectArrival := fun _ _ _ dcal _ _ => dcal;
  refillBoundary := fun _ d => d;
  matrix_transpose := fun l _ _ => l;
  cal_objective := sum_squares;
  readBin := fun _ => [];
  fsqrt := fun x => x;
  encsrc_of := fun _ => [0];
  encobs_of := fun _ _ => [observed];
  baseline_of := fun _ _ => 0;
  gradient_of := fun _ _ => [1]
|}.

Definition one_cell (v : Q) : Velocity := mkVelocity [v] 1 1.

Definition one_point : ShotPosition := mkShotPosition 0 0 0 0 1 1.

(** A warm-start state in which index [0] holds the step length [8]. *)
Definition warm_state : StepLen.PreservedAlpha :=
  StepLen.mkPreservedAlpha {[ 0%Z := true ]} {[ 0%Z := 8 ]}.

End Sample.

(** ** A second instance, for the checkpoint files *)

Module Replay.

(** A one-cell world that counts time steps: every forward step adds one to
    the current wavefield, and the files on disk hold what a forward pass of
    52 steps leaves there. *)
Definition counting : Collaborators := {|
  stepForward := fun _ _ p1 => (fun x => x + 1) <$> p1;
  stepBackward := fun _ _ p1 => (fun x => x - 1) <$> p1;
  addSource := fun p _ _ => p;
  subSource := fun p _ _ => p;
  recordSeis := fun d p pos =>
    take (Z.to_nat (count pos)) p ++ drop (Z.to_nat (count pos)) d;
  removeDirectArrival := fun _ _ _ dcal _ _ => dcal;
  refillBoundary := fun _ d => d;
  matrix_transpose := fun l _ _ => l;
  cal_objective := Sample.sum_squares;
  readBin := fun f =>
    match f with
    | CheckLast 1 => [51]
    | CheckLast 2 => [52]
    | CheckAt 50 1 => [50]
    | CheckAt 50 2 => [51]
    | _ => []
    end;
  fsqrt := fun x => x;
  encsrc_of := fun _ => [0];
  encobs_of := fun _ _ => [0];
  baseline_of := fun _ _ => 0;
  gradient_of := fun _ _ => [1]
|}.

End Replay.

(** * Vocabulary of the statements

    The notions the properties below are phrased in.  None of them is part of
    the program. *)

Module Spec.
Import VirtualSource Gradient StepLen.

(** A loop pass that overwrites cell [i] with a function of its old content. *)
Definition cell_pass {A : Type} `{Inhabited A} (g : nat -> A -> A) (i : nat)
    (l : list A) : list A :=
  <[ i := g i (l !!! i) ]> l.

(** *** Conjugate direction *)

(** The sum over the whole arrays of the products of their cells. *)
Definition dot (x y : list Q) : Q := fold_left Qplus (zip_with Qmult x y) 0.

(** [max(0, (sum cur^2 - sum cur*pre) / sum pre^2)] *)
Definition beta_spec (cur pre : list Q) : Q :=
  Qmax 0 ((dot cur cur - dot cur pre) / dot pre pre).

(** *** Adjoint source filter *)

(** The value the filter stores in cell [i]. *)
Definition filter_value (tmp_vsrc : list Q) (num : Z) (i : nat) : Q :=
  if (Z.of_nat i <=? 1)%Z then 0
  else if ((num - 1 =? Z.of_nat i) || (num - 2 =? Z.of_nat i))%Z then 0
  else -(1) / 12 * tmp_vsrc !!! (i - 2)%nat + 4 / 3 * tmp_vsrc !!! (i - 1)%nat
       - 2.5 * tmp_vsrc !!! i + 4 / 3 * tmp_vsrc !!! (i + 1)%nat
       - 1 / 12 * tmp_vsrc !!! (i + 2)%nat.

(** Is [i] one of the first two or last two samples of a trace of [num]? *)
Definition edge (num : Z) (i : nat) : Prop :=
  (Z.of_nat i < 2 \/ num - 2 <= Z.of_nat i)%Z.

(** The loop of [transVsrc] over the first [k] traces. *)
Definition filter_traces (nt : Z) (dt : Q) (k : nat) (trans : list Q) : list Q :=
  for_upto k
    (fun ig t =>
       at_offset (ig * Z.to_nat nt)
         (fun trace => second_order_virtual_source_forth_accuracy trace nt dt) t)
    trans.

(** *** Backward gradient pass *)

(** The weight the time ramp gives to time step [it]: [Some 1] past the upper
    cutoff, the linear weight between the cutoffs, [None] (nothing is
    accumulated) up to the lower cutoff. *)
Definition time_ramp (dt : Q) (it : Z) : option Q :=
  if Qltb 0.4 (dt * inject_Z it) then Some 1
  else if Qltb 0.3 (dt * inject_Z it) then Some ((dt * inject_Z it - 0.3) / 0.1)
  else None.

(** What one time step adds to the gradient image under the time ramp. *)
Definition contribute (dt : Q) (g : list Q) (step : Z * wavefields) : list Q :=
  match time_ramp dt (fst step) with
  | Some scale =>
      cross_correlation (sp0 (snd step)) (gp0 (snd step)) g (length g) scale
  | None => g
  end.

(** The same for one cell [i] of the image: the product of the two wavefields
    at [i], scaled by the weight, is taken off. *)
Definition contribute_cell (dt : Q) (i : nat) (x : Q) (step : Z * wavefields) : Q :=
  match time_ramp dt (fst step) with
  | Some scale => x - sp0 (snd step) !!! i * gp0 (snd step) !!! i * scale
  | None => x
  end.

Section Trajectory.
Context `{Collaborators}.
Variables (vel : Velocity) (allSrcPos allGeoPos : ShotPosition).
Variables (encSrc vsrc : list Q) (nt : Z).

(** The wavefields of the time steps [k - 1, ..., 0], each as left by
    [propagate], when the pass is carried through all of them. *)
Fixpoint wave_seq (k : nat) (w : wavefields) : list (Z * wavefields) :=
  match k with
  | O => []
  | S k' =>
      let w' := propagate vel allSrcPos allGeoPos encSrc vsrc nt (Z.of_nat k') w in
      (Z.of_nat k', w') :: wave_seq k' w'
  end.

End Trajectory.

(** *** Step-length search *)

(** The state [initAlpha2_3] leaves behind. *)
Definition init_state (ivel : Z) (max_alpha3 : Q) (st : PreservedAlpha) : PreservedAlpha :=
  snd (initAlpha2_3 ivel max_alpha3 st).

(** The step length and logged misfit [calStepLen] settles on once
    [selectAlpha] has returned [r]. *)
Definition settle (obj_val1 max_alpha3 : Q) (r : selected) : Q * fval :=
  if toParabolicFit r then
    let v := calcParabolaVertexEnhanced 0 obj_val1 (r_alpha2 r) (r_obj_val2 r)
               (r_alpha3 r) (r_obj_val3 r) max_alpha3 in
    (if Qltb max_alpha3 (fst v) then max_alpha3 else fst v, snd v)
  else (r_alpha3 r, Num (r_obj_val3 r)).

(** The coefficients [A], [B], [C] of [calcParabolaVertex]. *)
Definition coeff_A (x1 y1 x2 y2 x3 y3 : Q) : Q :=
  (x3 * (y2 - y1) + x2 * (y1 - y3) + x1 * (y3 - y2))
  / ((x1 - x2) * (x1 - x3) * (x2 - x3)).

Definition coeff_B (x1 y1 x2 y2 x3 y3 : Q) : Q :=
  (x3 * x3 * (y1 - y2) + x2 * x2 * (y3 - y1) + x1 * x1 * (y2 - y3))
  / ((x1 - x2) * (x1 - x3) * (x2 - x3)).

Definition coeff_C (x1 y1 x2 y2 x3 y3 : Q) : Q :=
  (x2 * x3 * (x2 - x3) * y1 + x3 * x1 * (x3 - x1) * y2 + x1 * x2 * (x1 - x2) * y3)
  / ((x1 - x2) * (x1 - x3) * (x2 - x3)).

(** The value at [x] of the parabola with coefficients [A], [B], [C]. *)
Definition parabola (A B C x : Q) : Q := A * x * x + B * x + C.

(** Two misfit values the comparator of the tuned set cannot confuse: equal,
    or at least [1e-10] apart. *)
Definition apart (x y : Q) : Prop :=
  x == y \/ tolerance <= x - y \/ tolerance <= y - x.

(** The elements of a set in the order an iteration visits them. *)
Fixpoint elements {A : Type} (t : rbtree A) : list A :=
  match t with
  | Nil => []
  | Node _ l v r => elements l ++ v :: elements r
  end.

(** The elements an iteration visits before, and after, the place a path
    leads to. *)
Fixpoint path_before {A : Type} (path : list (passed A)) : list A :=
  match path with
  | [] => []
  | WentLeft _ _ _ :: path => path_before path
  | WentRight _ l v :: path => path_before path ++ elements l ++ [v]
  end.

Fixpoint path_after {A : Type} (path : list (passed A)) : list A :=
  match path with
  | [] => []
  | WentLeft _ v r :: path => v :: elements r ++ path_after path
  | WentRight _ _ _ :: path => path_after path
  end.

(** The first element of the tuned set has the least misfit of its elements. *)
Definition begin_least (t : rbtree ParaPoint) : Prop :=
  t <> Nil /\ forall y, In y (elements t) -> snd (set_begin t) <= snd y.

Section Candidates.
Context `{Collaborators}.
Variables (fmVel : Velocity) (allSrcPos allGeoPos : ShotPosition).
Variables (encsrc encobs grad : list Q) (nt : Z).
Variables (vmin vmax : Q).
Variable (alpha2 : Q).

(** The misfit value of a step length when the evaluation returns. *)
Definition objective (steplen : Q) : Q :=
  match misfit fmVel allSrcPos allGeoPos encsrc encobs grad nt vmin vmax steplen with
  | Done v => v
  | _ => 0
  end.

(** The step length tried after [k] halvings of [alpha2]. *)
Definition candidate (k : nat) : Q := Nat.iter k (fun a => a / 2) alpha2.

Definition tried (k : nat) : ParaPoint := (candidate k, objective (candidate k)).

(** The tuned set after the candidates [k+1, ..., n] joined it. *)
Definition tuned_upto (k n : nat) (l : rbtree ParaPoint) : rbtree ParaPoint :=
  fold_left (fun acc j => set_insert parabolicLessComp (tried j) acc)
    (seq (S k) (n - k)) l.

(** The tuned set once the candidates [0, ..., n] are in it. *)
Definition tuned_set (n : nat) : rbtree ParaPoint :=
  tuned_upto 0 n (set_insert parabolicLessComp (tried 0) Nil).

End Candidates.

End Spec.

(** * Vocabulary of the further properties

    As above, none of these notions is part of the program. *)

Module Notions.
Import Gradient Forward StepLen Spec.

(** *** Loops over a block of a two-dimensional array *)

(** The cells [(ix, iz)] a loop nest visits, in the order it visits them. *)
Definition grid (xlo xhi zlo zhi : Z) : list (Z * Z) :=
  ix ← seqZ xlo (xhi - xlo); (fun iz => (ix, iz)) <$> seqZ zlo (zhi - zlo).

(** The flat index of the cell [(ix, iz)] of an array with [nz] rows. *)
Definition cell (nz : Z) (p : Z * Z) : nat := Z.to_nat (fst p * nz + snd p).

(** A pass over [keys] that overwrites cell [pos k] with a function of its
    old content. *)
Definition writes {A K : Type} `{Inhabited A} (pos : K -> nat) (g : K -> A -> A)
    (keys : list K) (s : list A) : list A :=
  fold_left (fun acc k => <[ pos k := g k (acc !!! pos k) ]> acc) keys s.

(** The block of cells [lo <= ix < nx - lo], [lo <= iz < nz - lo]. *)
Definition inner (lo nx nz ix iz : Z) : Prop :=
  (lo <= ix < nx - lo)%Z /\ (lo <= iz < nz - lo)%Z.

(** An array that holds the [nx * nz] cells of the grid. *)
Definition fits (nx nz : Z) (l : list Q) : Prop := (Z.to_nat (nx * nz) <= length l)%nat.

(** *** Finite-difference time step *)

(** The Laplacian of [curr_wave] on the whole grid, cell by cell. *)
Definition laplacian (curr_wave : list Q) (nx nz : Z) : list Q :=
  Stencil.laplace curr_wave nz <$> seqZ 0 (nx * nz).

(** *** Forward pass *)

Section Fields.
Context `{Collaborators}.
Variables (vel : Velocity) (allSrcPos : ShotPosition) (encSrc : list Q).

(** The pair [(p0, p1)] of wavefields after [n] time steps of the forward
    recursion (add the source, step, swap), started at rest. *)
Definition forward_fields (n : nat) : list Q * list Q :=
  for_upto n
    (fun it '(p0, p1) =>
       let p1 := addSource p1 (drop (it * Z.to_nat (count allSrcPos)) encSrc) allSrcPos in
       (p1, stepForward vel p0 p1))
    (replicate (Z.to_nat (vnz vel * vnx vel)) 0,
     replicate (Z.to_nat (vnz vel * vnx vel)) 0).

(** Is time step [it] of a pass of [nt] steps one whose wavefields are kept in
    files of their own? *)
Definition kept (nt it : Z) : bool :=
  ((0 <? it) && negb (it =? nt - 1) && (Z.rem it check_step =? 0))%Z.

(** The files written up to time step [n], each holding a wavefield of the
    forward recursion. *)
Definition saved (nt : Z) (n : nat) : list (checkpoint * list Q) :=
  it ← seq 0 n;
  if kept nt (Z.of_nat it)
  then [(CheckAt (Z.of_nat it) 1, fst (forward_fields (S it)));
        (CheckAt (Z.of_nat it) 2, snd (forward_fields (S it)))]
  else [].

End Fields.

(** *** Adjoint source filter *)

(** The polynomial [c0 + c1 x + ... + c5 x^5]. *)
Definition quintic (c0 c1 c2 c3 c4 c5 x : Q) : Q :=
  c0 + c1 * x + c2 * x * x + c3 * x * x * x + c4 * x * x * x * x
  + c5 * x * x * x * x * x.

(** The samples [p(0), p(1), ..., p(n - 1)]. *)
Definition sampled (p : Q -> Q) (n : nat) : list Q :=
  (fun j => p (inject_Z (Z.of_nat j))) <$> seq 0 n.

(** *** Step-length search *)

Section StepBound.
Context `{Collaborators}.

(** The step length at which cell [i] would reach the velocity change
    [maxdv], as [calMaxAlpha2_3] computes it. *)
Definition step_bound (exvel : Velocity) (grad : list Q) (dt dx maxdv : Q) (i : nat) : Q :=
  let tmpv := dx / (dt * fsqrt (dat exvel !!! i)) - maxdv in
  ((dx / (dt * tmpv)) * (dx / (dt * tmpv)) - dat exvel !!! i) / Qabs (grad !!! i).

(** Is the gradient of cell [i] too small to count? *)
Definition negligible (grad : list Q) (i : nat) : bool :=
  Qltb (Qabs (grad !!! i)) 0.0000000001.

End StepBound.

Section Bracket.
Context `{Collaborators}.
Variables (fmVel : Velocity) (allSrcPos allGeoPos : ShotPosition).
Variables (encsrc encobs grad : list Q) (nt : Z).
Variables (vmin vmax : Q).

(** The bracket the two loops of [selectAlpha] maintain: two positive step
    lengths in order, each with the misfit evaluated at it. *)
Definition bracket (t : tuning) : Prop :=
  let misfit_at := objective fmVel allSrcPos allGeoPos encsrc encobs grad nt vmin vmax in
  0 < t_alpha2 t /\ t_alpha2 t < t_alpha3 t /\
  t_obj_val2 t = misfit_at (t_alpha2 t) /\ t_obj_val3 t = misfit_at (t_alpha3 t).

End Bracket.

End Notions.

(** * Properties *)


Import Spec.

Lemma Qltb_lt (x y : Q) : Qltb x y = true <-> x < y.
Proof.
  unfold Qltb. rewrite negb_true_iff. split.
  - intros H. apply Qnot_le_lt. intros Hle.
    apply Qle_bool_iff in Hle. congruence.
  - intros H. destruct (Qle_bool y x) eqn:E; [|reflexivity].
    apply Qle_bool_iff in E. lra.
Qed.

Lemma Qltb_ge (x y : Q) : Qltb x y = false <-> y <= x.
Proof.
  unfold Qltb. rewrite negb_false_iff. apply Qle_bool_iff.
Qed.

Lemma Qleb_le (x y : Q) : Qleb x y = true <-> x <= y.
Proof. apply Qle_bool_iff. Qed.

Lemma Qleb_gt (x y : Q) : Qleb x y = false <-> y < x.
Proof.
  unfold Qleb. split.
  - intros H. apply Qnot_le_lt. intros Hle. apply Qle_bool_iff in Hle. congruence.
  - intros H. destruct (Qle_bool x y) eqn:E; [|reflexivity].
    apply Qle_bool_iff in E. lra.
Qed.

Lemma std_min_Qmin (a b : Q) : std_min a b == Qmin a b.
Proof.
  unfold std_min. destruct (Qltb b a) eqn:E.
  - apply Qltb_lt in E. symmetry. apply Q.min_r. lra.
  - apply Qltb_ge in E. symmetry. apply Q.min_l. exact E.
Qed.

Lemma std_min_le_r (a b : Q) : std_min a b <= b.
Proof. rewrite std_min_Qmin. apply Q.le_min_r. Qed.

(** ** Counted loops that write one cell per pass *)

Section CellLoops.
Context {A : Type} `{Inhabited A}.

(** An [int] expression whose value fits in 32 bits is not changed by the
    wrap-around. *)
Lemma int32_fits (z : Z) : (- 2 ^ 31 <= z < 2 ^ 31)%Z -> int32 z = z.
Proof.
  intros Hz. unfold int32. rewrite Z.mod_small; lia.
Qed.

(** Array sizes up to [2^24] are passed to a [float] parameter unchanged. *)
Lemma float_of_Z_exact (n : Z) : (Z.abs n <= 2 ^ 24)%Z -> float_of_Z n = inject_Z n.
Proof.
  intros Hn. change (2 ^ 24)%Z with 16777216%Z in Hn.
  destruct (Z.eq_dec (Z.abs n) 16777216%Z) as [E|E].
  - assert (Hc : n = 16777216%Z \/ n = (-16777216)%Z) by lia.
    destruct Hc as [-> | ->]; reflexivity.
  - assert (Hlt : (Z.abs n < 2 ^ 24)%Z) by (change (2 ^ 24)%Z with 16777216%Z; lia).
    assert (Hlog : (Z.log2 (Z.abs n) < 24)%Z).
    { destruct (Z.eq_dec (Z.abs n) 0%Z) as [E0|E0]; [rewrite E0; reflexivity|].
      apply Z.log2_lt_pow2; lia. }
    unfold float_of_Z. cbv zeta.
    replace (Z.log2 (Z.abs n) - 23 <=? 0)%Z with true; [reflexivity|].
    symmetry. apply Z.leb_le. lia.
Qed.

Lemma for_upto_S {S : Type} (n : nat) (body : nat -> S -> S) (s : S) :
  for_upto (Datatypes.S n) body s = body n (for_upto n body s).
Proof.
  unfold for_upto. rewrite seq_S, fold_left_app. reflexivity.
Qed.

Lemma cell_loop_length (g : nat -> A -> A) (n : nat) (l : list A) :
  length (for_upto n (cell_pass g) l) = length l.
Proof.
  induction n as [|n IH]; [reflexivity|].
  rewrite for_upto_S. unfold cell_pass at 1. rewrite length_insert. exact IH.
Qed.

Lemma cell_loop_lookup (g : nat -> A -> A) (n : nat) (l : list A) (i : nat) :
  for_upto n (cell_pass g) l !! i
  = if decide (i < n)%nat then g i <$> (l !! i) else l !! i.
Proof.
  induction n as [|n IH].
  - simpl. destruct (decide (i < 0)%nat); [lia | reflexivity].
  - rewrite for_upto_S. unfold cell_pass at 1.
    destruct (decide (i = n)) as [->|Hne].
    + destruct (decide (n < Datatypes.S n)%nat); [|lia].
      destruct (decide (n < n)%nat); [lia|].
      destruct (l !! n) as [x|] eqn:Hl.
      * rewrite list_lookup_insert_eq.
        2:{ rewrite cell_loop_length. eapply lookup_lt_Some; eauto. }
        simpl. f_equal. f_equal.
        apply list_lookup_total_correct. exact IH.
      * simpl. apply lookup_ge_None. rewrite length_insert, cell_loop_length.
        apply lookup_ge_None. exact Hl.
    + rewrite list_lookup_insert_ne by congruence. rewrite IH.
      destruct (decide (i < n)%nat), (decide (i < Datatypes.S n)%nat);
        try reflexivity; lia.
Qed.

Lemma cell_loop_ext {S : Type} (f g : nat -> S -> S) (n : nat) (s : S) :
  (forall i s', (i < n)%nat -> f i s' = g i s') ->
  for_upto n f s = for_upto n g s.
Proof.
  induction n as [|n IH]; intros Hfg; [reflexivity|].
  rewrite !for_upto_S. rewrite IH by (intros; apply Hfg; lia).
  apply Hfg. lia.
Qed.

End CellLoops.

(** ** [update_vel] *)

Module UpdateVelFacts.
Import UpdateVel.

Lemma clamp_bounds (vmin vmax v : Q) : vmin <= vmax -> vmin <= clamp vmin vmax v <= vmax.
Proof.
  intros Hb. unfold clamp.
  destruct (Qltb vmax v) eqn:E1.
  - apply Qltb_lt in E1. destruct (Qltb vmax vmin) eqn:E2.
    + apply Qltb_lt in E2. lra.
    + lra.
  - apply Qltb_ge in E1. destruct (Qltb v vmin) eqn:E2.
    + lra.
    + apply Qltb_ge in E2. lra.
Qed.



Lemma body_as_cell_pass vel grad steplen vmin vmax :
  body vel grad steplen vmin vmax
  = cell_pass (fun i _ => clamp vmin vmax (vel !!! i + steplen * grad !!! i)).
Proof. reflexivity. Qed.

Lemma body_inplace_as_cell_pass grad steplen vmin vmax :
  body_inplace grad steplen vmin vmax
  = cell_pass (fun i x => clamp vmin vmax (x + steplen * grad !!! i)).
Proof. reflexivity. Qed.

Lemma update_vel_done vel grad size steplen vmin vmax new_vel :
  vmin < vmax ->
  update_vel vel grad size steplen vmin vmax new_vel
  = Done (for_upto (trip_count size) (body vel grad steplen vmin vmax) new_vel).
Proof.
  intros Hlt. unfold update_vel.
  assert (E : Qleb vmax vmin = false) by (apply Qleb_gt; exact Hlt).
  rewrite E. reflexivity.
Qed.

Lemma update_vel_exit vel grad size steplen vmin vmax new_vel :
  vmax <= vmin ->
  update_vel vel grad size steplen vmin vmax new_vel = Exit 0 (VmaxBelowVmin vmax vmin).
Proof.
  intros Hle. unfold update_vel.
  assert (E : Qleb vmax vmin = true) by (apply Qleb_le; exact Hle).
  rewrite E. reflexivity.
Qed.

Lemma update_vel_lookup vel grad size steplen vmin vmax new_vel out i :
  update_vel vel grad size steplen vmin vmax new_vel = Done out ->
  (i < trip_count size)%nat -> (i < length new_vel)%nat ->
  out !! i = Some (clamp vmin vmax (vel !!! i + steplen * grad !!! i)).
Proof.
  unfold update_vel. destruct (Qleb vmax vmin); [discriminate|].
  intros [= <-] Hi Hlen. rewrite body_as_cell_pass, cell_loop_lookup.
  destruct (decide (i < trip_count size)%nat); [|lia].
  destruct (lookup_lt_is_Some_2 new_vel i Hlen) as [x ->]. reflexivity.
Qed.

Lemma update_vel_length vel grad size steplen vmin vmax new_vel out :
  update_vel vel grad size steplen vmin vmax new_vel = Done out ->
  length out = length new_vel.
Proof.
  unfold update_vel. destruct (Qleb vmax vmin); [discriminate|].
  intros [= <-]. rewrite body_as_cell_pass. apply cell_loop_length.
Qed.

Lemma update_vel_untouched vel grad size steplen vmin vmax new_vel out i :
  update_vel vel grad size steplen vmin vmax new_vel = Done out ->
  (trip_count size <= i)%nat -> out !! i = new_vel !! i.
Proof.
  unfold update_vel. destruct (Qleb vmax vmin); [discriminate|].
  intros [= <-] Hi. rewrite body_as_cell_pass, cell_loop_lookup.
  destruct (decide (i < trip_count size)%nat); [lia | reflexivity].
Qed.

Lemma trip_count_length (n : nat) : trip_count (inject_Z (Z.of_nat n)) = n.
Proof. unfold trip_count. rewrite Qceiling_Z. apply Nat2Z.id. Qed.

(** With one buffer for [vel] and [new_vel] the loop computes what it computes
    with two: cell [i] is read before it is written and never again. *)
Lemma update_vel_inplace_same grad size steplen vmin vmax buf :
  update_vel_inplace grad size steplen vmin vmax buf
  = update_vel buf grad size steplen vmin vmax buf.
Proof.
  unfold update_vel_inplace, update_vel.
  destruct (Qleb vmax vmin); [reflexivity|]. f_equal.
  apply list_eq. intros i.
  rewrite body_as_cell_pass, body_inplace_as_cell_pass, !cell_loop_lookup.
  destruct (decide (i < trip_count size)%nat); [|reflexivity].
  destruct (buf !! i) as [x|] eqn:E; [|reflexivity].
  simpl. rewrite (list_lookup_total_correct _ _ _ E). reflexivity.
Qed.

End UpdateVelFacts.

(** ** [prevCurrCorrDirection] *)

Module DirectionFacts.
Import Direction.

Lemma std_copy_all (src dst : list Q) (n : nat) :
  length src = n -> length dst = n -> std_copy src n dst = src.
Proof.
  intros Hs Hd. unfold std_copy.
  change (fun i d => <[ i := src !!! i ]> d) with (cell_pass (fun i (_ : Q) => src !!! i)).
  apply list_eq. intros i. rewrite cell_loop_lookup.
  destruct (decide (i < n)%nat) as [Hi|Hi].
  - destruct (lookup_lt_is_Some_2 dst i ltac:(lia)) as [x ->]. simpl.
    symmetry. apply list_lookup_lookup_total_lt. lia.
  - rewrite !lookup_ge_None_2 by lia. reflexivity.
Qed.

Lemma take_snoc_total (l : list Q) (n : nat) :
  (n < length l)%nat -> take (S n) l = take n l ++ [l !!! n].
Proof.
  intros Hn. destruct (lookup_lt_is_Some_2 l n Hn) as [x Hx].
  rewrite (take_S_r l n x Hx). rewrite (list_lookup_total_correct _ _ _ Hx). reflexivity.
Qed.

Lemma dot_take_S (x y : list Q) (n : nat) :
  (n < length x)%nat -> (n < length y)%nat ->
  dot (take (S n) x) (take (S n) y) = dot (take n x) (take n y) + x !!! n * y !!! n.
Proof.
  intros Hx Hy. unfold dot.
  rewrite (take_snoc_total x n Hx), (take_snoc_total y n Hy).
  rewrite zip_with_app by (rewrite !length_take; lia).
  rewrite fold_left_app. reflexivity.
Qed.

Lemma sums_loop (pre cur : list Q) (n : nat) :
  (n <= length pre)%nat -> (n <= length cur)%nat ->
  for_upto n (sums_body pre cur) (0, 0, 0)
  = (dot (take n cur) (take n cur), dot (take n cur) (take n pre),
     dot (take n pre) (take n pre)).
Proof.
  induction n as [|n IH]; intros Hp Hc.
  - reflexivity.
  - rewrite for_upto_S, IH by lia. unfold sums_body.
    rewrite !dot_take_S by lia. reflexivity.
Qed.

Lemma beta_of_max (a b c : Q) : beta_of a b c == Qmax 0 ((a - b) / c).
Proof.
  unfold beta_of. destruct (Qltb ((a - b) / c) 0) eqn:E.
  - apply Qltb_lt in E. symmetry. apply Q.max_l. lra.
  - apply Qltb_ge in E. symmetry. apply Q.max_r. exact E.
Qed.

Lemma direction_loop_lookup (cur upd : list Q) (beta : Q) (n i : nat) (g d : Q) :
  (i < n)%nat -> cur !! i = Some g -> upd !! i = Some d ->
  for_upto n (direction_body cur beta) upd !! i = Some (g + beta * d).
Proof.
  intros Hi Hg Hd.
  change (direction_body cur beta) with (cell_pass (fun i x => cur !!! i + beta * x)).
  rewrite cell_loop_lookup. destruct (decide (i < n)%nat); [|lia].
  rewrite Hd. simpl. rewrite (list_lookup_total_correct _ _ _ Hg). reflexivity.
Qed.

Lemma direction_loop_length (cur upd : list Q) (beta : Q) (n : nat) :
  length (for_upto n (direction_body cur beta) upd) = length upd.
Proof.
  change (direction_body cur beta) with (cell_pass (fun i x => cur !!! i + beta * x)).
  apply cell_loop_length.
Qed.

End DirectionFacts.

(** ** The adjoint source filter *)

Module VirtualSourceFacts.
Import VirtualSource.

Lemma filter_body_cell (tmp_vsrc : list Q) (num : Z) (i : nat) (vsrc : list Q) :
  filter_body tmp_vsrc num i vsrc
  = cell_pass (fun j (_ : Q) => filter_value tmp_vsrc num j) i vsrc.
Proof.
  unfold filter_body, cell_pass, filter_value.
  destruct (Z.of_nat i <=? 1)%Z; [reflexivity|].
  destruct ((num - 1 =? Z.of_nat i) || (num - 2 =? Z.of_nat i))%Z; reflexivity.
Qed.

Lemma filter_as_cell_loop (vsrc : list Q) (num : Z) (dt : Q) :
  second_order_virtual_source_forth_accuracy vsrc num dt
  = for_upto (Z.to_nat num)
      (cell_pass (fun j (_ : Q) => filter_value (take (Z.to_nat num) vsrc) num j)) vsrc.
Proof.
  unfold second_order_virtual_source_forth_accuracy.
  apply cell_loop_ext. intros i s _. apply filter_body_cell.
Qed.

Lemma filter_length (vsrc : list Q) (num : Z) (dt : Q) :
  length (second_order_virtual_source_forth_accuracy vsrc num dt) = length vsrc.
Proof. rewrite filter_as_cell_loop. apply cell_loop_length. Qed.

Lemma filter_value_edge (tmp_vsrc : list Q) (num : Z) (i : nat) :
  (Z.of_nat i < num)%Z -> edge num i -> filter_value tmp_vsrc num i = 0.
Proof.
  intros Hi He. unfold filter_value.
  destruct (Z.leb_spec (Z.of_nat i) 1); [reflexivity|].
  destruct (Z.eqb_spec (num - 1) (Z.of_nat i)); [reflexivity|].
  destruct (Z.eqb_spec (num - 2) (Z.of_nat i)); [reflexivity|].
  unfold edge in He. lia.
Qed.

Lemma filter_edge_zero (vsrc : list Q) (num : Z) (dt : Q) (i : nat) :
  (Z.to_nat num <= length vsrc)%nat ->
  (Z.of_nat i < num)%Z -> edge num i ->
  second_order_virtual_source_forth_accuracy vsrc num dt !! i = Some 0.
Proof.
  intros Hlen Hi He. rewrite filter_as_cell_loop, cell_loop_lookup.
  destruct (decide (i < Z.to_nat num)%nat); [|lia].
  destruct (lookup_lt_is_Some_2 vsrc i ltac:(lia)) as [x ->]. simpl.
  rewrite filter_value_edge by assumption. reflexivity.
Qed.

Lemma at_offset_length (off : nat) (f : list Q -> list Q) (buf : list Q) :
  (forall l, length (f l) = length l) -> (off <= length buf)%nat ->
  length (at_offset off f buf) = length buf.
Proof.
  intros Hf Hoff. unfold at_offset.
  rewrite length_app, Hf, length_take, length_drop. lia.
Qed.

Lemma at_offset_before (off : nat) (f : list Q -> list Q) (buf : list Q) (j : nat) :
  (j < off)%nat -> (off <= length buf)%nat -> at_offset off f buf !! j = buf !! j.
Proof.
  intros Hj Hoff. unfold at_offset.
  rewrite lookup_app_l by (rewrite length_take; lia).
  apply lookup_take_lt. exact Hj.
Qed.

Lemma at_offset_from (off : nat) (f : list Q -> list Q) (buf : list Q) (i : nat) :
  (off <= length buf)%nat -> at_offset off f buf !! (off + i)%nat = f (drop off buf) !! i.
Proof.
  intros Hoff. unfold at_offset.
  rewrite lookup_app_r by (rewrite length_take; lia).
  rewrite length_take. f_equal. lia.
Qed.

Lemma filter_traces_length (nt : Z) (dt : Q) (k : nat) (trans : list Q) :
  (k * Z.to_nat nt <= length trans)%nat ->
  length (filter_traces nt dt k trans) = length trans.
Proof.
  induction k as [|k IH]; intros Hk; [reflexivity|].
  unfold filter_traces in *. rewrite for_upto_S.
  rewrite at_offset_length.
  - apply IH. lia.
  - intros l. apply filter_length.
  - rewrite IH by lia. lia.
Qed.

Lemma filter_traces_edge_zero (nt : Z) (dt : Q) (k : nat) (trans : list Q) (ig i : nat) :
  (k * Z.to_nat nt <= length trans)%nat ->
  (ig < k)%nat -> (Z.of_nat i < nt)%Z -> edge nt i ->
  filter_traces nt dt k trans !! (ig * Z.to_nat nt + i)%nat = Some 0.
Proof.
  induction k as [|k IH]; intros Hk Hig Hi He; [lia|].
  pose proof (filter_traces_length nt dt k trans ltac:(lia)) as Hlen.
  unfold filter_traces in *. rewrite for_upto_S.
  destruct (decide (ig = k)) as [->|Hne].
  - rewrite at_offset_from by lia.
    apply filter_edge_zero; try assumption.
    rewrite length_drop, Hlen. lia.
  - rewrite at_offset_before.
    + apply IH; try assumption; lia.
    + assert (S ig <= k)%nat as Hs by lia.
      pose proof (Nat.mul_le_mono_r _ _ (Z.to_nat nt) Hs). lia.
    + lia.
Qed.

End VirtualSourceFacts.

(** ** The backward gradient pass *)

Module GradientFacts.
Import Gradient.

Lemma cross_correlation_lookup (src vsrc image : list Q) (scale : Q) (i : nat) (x : Q) :
  image !! i = Some x ->
  cross_correlation src vsrc image (length image) scale !! i
  = Some (x - src !!! i * vsrc !!! i * scale).
Proof.
  intros Hx. unfold cross_correlation.
  change (fun i img => <[ i := img !!! i - src !!! i * vsrc !!! i * scale ]> img)
    with (cell_pass (fun i y => y - src !!! i * vsrc !!! i * scale)).
  rewrite cell_loop_lookup.
  destruct (decide (i < length image)%nat) as [_|Hge].
  - rewrite Hx. reflexivity.
  - exfalso. apply Hge. eapply lookup_lt_Some; eauto.
Qed.

Lemma contribute_lookup (dt : Q) (steps : list (Z * wavefields)) (g : list Q)
    (i : nat) (x : Q) :
  g !! i = Some x ->
  fold_left (contribute dt) steps g !! i
  = Some (fold_left (contribute_cell dt i) steps x).
Proof.
  revert g x. induction steps as [|step steps IH]; intros g x Hx; [exact Hx|].
  cbn [fold_left]. apply IH. unfold contribute, contribute_cell.
  destruct (time_ramp dt (fst step)); [|exact Hx].
  apply cross_correlation_lookup. exact Hx.
Qed.

Section Trajectory.
Context `{Collaborators}.
Variables (vel : Velocity) (allSrcPos allGeoPos : ShotPosition).
Variables (encSrc vsrc : list Q) (nt : Z) (dt : Q).

Abbreviation wave_seq := (wave_seq vel allSrcPos allGeoPos encSrc vsrc nt).
Abbreviation contribute := (contribute dt).

Lemma below_cutoff_stays_below (k it : nat) :
  (it <= k)%nat -> dt * inject_Z (Z.of_nat k) <= 0.3 ->
  dt * inject_Z (Z.of_nat it) <= 0.3.
Proof.
  intros Hle Hk.
  assert (Hq : inject_Z (Z.of_nat it) <= inject_Z (Z.of_nat k)).
  { rewrite <- Zle_Qle. lia. }
  assert (H0 : 0 <= inject_Z (Z.of_nat it)).
  { change 0 with (inject_Z 0). rewrite <- Zle_Qle. lia. }
  destruct (Qlt_le_dec dt 0) as [Hneg|Hpos].
  - assert (dt * inject_Z (Z.of_nat it) <= 0) by nra. lra.
  - assert (dt * inject_Z (Z.of_nat it) <= dt * inject_Z (Z.of_nat k)) by nra. lra.
Qed.

Lemma time_ramp_none (it : Z) : dt * inject_Z it <= 0.3 -> time_ramp dt it = None.
Proof.
  intros Hle. unfold time_ramp.
  assert (E1 : Qltb 0.4 (dt * inject_Z it) = false) by (apply Qltb_ge; lra).
  assert (E2 : Qltb 0.3 (dt * inject_Z it) = false) by (apply Qltb_ge; lra).
  rewrite E1, E2. reflexivity.
Qed.

Lemma contribute_nothing_below (k : nat) (w : wavefields) (g : list Q) :
  (forall it, (it < k)%nat -> dt * inject_Z (Z.of_nat it) <= 0.3) ->
  fold_left contribute (wave_seq k w) g = g.
Proof.
  revert w. induction k as [|k IH]; intros w Hlow; [reflexivity|].
  simpl. unfold Spec.contribute at 2. simpl.
  rewrite time_ramp_none by (apply Hlow; lia).
  apply IH. intros it Hit. apply Hlow. lia.
Qed.

Lemma hello_loop_ramp (k : nat) (w : wavefields) (g : list Q) :
  snd (hello_loop vel allSrcPos allGeoPos encSrc vsrc nt dt k w g)
  = fold_left contribute (wave_seq k w) g.
Proof.
  revert w g. induction k as [|k IH]; intros w g; [reflexivity|].
  simpl. unfold Spec.contribute at 2, time_ramp. simpl.
  destruct (Qltb 0.4 (dt * inject_Z (Z.of_nat k))) eqn:E1.
  - apply IH.
  - destruct (Qltb 0.3 (dt * inject_Z (Z.of_nat k))) eqn:E2.
    + apply IH.
    + simpl. symmetry. apply contribute_nothing_below.
      intros it Hit. apply (below_cutoff_stays_below k); [lia|].
      apply Qltb_ge. exact E2.
Qed.

End Trajectory.

End GradientFacts.

(** ** The warm start and the final store of [calStepLen] *)

Module StepLenFacts.
Import StepLen.

Lemma getAlpha_setAlpha (ivel : Z) (a : Q) (st : PreservedAlpha) :
  getAlpha (setAlpha ivel a st) ivel = a.
Proof. unfold getAlpha, setAlpha. simpl. rewrite lookup_insert_eq. reflexivity. Qed.

Lemma getAlpha_setAlpha_ne (ivel j : Z) (a : Q) (st : PreservedAlpha) :
  ivel <> j -> getAlpha (setAlpha ivel a st) j = getAlpha st j.
Proof.
  intros Hne. unfold getAlpha, setAlpha. simpl.
  rewrite lookup_insert_ne by exact Hne. reflexivity.
Qed.

Lemma getIsInit_setAlpha (ivel j : Z) (a : Q) (st : PreservedAlpha) :
  getIsInit (setAlpha ivel a st) j = getIsInit st j.
Proof. reflexivity. Qed.

Lemma getIsInit_setIsInit (ivel : Z) (b : bool) (st : PreservedAlpha) :
  getIsInit (setIsInit ivel b st) ivel = b.
Proof. unfold getIsInit, setIsInit. simpl. rewrite lookup_insert_eq. reflexivity. Qed.

Lemma init_state_first (ivel : Z) (max_alpha3 : Q) (st : PreservedAlpha) :
  getIsInit st ivel = false ->
  getIsInit (init_state ivel max_alpha3 st) ivel = true /\
  getAlpha (init_state ivel max_alpha3 st) ivel = max_alpha3.
Proof.
  intros Hfirst. unfold init_state, initAlpha2_3. rewrite Hfirst. simpl.
  split; [apply getIsInit_setIsInit | apply getAlpha_setAlpha].
Qed.

Lemma init_state_later (ivel : Z) (max_alpha3 : Q) (st : PreservedAlpha) :
  getIsInit st ivel = true -> init_state ivel max_alpha3 st = st.
Proof.
  intros Hinit. unfold init_state, initAlpha2_3. rewrite Hinit. reflexivity.
Qed.

Lemma initAlpha2_3_returns (ivel : Z) (max_alpha3 : Q) (st : PreservedAlpha) :
  let stored := getAlpha (init_state ivel max_alpha3 st) ivel in
  let initAlpha3 := snd (fst (initAlpha2_3 ivel max_alpha3 st)) in
  let initAlpha2 := fst (fst (initAlpha2_3 ivel max_alpha3 st)) in
  initAlpha3 = (if Qltb stored minAlpha then resetAlpha else stored) /\
  initAlpha2 == initAlpha3 / 2.
Proof.
  unfold init_state, initAlpha2_3. simpl. split; [reflexivity|].
  field.
Qed.

Section CalStepLen.
Context `{Collaborators}.
Variables (fuel : nat) (fmVel : Velocity) (allSrcPos allGeoPos : ShotPosition).
Variables (encsrc encobs updateDirection : list Q) (iter nt ivel : Z) (dt dx fm : Q).
Variables (obj_val1 min_vel max_vel : Q) (st : PreservedAlpha).

Let max_alpha3 : Q := snd (calMaxAlpha2_3 fmVel updateDirection dt dx maxdv).
Let init := initAlpha2_3 ivel max_alpha3 st.

Lemma calStepLen_unfold :
  calStepLen fuel fmVel allSrcPos allGeoPos encsrc encobs updateDirection iter nt ivel
    dt dx fm obj_val1 min_vel max_vel st
  = r ← selectAlpha fmVel allSrcPos allGeoPos encsrc encobs updateDirection nt
          obj_val1 min_vel max_vel max_alpha3 fuel (fst (fst init)) (snd (fst init));
    mret (settle obj_val1 max_alpha3 r,
          setAlpha ivel (fst (settle obj_val1 max_alpha3 r)) (snd init)).
Proof.
  unfold calStepLen. subst init max_alpha3.
  destruct (calMaxAlpha2_3 fmVel updateDirection dt dx maxdv) as [m2 m3]. cbn [snd].
  destruct (initAlpha2_3 ivel m3 st) as [[a2 a3] st1]. cbn [fst snd].
  destruct (selectAlpha _ _ _ _ _ _ _ _ _ _ _ _ _ _) as [r| |];
    cbn [mbind outcome_bind]; try reflexivity.
  unfold settle. destruct (toParabolicFit r); [|reflexivity].
  destruct (calcParabolaVertexEnhanced _ _ _ _ _ _ _) as [a4 o4]. reflexivity.
Qed.

Lemma calStepLen_stores alpha4 obj_val4 st' :
  calStepLen fuel fmVel allSrcPos allGeoPos encsrc encobs updateDirection iter nt ivel
    dt dx fm obj_val1 min_vel max_vel st = Done ((alpha4, obj_val4), st') ->
  getAlpha st' ivel = alpha4 /\ alpha st' !! ivel = Some alpha4.
Proof.
  rewrite calStepLen_unfold.
  destruct (selectAlpha _ _ _ _ _ _ _ _ _ _ _ _ _ _) as [r| |]; simpl; try discriminate.
  intros [= E1 E2]. subst st'. rewrite E1. cbn [fst].
  split; [apply getAlpha_setAlpha|].
  unfold setAlpha. simpl. apply lookup_insert_eq.
Qed.

End CalStepLen.

End StepLenFacts.

(** ** The parabolic fit *)

Module ParabolaFacts.
Import StepLen.

Lemma std_max_Qmax (a b : Q) : std_max a b == Qmax a b.
Proof.
  unfold std_max. destruct (Qltb a b) eqn:E.
  - apply Qltb_lt in E. symmetry. apply Q.max_r. lra.
  - apply Qltb_ge in E. symmetry. apply Q.max_l. exact E.
Qed.

Lemma calcParabolaVertex_coeffs (x1 y1 x2 y2 x3 y3 : Q) :
  calcParabolaVertex x1 y1 x2 y2 x3 y3
  = (- coeff_B x1 y1 x2 y2 x3 y3 / (2 * coeff_A x1 y1 x2 y2 x3 y3),
     coeff_C x1 y1 x2 y2 x3 y3
     - coeff_B x1 y1 x2 y2 x3 y3 * coeff_B x1 y1 x2 y2 x3 y3
       / (4 * coeff_A x1 y1 x2 y2 x3 y3)).
Proof. reflexivity. Qed.

(** The parabola of [calcParabolaVertex] passes through the three points. *)
Lemma parabola_through_points (x1 y1 x2 y2 x3 y3 : Q) :
  ~ x1 == x2 -> ~ x1 == x3 -> ~ x2 == x3 ->
  let A := coeff_A x1 y1 x2 y2 x3 y3 in
  let B := coeff_B x1 y1 x2 y2 x3 y3 in
  let C := coeff_C x1 y1 x2 y2 x3 y3 in
  parabola A B C x1 == y1 /\ parabola A B C x2 == y2 /\ parabola A B C x3 == y3.
Proof.
  intros H12 H13 H23. unfold parabola, coeff_A, coeff_B, coeff_C.
  assert (D12 : ~ x1 - x2 == 0) by (intros E; apply H12; lra).
  assert (D13 : ~ x1 - x3 == 0) by (intros E; apply H13; lra).
  assert (D23 : ~ x2 - x3 == 0) by (intros E; apply H23; lra).
  repeat split; field; auto.
Qed.

(** [-B / (2A)] is the abscissa of its vertex, [C - B^2 / (4A)] the ordinate. *)
Lemma parabola_vertex_form (A B C x : Q) :
  ~ A == 0 ->
  parabola A B C x
  == A * (x - - B / (2 * A)) * (x - - B / (2 * A)) + (C - B * B / (4 * A)).
Proof. intros HA. unfold parabola. field. exact HA. Qed.

Lemma nearly_collinear_true (x1 y1 x2 y2 x3 y3 : Q) :
  let k2 := (y3 - y2) / (x3 - x2) in
  let k1 := (y2 - y1) / (x2 - x1) in
  nearly_collinear x1 y1 x2 y2 x3 y3 = true
  <-> Qabs (k2 - k1) < 0.001 * Qmax (Qabs k2) (Qabs k1).
Proof.
  intros k2 k1. unfold nearly_collinear. fold k2 k1.
  rewrite Qltb_lt, std_max_Qmax. reflexivity.
Qed.

Lemma enhanced_discards (x1 y1 x2 y2 x3 y3 max_alpha3 : Q) :
  nearly_collinear x1 y1 x2 y2 x3 y3 = true ->
  calcParabolaVertexEnhanced x1 y1 x2 y2 x3 y3 max_alpha3
  = (std_min (2 * x3) max_alpha3, NaN).
Proof.
  intros E. unfold calcParabolaVertexEnhanced.
  destruct (calcParabolaVertex x1 y1 x2 y2 x3 y3) as [xv yv].
  rewrite E. reflexivity.
Qed.

Lemma enhanced_keeps (x1 y1 x2 y2 x3 y3 max_alpha3 : Q) :
  nearly_collinear x1 y1 x2 y2 x3 y3 = false ->
  calcParabolaVertexEnhanced x1 y1 x2 y2 x3 y3 max_alpha3
  = (fst (calcParabolaVertex x1 y1 x2 y2 x3 y3),
     Num (snd (calcParabolaVertex x1 y1 x2 y2 x3 y3))).
Proof.
  intros E. unfold calcParabolaVertexEnhanced.
  destruct (calcParabolaVertex x1 y1 x2 y2 x3 y3) as [xv yv].
  rewrite E. reflexivity.
Qed.

Lemma cap_Qmin (bound a : Q) : (if Qltb bound a then bound else a) == Qmin a bound.
Proof.
  destruct (Qltb bound a) eqn:E.
  - apply Qltb_lt in E. symmetry. apply Q.min_r. lra.
  - apply Qltb_ge in E. symmetry. apply Q.min_l. exact E.
Qed.

Lemma cap_std_min (bound a : Q) :
  (if Qltb bound (std_min a bound) then bound else std_min a bound) = std_min a bound.
Proof.
  assert (E : Qltb bound (std_min a bound) = false).
  { apply Qltb_ge. apply std_min_le_r. }
  rewrite E. reflexivity.
Qed.

End ParabolaFacts.

(** ** The halving branch of [selectAlpha] *)

Module SelectFacts.
Import StepLen.

Lemma comp_le (a b : ParaPoint) : snd a <= snd b -> parabolicLessComp a b = true.
Proof. intros Hle. unfold parabolicLessComp, tolerance. apply Qltb_lt. lra. Qed.

Lemma comp_true_apart (a b : ParaPoint) :
  apart (snd a) (snd b) -> parabolicLessComp a b = true -> snd a <= snd b.
Proof.
  unfold parabolicLessComp, apart, tolerance. intros Hap Hc. apply Qltb_lt in Hc.
  destruct Hap as [E|[E|E]]; lra.
Qed.

Lemma comp_false (a b : ParaPoint) :
  parabolicLessComp a b = false -> snd b < snd a /\ parabolicLessComp b a = true.
Proof.
  unfold parabolicLessComp, tolerance. intros Hc. apply Qltb_ge in Hc.
  split; [lra|]. apply Qltb_lt. lra.
Qed.

(** *** The tree of the tuned set *)

Lemma plug_elements {A : Type} (x : rbtree A) (path : list (passed A)) :
  elements (plug x path) = path_before path ++ elements x ++ path_after path.
Proof.
  revert x. induction path as [|[c v r|c l v] path IH]; intros x; cbn [plug].
  - cbn. rewrite app_nil_r. reflexivity.
  - rewrite IH. cbn. rewrite <- !app_assoc. reflexivity.
  - rewrite IH. cbn. rewrite <- !app_assoc. reflexivity.
Qed.

(** The rotations and recolourings leave the order of the elements alone. *)
Lemma rebalance_elements {A : Type} (path : list (passed A)) (x : rbtree A) :
  elements (rebalance x path) = elements (plug x path).
Proof.
  remember (length path) as n eqn:Hn.
  revert path x Hn.
  induction n as [n IH] using lt_wf_ind. intros path x Hn.
  assert (Hrec : forall (rest : list (passed A)) (y : rbtree A), (length rest < n)%nat ->
            elements (rebalance y rest) = elements (plug y rest)).
  { intros rest y Hlt. exact (IH _ Hlt rest y eq_refl). }
  clear IH.
  destruct path as [|[[|] vp rp|[|] lp vp] [|[cg vg u|cg u vg] rest]];
    try reflexivity; cbn [length] in Hn;
    destruct u as [|[|] ul uv ur]; try destruct x as [|cx xl xv xr];
    cbn [rebalance]; try reflexivity;
    rewrite ?Hrec by lia; rewrite !plug_elements;
    cbn [path_before path_after elements];
    repeat first [rewrite <- !app_assoc | progress cbn [app]]; reflexivity.
Qed.

Lemma blacken_elements {A : Type} (t : rbtree A) : elements (blacken t) = elements t.
Proof. destruct t; reflexivity. Qed.

Lemma descend_elements {A : Type} (comp : A -> A -> bool) (k : A) (t : rbtree A)
    (path : list (passed A)) :
  path_before (descend comp k t path) ++ path_after (descend comp k t path)
  = path_before path ++ elements t ++ path_after path.
Proof.
  revert path. induction t as [|c l IHl v r IHr]; intros path; cbn [descend].
  - reflexivity.
  - destruct (comp k v).
    + rewrite IHl. cbn. rewrite <- !app_assoc. reflexivity.
    + rewrite IHr. cbn. rewrite <- !app_assoc. reflexivity.
Qed.

Lemma hd_app_cons {A : Type} (d v : A) (l1 l2 : list A) :
  hd d (l1 ++ v :: l2) = hd v l1.
Proof. destruct l1; reflexivity. Qed.

Lemma leftmost_hd {A : Type} (d : A) (t : rbtree A) : leftmost d t = hd d (elements t).
Proof.
  revert d. induction t as [|c l IHl v r IHr]; intros d; cbn; [reflexivity|].
  rewrite IHl, hd_app_cons. reflexivity.
Qed.

Lemma elements_nil {A : Type} (t : rbtree A) : elements t = [] -> t = Nil.
Proof.
  destruct t as [|c l v r]; [reflexivity|]. cbn. intros E.
  destruct (elements l); discriminate.
Qed.

Lemma leftmost_in {A : Type} (d : A) (t : rbtree A) :
  t <> Nil -> In (leftmost d t) (elements t).
Proof.
  intros Hne. rewrite leftmost_hd.
  destruct (elements t) as [|x l] eqn:E; [|left; reflexivity].
  apply elements_nil in E. contradiction.
Qed.

Lemma begin_in (t : rbtree ParaPoint) : t <> Nil -> In (set_begin t) (elements t).
Proof. apply leftmost_in. Qed.

Lemma before_gap_none {A : Type} (path : list (passed A)) :
  before_gap path = None -> path_before path = [].
Proof.
  induction path as [|[c v r|c l v] path IH]; cbn; [reflexivity | exact IH | discriminate].
Qed.

Lemma before_gap_some {A : Type} (path : list (passed A)) (j : A) :
  before_gap path = Some j -> path_before path <> [].
Proof.
  induction path as [|[c v r|c l v] path IH]; cbn; [discriminate | exact IH |].
  intros _ E. apply app_eq_nil in E as [_ E]. apply app_eq_nil in E as [_ E].
  discriminate.
Qed.

(** Where the way down ends: to the left of everything only if the new
    element was ranked before the first one, and after an element only if
    it was not ranked before that element. *)
Lemma descend_gap {A : Type} (comp : A -> A -> bool) (k : A) (t : rbtree A)
    (path : list (passed A)) :
  (before_gap (descend comp k t path) = None ->
     before_gap path = None /\ forall d, t <> Nil -> comp k (leftmost d t) = true)
  /\ (forall j, before_gap (descend comp k t path) = Some j ->
        before_gap path = Some j \/ (In j (elements t) /\ comp k j = false)).
Proof.
  revert path. induction t as [|c l IHl v r IHr]; intros path; cbn [descend].
  - split; [intros E; split; [exact E | congruence] | intros j E; left; exact E].
  - destruct (comp k v) eqn:Ekv.
    + destruct (IHl (WentLeft c v r :: path)) as [Hn Hs]. split.
      * intros E. destruct (Hn E) as [Hp Hl]. split; [exact Hp|].
        intros d _. cbn [leftmost]. destruct l as [|cl ll lv lr]; [exact Ekv|].
        apply Hl. discriminate.
      * intros j E. destruct (Hs j E) as [Hp|[Hin Hc]]; [left; exact Hp|].
        right. split; [|exact Hc]. cbn. apply in_or_app. left. exact Hin.
    + destruct (IHr (WentRight c l v :: path)) as [Hn Hs]. split.
      * intros E. destruct (Hn E) as [Hp _]. discriminate.
      * intros j E. destruct (Hs j E) as [Hp|[Hin Hc]].
        -- cbn in Hp. injection Hp as <-. right. split; [|exact Ekv].
           cbn. apply in_or_app. right. left. reflexivity.
        -- right. split; [|exact Hc]. cbn. apply in_or_app. right. right. exact Hin.
Qed.

(** With this comparator nothing is ever dropped from the tuned set: the new
    element joins the sequence of the elements, in front only if it was
    ranked before the first one, and further back only after an element it
    was not ranked before. *)
Lemma set_insert_elements (k : ParaPoint) (t : rbtree ParaPoint) :
  exists l1 l2,
    elements t = l1 ++ l2
    /\ elements (set_insert parabolicLessComp k t) = l1 ++ k :: l2
    /\ (l1 = [] -> t <> Nil -> parabolicLessComp k (set_begin t) = true)
    /\ (l1 <> [] -> exists v, In v (elements t) /\ parabolicLessComp k v = false).
Proof.
  pose proof (descend_elements parabolicLessComp k t []) as Hel.
  destruct (descend_gap parabolicLessComp k t []) as [Hn Hs].
  unfold set_insert.
  set (path := descend parabolicLessComp k t []) in *.
  cbn in Hel. rewrite app_nil_r in Hel.
  assert (Hhung : elements (blacken (rebalance (Node Red Nil k Nil) path))
                  = path_before path ++ k :: path_after path).
  { rewrite blacken_elements, rebalance_elements, plug_elements. reflexivity. }
  exists (path_before path), (path_after path).
  destruct (before_gap path) as [j|] eqn:G.
  - destruct (Hs j eq_refl) as [Hp|[Hin Hc]]; [discriminate|].
    destruct (comp_false _ _ Hc) as [_ E]. rewrite E.
    split; [symmetry; exact Hel|]. split; [exact Hhung|]. split.
    + intros E1. exfalso. exact (before_gap_some _ _ G E1).
    + intros _. exists j. split; [exact Hin | exact Hc].
  - split; [symmetry; exact Hel|]. split; [exact Hhung|]. split.
    + intros _ Hne. destruct (Hn eq_refl) as [_ Hl]. apply Hl. exact Hne.
    + intros Hne. exfalso. apply Hne. apply before_gap_none. exact G.
Qed.

Lemma set_insert_elem (k y : ParaPoint) (t : rbtree ParaPoint) :
  In y (elements (set_insert parabolicLessComp k t)) <-> y = k \/ In y (elements t).
Proof.
  destruct (set_insert_elements k t) as (l1 & l2 & E1 & E2 & _).
  rewrite E1, E2, !in_app_iff. cbn. intuition congruence.
Qed.

Lemma set_insert_single (k : ParaPoint) :
  set_insert parabolicLessComp k Nil = Node Black Nil k Nil.
Proof. reflexivity. Qed.

Lemma begin_least_single (k : ParaPoint) :
  begin_least (set_insert parabolicLessComp k Nil).
Proof.
  rewrite set_insert_single. split; [discriminate|]. cbn. intros y [<-|[]]. lra.
Qed.

Lemma begin_least_insert (k : ParaPoint) (t : rbtree ParaPoint) :
  begin_least t -> apart (snd k) (snd (set_begin t)) ->
  begin_least (set_insert parabolicLessComp k t).
Proof.
  intros [Hne Hmin] Hap.
  destruct (set_insert_elements k t) as (l1 & l2 & E1 & E2 & Hfront & Hback).
  split.
  { intros E. rewrite E in E2. cbn in E2. destruct l1; discriminate. }
  intros y Hy. apply set_insert_elem in Hy.
  assert (Eb' : set_begin (set_insert parabolicLessComp k t) = hd (0, 0) (l1 ++ k :: l2)).
  { unfold set_begin. rewrite leftmost_hd. f_equal. exact E2. }
  assert (Eb : set_begin t = hd (0, 0) (l1 ++ l2)).
  { unfold set_begin. rewrite leftmost_hd. f_equal. exact E1. }
  rewrite Eb'.
  destruct l1 as [|x l1].
  - cbn. specialize (Hfront eq_refl Hne).
    pose proof (comp_true_apart _ _ Hap Hfront) as Hkb.
    destruct Hy as [->|Hy]; [lra|]. specialize (Hmin y Hy). lra.
  - cbn. cbn in Eb. rewrite Eb in Hmin.
    destruct Hy as [->|Hy]; [|apply Hmin; exact Hy].
    destruct (Hback ltac:(discriminate)) as (v & Hv & Hc).
    destruct (comp_false _ _ Hc) as [Hlt _].
    specialize (Hmin v Hv). lra.
Qed.

Section Halving.
Context `{Collaborators}.
Variables (fmVel : Velocity) (allSrcPos allGeoPos : ShotPosition).
Variables (encsrc encobs grad : list Q) (nt : Z).
Variables (obj_val1 vmin vmax maxAlpha3 : Q).
Variable (alpha2 : Q).

Abbreviation misfit := (misfit fmVel allSrcPos allGeoPos encsrc encobs grad nt vmin vmax).
Abbreviation halving :=
  (halving fmVel allSrcPos allGeoPos encsrc encobs grad nt obj_val1 vmin vmax).
Abbreviation objective :=
  (objective fmVel allSrcPos allGeoPos encsrc encobs grad nt vmin vmax).
Abbreviation candidate := (candidate alpha2).
Abbreviation tried :=
  (tried fmVel allSrcPos allGeoPos encsrc encobs grad nt vmin vmax alpha2).
Abbreviation tuned_upto :=
  (tuned_upto fmVel allSrcPos allGeoPos encsrc encobs grad nt vmin vmax alpha2).
Abbreviation tuned_set :=
  (tuned_set fmVel allSrcPos allGeoPos encsrc encobs grad nt vmin vmax alpha2).

Hypothesis bounds : vmin < vmax.

Lemma misfit_done (steplen : Q) : misfit steplen = Done (objective steplen).
Proof.
  unfold Spec.objective, StepLen.misfit, calculate_obj_val.
  rewrite UpdateVelFacts.update_vel_done by exact bounds. reflexivity.
Qed.

Lemma halving_S (left : nat) (t : tuning) :
  halving (S left) t
  = if Qltb obj_val1 (t_obj_val2 t) then
      obj_val2 ← misfit (t_alpha2 t / 2);
      halving left
        (mkTuning (t_alpha2 t / 2) obj_val2 (t_alpha2 t) (t_obj_val2 t)
           (set_insert parabolicLessComp (t_alpha2 t / 2, obj_val2) (tunedAlpha t)))
    else mret t.
Proof. reflexivity. Qed.

Lemma tuned_upto_same (k : nat) (l : rbtree ParaPoint) : tuned_upto k k l = l.
Proof. unfold Spec.tuned_upto. rewrite Nat.sub_diag. reflexivity. Qed.

Lemma tuned_upto_step (k n : nat) (l : rbtree ParaPoint) :
  (S k <= n)%nat ->
  tuned_upto (S k) n (set_insert parabolicLessComp (tried (S k)) l) = tuned_upto k n l.
Proof.
  intros Hn. unfold Spec.tuned_upto.
  replace (n - k)%nat with (S (n - S k)) by lia. reflexivity.
Qed.

Lemma halving_runs (left k : nat) (t : tuning) :
  t_alpha2 t = candidate k -> t_obj_val2 t = objective (candidate k) ->
  exists n t',
    halving left t = Done t' /\
    (k <= n <= k + left)%nat /\
    t_alpha2 t' = candidate n /\ t_obj_val2 t' = objective (candidate n) /\
    (forall j, (k <= j < n)%nat -> obj_val1 < objective (candidate j)) /\
    ((n < k + left)%nat -> objective (candidate n) <= obj_val1) /\
    tunedAlpha t' = tuned_upto k n (tunedAlpha t).
Proof.
  revert k t. induction left as [|left IH]; intros k t Ha Ho.
  - exists k, t. rewrite tuned_upto_same.
    split; [reflexivity|]. split; [lia|]. split; [exact Ha|]. split; [exact Ho|].
    split; [intros j Hj; lia|]. split; [intros Hlt; lia | reflexivity].
  - rewrite halving_S. destruct (Qltb obj_val1 (t_obj_val2 t)) eqn:E.
    + rewrite misfit_done. cbn [mbind outcome_bind].
      assert (Hc : t_alpha2 t / 2 = candidate (S k)).
      { rewrite Ha. reflexivity. }
      rewrite Hc.
      destruct (IH (S k)
                  (mkTuning (candidate (S k)) (objective (candidate (S k)))
                     (t_alpha2 t) (t_obj_val2 t)
                     (set_insert parabolicLessComp (tried (S k)) (tunedAlpha t))))
        as (n & t' & Hrun & Hn & Ha' & Ho' & Hbig & Hstop & Hset);
        [reflexivity | reflexivity |].
      exists n, t'. split; [exact Hrun|]. split; [lia|].
      split; [exact Ha'|]. split; [exact Ho'|]. split; [|split].
      * intros j Hj. destruct (decide (j = k)) as [->|Hne].
        -- apply Qltb_lt in E. rewrite <- Ho. exact E.
        -- apply Hbig. lia.
      * intros Hlt. apply Hstop. lia.
      * rewrite Hset. cbn [tunedAlpha]. apply tuned_upto_step. lia.
    + exists k, t. rewrite tuned_upto_same.
      split; [reflexivity|]. split; [lia|]. split; [exact Ha|]. split; [exact Ho|].
      split; [intros j Hj; lia|]. split; [|reflexivity].
      intros _. apply Qltb_ge in E. rewrite <- Ho. exact E.
Qed.

Lemma tuned_upto_last (k n : nat) (l : rbtree ParaPoint) :
  (k <= n)%nat ->
  tuned_upto k (S n) l = set_insert parabolicLessComp (tried (S n)) (tuned_upto k n l).
Proof.
  intros Hn. unfold Spec.tuned_upto.
  replace (S n - k)%nat with (S (n - k)) by lia.
  rewrite seq_S, fold_left_app. cbn [fold_left].
  replace (S k + (n - k))%nat with (S n) by lia. reflexivity.
Qed.

Lemma tuned_set_begin (n : nat) :
  (forall i j, (i <= n)%nat -> (j <= n)%nat ->
     apart (objective (candidate i)) (objective (candidate j))) ->
  begin_least (tuned_set n) /\
  (forall y, In y (elements (tuned_set n)) <-> exists j, (j <= n)%nat /\ y = tried j).
Proof.
  intros Hap. induction n as [|n IH].
  - unfold Spec.tuned_set. rewrite tuned_upto_same. split; [apply begin_least_single|].
    intros y. rewrite set_insert_single. cbn [elements app In]. split.
    + intros [<-|[]]. exists 0%nat. split; [lia | reflexivity].
    + intros (j & Hj & ->). left. replace j with 0%nat by lia. reflexivity.
  - destruct IH as [Hleast Hin]. { intros i j Hi Hj. apply Hap; lia. }
    unfold Spec.tuned_set in *. rewrite tuned_upto_last by lia.
    set (l := Spec.tuned_upto _ _ _ _ _ _ _ _ _ _ 0 n _) in *.
    split.
    + apply begin_least_insert; [exact Hleast|].
      destruct Hleast as [Hne _].
      pose proof (begin_in l Hne) as Hb.
      apply Hin in Hb as (j & Hj & ->). cbn [Spec.tried snd]. apply Hap; lia.
    + intros y. rewrite set_insert_elem, Hin. split.
      * intros [->|(j & Hj & ->)]; [exists (S n) | exists j]; split; auto; lia.
      * intros (j & Hj & ->). destruct (decide (j = S n)) as [->|Hne]; [left; reflexivity|].
        right. exists j. split; [lia | reflexivity].
Qed.

End Halving.

End SelectFacts.

(** ** The search returns

    The [while] loop of [selectAlpha] doubles a positive [alpha3] until it
    reaches [maxAlpha3] at the latest, so with bounds [vmin < vmax] the
    search returns once the unrolling is long enough. *)

Module ReturnFacts.
Import StepLen SelectFacts StepLenFacts.

Section Returns.
Context `{Collaborators}.
Variables (fmVel : Velocity) (allSrcPos allGeoPos : ShotPosition).
Variables (encsrc encobs grad : list Q) (nt : Z).
Variables (obj_val1 vmin vmax maxAlpha3 : Q).
Hypothesis bounds : vmin < vmax.

Abbreviation misfit := (misfit fmVel allSrcPos allGeoPos encsrc encobs grad nt vmin vmax).
Abbreviation objective :=
  (objective fmVel allSrcPos allGeoPos encsrc encobs grad nt vmin vmax).
Abbreviation halving :=
  (halving fmVel allSrcPos allGeoPos encsrc encobs grad nt obj_val1 vmin vmax).
Abbreviation doubling :=
  (doubling fmVel allSrcPos allGeoPos encsrc encobs grad nt obj_val1 vmin vmax maxAlpha3).

Lemma doubling_eq (fuel : nat) (lin : Q) (t : tuning) :
  doubling fuel lin t
  = if Qltb (t_obj_val3 t) lin && Qltb (t_obj_val3 t) obj_val1
       && Qltb (t_alpha3 t) maxAlpha3
    then
      match fuel with
      | O => OutOfFuel
      | S fuel' =>
          obj_val3 ← misfit (std_min (t_alpha3 t * 2) maxAlpha3);
          doubling fuel' lin
            (mkTuning (t_alpha3 t) (t_obj_val3 t) (std_min (t_alpha3 t * 2) maxAlpha3)
               obj_val3
               (set_insert parabolicLessComp
                  (std_min (t_alpha3 t * 2) maxAlpha3, obj_val3) (tunedAlpha t)))
      end
    else mret t.
Proof. destruct fuel; reflexivity. Qed.

Lemma pow2_succ (m : nat) :
  inject_Z (2 ^ Z.of_nat (S m)) == 2 * inject_Z (2 ^ Z.of_nat m).
Proof.
  rewrite Nat2Z.inj_succ, Z.pow_succ_r by lia. rewrite inject_Z_mult. reflexivity.
Qed.

Lemma pow2_ge_1 (m : nat) : 1 <= inject_Z (2 ^ Z.of_nat m).
Proof.
  change 1 with (inject_Z 1). rewrite <- Zle_Qle.
  pose proof (Z.pow_pos_nonneg 2 (Z.of_nat m)). lia.
Qed.

Lemma doubling_returns (m : nat) :
  forall fuel lin t,
    (m < fuel)%nat -> 0 < t_alpha3 t ->
    maxAlpha3 <= t_alpha3 t * inject_Z (2 ^ Z.of_nat m) ->
    exists t', doubling fuel lin t = Done t'.
Proof.
  induction m as [|m IH]; intros fuel lin t Hfuel Hpos Hreach; rewrite doubling_eq.
  - assert (E : Qltb (t_alpha3 t) maxAlpha3 = false).
    { apply Qltb_ge. change (inject_Z (2 ^ Z.of_nat 0)) with 1 in Hreach. lra. }
    rewrite E, andb_false_r. eexists. reflexivity.
  - destruct (Qltb (t_obj_val3 t) lin && Qltb (t_obj_val3 t) obj_val1) eqn:Ec;
      [|eexists; reflexivity].
    destruct (Qltb (t_alpha3 t) maxAlpha3) eqn:Ea; [|eexists; reflexivity].
    cbn [andb]. apply Qltb_lt in Ea.
    destruct fuel as [|fuel]; [lia|].
    rewrite (misfit_done fmVel allSrcPos allGeoPos encsrc encobs grad nt vmin vmax bounds).
    cbn [mbind outcome_bind].
    apply IH; cbn [t_alpha3]; [lia| |].
    + unfold std_min. destruct (Qltb maxAlpha3 (t_alpha3 t * 2)); lra.
    + rewrite pow2_succ in Hreach. pose proof (pow2_ge_1 m) as H1.
      unfold std_min. destruct (Qltb maxAlpha3 (t_alpha3 t * 2)) eqn:Em.
      * assert (0 < maxAlpha3) by lra. nra.
      * lra.
Qed.

Lemma doubling_bound (a : Q) :
  0 < a -> exists m : nat, maxAlpha3 <= a * inject_Z (2 ^ Z.of_nat m).
Proof.
  intros Ha. exists (Z.to_nat (Qceiling (maxAlpha3 / a))).
  set (m := Z.to_nat (Qceiling (maxAlpha3 / a))).
  assert (Hq : maxAlpha3 / a <= inject_Z (Z.of_nat m)).
  { apply Qle_trans with (inject_Z (Qceiling (maxAlpha3 / a))); [apply Qle_ceiling|].
    rewrite <- Zle_Qle. unfold m. lia. }
  assert (Hp : inject_Z (Z.of_nat m) <= inject_Z (2 ^ Z.of_nat m)).
  { rewrite <- Zle_Qle. pose proof (Z.pow_gt_lin_r 2 (Z.of_nat m)). lia. }
  assert (Hm : maxAlpha3 == maxAlpha3 / a * a) by (field; lra).
  rewrite Hm at 1. rewrite (Qmult_comm a).
  apply Qmult_le_compat_r; lra.
Qed.

Lemma halving_positive (left : nat) (t t' : tuning) :
  0 < t_alpha2 t -> 0 < t_alpha3 t -> halving left t = Done t' ->
  0 < t_alpha2 t' /\ 0 < t_alpha3 t'.
Proof.
  revert t. induction left as [|left IH]; intros t H2 H3.
  - intros [= <-]. split; assumption.
  - rewrite (halving_S fmVel allSrcPos allGeoPos encsrc encobs grad nt obj_val1 vmin vmax).
    destruct (Qltb obj_val1 (t_obj_val2 t)).
    + rewrite (misfit_done fmVel allSrcPos allGeoPos encsrc encobs grad nt vmin vmax bounds).
      cbn [mbind outcome_bind]. apply IH; cbn [t_alpha2 t_alpha3]; [|exact H2].
      apply Qlt_shift_div_l; lra.
    + intros [= <-]. split; assumption.
Qed.

Lemma selectAlpha_returns (alpha2 alpha3 : Q) :
  0 < alpha2 -> 0 < alpha3 ->
  exists fuel0, forall fuel, (fuel0 <= fuel)%nat ->
    exists r,
      selectAlpha fmVel allSrcPos allGeoPos encsrc encobs grad nt obj_val1 vmin vmax
        maxAlpha3 fuel alpha2 alpha3 = Done r.
Proof.
  intros H2 H3. unfold selectAlpha.
  rewrite (misfit_done fmVel allSrcPos allGeoPos encsrc encobs grad nt vmin vmax bounds alpha2).
  cbn [mbind outcome_bind].
  rewrite (misfit_done fmVel allSrcPos allGeoPos encsrc encobs grad nt vmin vmax bounds alpha3).
  cbn [mbind outcome_bind].
  destruct (halving_runs fmVel allSrcPos allGeoPos encsrc encobs grad nt
              obj_val1 vmin vmax alpha2 bounds max_iter_select_alpha3 0
              (mkTuning alpha2 (objective alpha2) alpha3 (objective alpha3)
                 (set_insert parabolicLessComp (alpha2, objective alpha2) Nil)))
    as (n & t & Hrun & _); [reflexivity | reflexivity |].
  rewrite Hrun. cbn [mbind outcome_bind].
  destruct (halving_positive _ _ _ (H2 : 0 < t_alpha2 (mkTuning alpha2 _ alpha3 _ _)) H3 Hrun)
    as [Ht2 Ht3].
  destruct (Qltb obj_val1 (t_obj_val2 t)).
  - exists 0%nat. intros fuel _.
    rewrite (misfit_done fmVel allSrcPos allGeoPos encsrc encobs grad nt vmin vmax bounds).
    eexists. reflexivity.
  - destruct (doubling_bound (t_alpha3 t) Ht3) as [m Hm].
    exists (S m). intros fuel Hfuel.
    edestruct (doubling_returns m fuel) as [t' Hd]; [lia | | | rewrite Hd].
    + cbn [t_alpha3]. exact Ht3.
    + cbn [t_alpha3]. exact Hm.
    + cbn [mbind outcome_bind]. destruct (Qltb (maxAlpha3 + 0.1) (t_alpha3 t')).
      * rewrite (misfit_done fmVel allSrcPos allGeoPos encsrc encobs grad nt vmin vmax bounds).
        eexists. reflexivity.
      * eexists. reflexivity.
Qed.

End Returns.

(** [calStepLen] returns for every model, direction and warm-start state. *)
Lemma calStepLen_returns `{Collaborators}
    (fmVel : Velocity) (allSrcPos allGeoPos : ShotPosition)
    (encsrc encobs updateDirection : list Q) (iter nt ivel : Z) (dt dx fm : Q)
    (obj_val1 min_vel max_vel : Q) (st : PreservedAlpha) :
  min_vel < max_vel ->
  exists fuel0, forall fuel, (fuel0 <= fuel)%nat ->
    exists res,
      calStepLen fuel fmVel allSrcPos allGeoPos encsrc encobs updateDirection iter nt
        ivel dt dx fm obj_val1 min_vel max_vel st = Done res.
Proof.
  intros Hb.
  set (max_alpha3 := snd (calMaxAlpha2_3 fmVel updateDirection dt dx maxdv)).
  set (init := initAlpha2_3 ivel max_alpha3 st).
  assert (H3 : 0 < snd (fst init)).
  { unfold init, initAlpha2_3. cbn [fst snd].
    match goal with |- 0 < (if Qltb ?s minAlpha then _ else _) =>
      destruct (Qltb s minAlpha) eqn:E end.
    - reflexivity.
    - apply Qltb_ge in E. unfold minAlpha in E. lra. }
  assert (H2 : 0 < fst (fst init)).
  { unfold init, initAlpha2_3 in *. cbn [fst snd] in *. lra. }
  destruct (selectAlpha_returns fmVel allSrcPos allGeoPos encsrc encobs updateDirection
              nt obj_val1 min_vel max_vel max_alpha3 Hb _ _ H2 H3) as [fuel0 Hret].
  exists fuel0. intros fuel Hfuel. destruct (Hret fuel Hfuel) as [r Hr].
  rewrite calStepLen_unfold. fold max_alpha3 init. rewrite Hr.
  eexists. reflexivity.
Qed.

End ReturnFacts.

(** ** The loop body of [main] *)

Module DriverFacts.
Import UpdateVel UpdateVelFacts StepLen.

Lemma update_vel_all_clamped vel grad size steplen vmin vmax new_vel out :
  update_vel vel grad size steplen vmin vmax new_vel = Done out ->
  length new_vel = trip_count size ->
  Forall (fun v => vmin <= v <= vmax) out.
Proof.
  intros E Hlen. apply Forall_lookup_2. intros i x Hx.
  pose proof (lookup_lt_Some _ _ _ Hx) as Hi.
  rewrite (update_vel_length _ _ _ _ _ _ _ _ E) in Hi.
  rewrite (update_vel_lookup _ _ _ _ _ _ _ _ i E) in Hx by lia.
  injection Hx as <-. apply clamp_bounds.
  unfold update_vel in E. destruct (Qleb vmax vmin) eqn:Eb; [discriminate|].
  apply Qleb_gt in Eb. lra.
Qed.

(** What the tail of the loop body of [main] does to the velocity model. *)
Lemma main_iteration_velocity `{Collaborators} fuel allSrcPos allGeoPos nt dt dx fm iter s s' :
  main_iteration fuel allSrcPos allGeoPos nt dt dx fm iter s = Done s' ->
  exists updateDirection steplen updated,
    update_vel_inplace updateDirection
      (float_of_Z (Z.of_nat (length (dat (exvel s))))) steplen
      ((dx / dt / vmax) * (dx / dt / vmax)) ((dx / dt / vmin) * (dx / dt / vmin))
      (dat (exvel s)) = Done updated /\
    dat (exvel s')
    = refillBoundary (mkVelocity updated (vnx (exvel s)) (vnz (exvel s))) updated.
Proof.
  unfold main_iteration.
  destruct (Direction.prevCurrCorrDirection _ _ _ _ _) as [g0' dir].
  destruct (calStepLen _ _ _ _ _ _ _ _ _ _ _ _ _ _ _ _ _) as [[[steplen o4] st]| |];
    simpl; try discriminate.
  destruct (update_vel_inplace _ _ _ _ _ _) as [dat'| |] eqn:E; simpl; try discriminate.
  intros [= <-]. exists dir, steplen, dat'. split; [exact E | reflexivity].
Qed.

Lemma velocity_bounds_ordered (dt dx : Q) :
  ~ dx == 0 -> ~ dt == 0 ->
  (dx / dt / vmax) * (dx / dt / vmax) < (dx / dt / vmin) * (dx / dt / vmin).
Proof.
  intros Hdx Hdt. unfold vmax, vmin.
  set (q := dx / dt).
  assert (Hq : ~ q == 0).
  { unfold q. intros E. apply Hdx.
    assert (E' : dx == dx / dt * dt) by (field; exact Hdt).
    rewrite E', E. ring. }
  assert (Hpos : 0 < q * q).
  { destruct (Qlt_le_dec q 0); [|destruct (Qlt_le_dec 0 q)]; nra. }
  set (qq := q * q) in *.
  assert (E1 : q / 5500 * (q / 5500) == qq / 30250000) by (unfold qq; field).
  assert (E2 : q / 1500 * (q / 1500) == qq / 2250000) by (unfold qq; field).
  rewrite E1, E2.
  assert (E3 : qq / 30250000 == qq * (1 # 30250000)) by field.
  assert (E4 : qq / 2250000 == qq * (1 # 2250000)) by field.
  rewrite E3, E4. lra.
Qed.

(** Every pass of the loop of [main] is carried through once the unrolling of
    the search is long enough. *)
Lemma main_iteration_returns `{Collaborators} allSrcPos allGeoPos nt dt dx fm iter s :
  ~ dx == 0 -> ~ dt == 0 ->
  exists fuel0, forall fuel, (fuel0 <= fuel)%nat ->
    exists s', main_iteration fuel allSrcPos allGeoPos nt dt dx fm iter s = Done s'.
Proof.
  intros Hdx Hdt. pose proof (velocity_bounds_ordered dt dx Hdx Hdt) as Hb.
  unfold main_iteration.
  destruct (Direction.prevCurrCorrDirection _ _ _ _ _) as [g0' dir].
  destruct (ReturnFacts.calStepLen_returns (exvel s) allSrcPos allGeoPos
              (encsrc_of iter) (encobs_of iter (exvel s)) dir iter nt 0 dt dx fm
              (baseline_of iter (exvel s)) _ _ (preserved s) Hb) as [fuel0 Hret].
  exists fuel0. intros fuel Hfuel. destruct (Hret fuel Hfuel) as [[[a4 o4] st'] Hr].
  rewrite Hr. cbn [mbind outcome_bind].
  rewrite update_vel_inplace_same, update_vel_done by exact Hb.
  eexists. reflexivity.
Qed.

End DriverFacts.

(** ** Geometry validation *)

Module BornFacts.
Import Born.

Lemma int32_mod (z : Z) : (int32 z mod 2 ^ 32 = z mod 2 ^ 32)%Z.
Proof.
  unfold int32. rewrite Zminus_mod_idemp_l. f_equal. lia.
Qed.

Lemma int32_congr (a b : Z) : (a mod 2 ^ 32 = b mod 2 ^ 32)%Z -> int32 a = int32 b.
Proof.
  intros E. unfold int32.
  rewrite <- (Zplus_mod_idemp_l a), <- (Zplus_mod_idemp_l b), E. reflexivity.
Qed.

(** The wrap-around of the intermediate results does not show in the last
    position: it is the position itself, wrapped once. *)
Lemma last_pos_wraps_once (beg n j : Z) : last_pos beg n j = int32 (beg + (n - 1) * j).
Proof.
  unfold last_pos, int_add, int_mul, int_sub. apply int32_congr.
  rewrite <- Zplus_mod_idemp_r, int32_mod, Zplus_mod_idemp_r.
  rewrite <- Zplus_mod_idemp_r, <- Zmult_mod_idemp_l, int32_mod.
  rewrite Zmult_mod_idemp_l, Zplus_mod_idemp_r. reflexivity.
Qed.

Lemma last_pos_fits (beg n j : Z) :
  fits_int (beg + (n - 1) * j) -> last_pos beg n j = (beg + (n - 1) * j)%Z.
Proof. intros Hf. rewrite last_pos_wraps_once. apply int32_fits. exact Hf. Qed.

Lemma check_done (p : Params) :
  ends_fit p ->
  check p = Done tt <->
  ((0 <= sxbeg p /\ 0 <= szbeg p
    /\ sxbeg p + (ns p - 1) * jsx p < nx p /\ szbeg p + (ns p - 1) * jsz p < nz p)
   /\ (0 <= gxbeg p /\ 0 <= gzbeg p
       /\ gxbeg p + (ng p - 1) * jgx p < nx p /\ gzbeg p + (ng p - 1) * jgz p < nz p))%Z.
Proof.
  intros (F1 & F2 & F3 & F4). unfold check.
  rewrite !last_pos_fits by assumption.
  destruct (Z.leb_spec 0 (sxbeg p)); destruct (Z.leb_spec 0 (szbeg p));
    destruct (Z.ltb_spec (sxbeg p + (ns p - 1) * jsx p) (nx p));
    destruct (Z.ltb_spec (szbeg p + (ns p - 1) * jsz p) (nz p)); simpl;
    try (split; [discriminate | lia]).
  destruct (Z.leb_spec 0 (gxbeg p)); destruct (Z.leb_spec 0 (gzbeg p));
    destruct (Z.ltb_spec (gxbeg p + (ng p - 1) * jgx p) (nx p));
    destruct (Z.ltb_spec (gzbeg p + (ng p - 1) * jgz p) (nz p)); simpl;
    try (split; [discriminate | lia]).
  split; [lia | reflexivity].
Qed.

Lemma check_exits_nonzero (p : Params) :
  check p = Done tt
  \/ check p = Exit 1 SourcesExceedZone
  \/ check p = Exit 1 GeophonesExceedZone.
Proof.
  unfold check.
  destruct (negb _); [right; left; reflexivity|].
  destruct (negb _); [right; right; reflexivity | left; reflexivity].
Qed.

(** With jumps that do not run backwards and last positions that an [int]
    holds, the two end points that [check] tests bound every point of the
    lattice. *)
Lemma check_covers_forward_lattices (p : Params) (i : Z) :
  check p = Done tt -> ends_fit p ->
  (0 <= jsx p)%Z -> (0 <= jsz p)%Z -> (0 <= jgx p)%Z -> (0 <= jgz p)%Z ->
  ((0 <= i < ns p)%Z -> in_grid p (allSrcPos p) i) /\
  ((0 <= i < ng p)%Z -> in_grid p (allGeoPos p) i).
Proof.
  intros Hc Hfit Hsx Hsz Hgx Hgz. apply (check_done p Hfit) in Hc.
  destruct Hc as [(S1 & S2 & S3 & S4) (G1 & G2 & G3 & G4)].
  unfold in_grid, pos_x, pos_z, allSrcPos, allGeoPos. simpl.
  split; intros Hi; repeat split; nia.
Qed.

End BornFacts.

(** * Main results *)

Section DirectionClaim.
Import Direction DirectionFacts.

(** C1: on iteration 0 [prevCurrCorrDirection] leaves the current gradient in
    both [update_direction] and [pre_gradient]; on any other iteration, with
    [beta = max(0, (sum cur[i]^2 - sum cur[i]*pre[i]) / sum pre[i]^2)], cell [i]
    of [update_direction] becomes [cur[i] + beta * (its previous content)], and
    [pre_gradient] is then the current gradient. *)
Theorem prevCurrCorrDirection_update
    (pre_gradient cur_gradient update_direction : list Q) (model_size iter : Z) :
  length pre_gradient = Z.to_nat model_size ->
  length cur_gradient = Z.to_nat model_size ->
  length update_direction = Z.to_nat model_size ->
  let r := prevCurrCorrDirection pre_gradient cur_gradient update_direction
             model_size iter in
  (iter = 0%Z -> snd r = cur_gradient /\ fst r = cur_gradient)
  /\
  (iter <> 0%Z ->
   exists beta,
     beta == beta_spec cur_gradient pre_gradient /\
     length (snd r) = length update_direction /\
     (forall i g d,
         cur_gradient !! i = Some g -> update_direction !! i = Some d ->
         snd r !! i = Some (g + beta * d)) /\
     fst r = cur_gradient).
Proof.
  intros Hp Hc Hu r. subst r. unfold prevCurrCorrDirection. split.
  - intros ->. simpl. rewrite !std_copy_all by assumption. split; reflexivity.
  - intros Hne. apply Z.eqb_neq in Hne. rewrite Hne.
    rewrite sums_loop by lia.
    rewrite !take_ge by lia.
    simpl.
    eexists. split; [apply beta_of_max|]. split; [apply direction_loop_length|].
    split.
    + intros i g d Hg Hd. apply direction_loop_lookup; try assumption.
      rewrite <- Hc. eapply lookup_lt_Some; eauto.
    + apply std_copy_all; assumption.
Qed.

Lemma prevCurrCorrDirection_update_witness :
  let r := prevCurrCorrDirection [1; 2] [3; 4] [5; 6] 2 1 in
  (1%Z = 0%Z -> snd r = [3; 4] /\ fst r = [3; 4])
  /\
  (1%Z <> 0%Z ->
   exists beta,
     beta == beta_spec [3; 4] [1; 2] /\
     length (snd r) = length [5; 6] /\
     (forall i g d,
         [3; 4] !! i = Some g -> [5; 6] !! i = Some d ->
         snd r !! i = Some (g + beta * d)) /\
     fst r = [3; 4]).
Proof.
  apply (prevCurrCorrDirection_update [1; 2] [3; 4] [5; 6] 2 1); reflexivity.
Defined.

End DirectionClaim.

Section SelectClaim.
Import StepLen SelectFacts.
Context `{Collaborators}.
Variables (fmVel : Velocity) (allSrcPos allGeoPos : ShotPosition).
Variables (encsrc encobs grad : list Q) (nt : Z).
Variables (obj_val1 vmin vmax maxAlpha3 : Q).
Variables (fuel : nat) (alpha2 alpha3 : Q).

Abbreviation misfit_at :=
  (objective fmVel allSrcPos allGeoPos encsrc encobs grad nt vmin vmax).
Abbreviation halved := (candidate alpha2).

(** The misfit at [alpha2] is re-evaluated after each of at most five
    halvings, which stop as soon as it is no larger than [obj_val1]; when it
    is still larger after the fifth, [selectAlpha] returns with
    [toParabolicFit] false, with [alpha3 = min(2 * alpha2, maxAlpha3)], and
    with the first element of the tuned set as [alpha2], which is the
    candidate of smallest misfit provided the misfits tried are pairwise equal
    or at least [1e-10] apart. *)
Theorem selectAlpha_halving_fallback :
  vmin < vmax ->
  (forall i j, (i <= 5)%nat -> (j <= 5)%nat ->
     apart (misfit_at (halved i)) (misfit_at (halved j))) ->
  (exists n t,
      halving fmVel allSrcPos allGeoPos encsrc encobs grad nt obj_val1 vmin vmax
        max_iter_select_alpha3
        (mkTuning alpha2 (misfit_at alpha2) alpha3 (misfit_at alpha3)
           (set_insert parabolicLessComp (alpha2, misfit_at alpha2) Nil)) = Done t /\
      (n <= 5)%nat /\
      t_alpha2 t = halved n /\ t_obj_val2 t = misfit_at (halved n) /\
      (forall j, (j < n)%nat -> obj_val1 < misfit_at (halved j)) /\
      ((n < 5)%nat -> misfit_at (halved n) <= obj_val1))
  /\
  ((forall j, (j <= 5)%nat -> obj_val1 < misfit_at (halved j)) ->
   exists r,
     selectAlpha fmVel allSrcPos allGeoPos encsrc encobs grad nt obj_val1 vmin vmax
       maxAlpha3 fuel alpha2 alpha3 = Done r /\
     toParabolicFit r = false /\
     (exists j, (j <= 5)%nat /\
                r_alpha2 r = halved j /\ r_obj_val2 r = misfit_at (halved j)) /\
     (forall j, (j <= 5)%nat -> r_obj_val2 r <= misfit_at (halved j)) /\
     r_alpha3 r == Qmin (2 * r_alpha2 r) maxAlpha3).
Proof.
  intros Hb Hap.
  destruct (halving_runs fmVel allSrcPos allGeoPos encsrc encobs grad nt
              obj_val1 vmin vmax alpha2 Hb max_iter_select_alpha3 0
              (mkTuning alpha2 (misfit_at alpha2) alpha3 (misfit_at alpha3)
                 (set_insert parabolicLessComp (alpha2, misfit_at alpha2) Nil)))
    as (n & t & Hrun & Hn & Ha & Ho & Hbig & Hstop & Hset); [reflexivity | reflexivity |].
  unfold max_iter_select_alpha3 in Hn.
  split.
  - exists n, t. split; [exact Hrun|]. split; [lia|]. split; [exact Ha|].
    split; [exact Ho|]. split.
    + intros j Hj. apply Hbig. lia.
    + intros Hlt. apply Hstop. unfold max_iter_select_alpha3. lia.
  - intros Hall.
    assert (n = 5)%nat as ->.
    { destruct (decide (n < 5)%nat) as [Hlt|Hge]; [|lia].
      exfalso. specialize (Hall n ltac:(lia)).
      pose proof (Hstop ltac:(unfold max_iter_select_alpha3; lia)). lra. }
    unfold selectAlpha.
    rewrite (misfit_done fmVel allSrcPos allGeoPos encsrc encobs grad nt vmin vmax Hb alpha2).
    cbn [mbind outcome_bind].
    rewrite (misfit_done fmVel allSrcPos allGeoPos encsrc encobs grad nt vmin vmax Hb alpha3).
    cbn [mbind outcome_bind].
    rewrite Hrun. cbn [mbind outcome_bind].
    assert (E : Qltb obj_val1 (t_obj_val2 t) = true).
    { apply Qltb_lt. rewrite Ho. apply Hall. lia. }
    rewrite E.
    rewrite (misfit_done fmVel allSrcPos allGeoPos encsrc encobs grad nt vmin vmax Hb
               (t_alpha3 t)).
    cbn [mbind outcome_bind mret outcome_ret].
    eexists. split; [reflexivity|].
    cbn [toParabolicFit r_alpha2 r_obj_val2 r_alpha3].
    split; [reflexivity|].
    destruct (tuned_set_begin fmVel allSrcPos allGeoPos encsrc encobs grad nt
                vmin vmax alpha2 5 Hap) as [[Hne Hleast] Hin].
    change (tunedAlpha t
            = tuned_set fmVel allSrcPos allGeoPos encsrc encobs grad nt vmin vmax alpha2 5)
      in Hset.
    rewrite Hset.
    set (l := tuned_set _ _ _ _ _ _ _ _ _ _ 5) in *.
    pose proof (begin_in l Hne) as Hb'.
    apply Hin in Hb' as (j & Hj & Ej).
    split; [|split].
    + exists j. split; [exact Hj|]. rewrite Ej. split; reflexivity.
    + intros i Hi. apply (Hleast (tried fmVel allSrcPos allGeoPos encsrc encobs grad nt
                                   vmin vmax alpha2 i)).
      apply Hin. exists i. split; [exact Hi | reflexivity].
    + rewrite std_min_Qmin. apply Q.min_compat; [ring | reflexivity].
Qed.

End SelectClaim.

Section SelectExamples.
Import StepLen SelectFacts.

(** C2: the candidate [selectAlpha] falls back to need not be the one of
    smallest misfit.  Here the misfit of a step length [a] is [(c - a)^2]
    with [c = 2^-17], [obj_val1 = 0], and [alpha2 = 2^-18] is halved down to
    [2^-23]; every number that occurs is a [float], and every sum, product
    and difference is exact.  The six misfits tried all exceed [obj_val1]
    and grow from [2^-36] at the first candidate to [3969 * 2^-46] at the
    last, all within [1e-10] of each other.  The comparator ranks each new
    candidate before every stored one, so it becomes the first element of
    the tuned set, and [selectAlpha] returns the last candidate, [2^-23]:
    the one of largest misfit. *)
Theorem selectAlpha_near_tie_not_least :
  let c := 1 # 131072 in
  let first := 1 # 262144 in
  let C := Sample.collaborators c in
  let objective_at :=
    @objective C (Sample.one_cell 0) Sample.one_point Sample.one_point
      [0] [c] [1] 1 (-(1)) 1 in
  Forall (fun j => 0 < objective_at (candidate first j)) [0; 1; 2; 3; 4; 5]%nat /\
  objective_at (candidate first 0) == 1 # 68719476736 /\
  exists r,
    @selectAlpha C (Sample.one_cell 0) Sample.one_point Sample.one_point
      [0] [c] [1] 1 0 (-(1)) 1 1 0 first c = Done r /\
    toParabolicFit r = false /\
    r_alpha2 r == 1 # 8388608 /\
    r_alpha2 r == candidate first 5 /\
    r_obj_val2 r == 3969 # 70368744177664 /\
    r_obj_val2 r == objective_at (candidate first 5) /\
    Forall (fun j => objective_at (candidate first j) < r_obj_val2 r)
      [0; 1; 2; 3; 4]%nat.
Proof.
  intros c first C objective_at. split.
  - repeat (constructor; [vm_compute; reflexivity|]). constructor.
  - split; [vm_compute; reflexivity|].
    match goal with
    | |- exists r, ?run = Done r /\ _ =>
        let v := eval vm_compute in run in
        match v with Done ?r => exists r end
    end.
    split; [vm_compute; reflexivity|].
    split; [reflexivity|].
    split; [vm_compute; reflexivity|].
    split; [vm_compute; reflexivity|].
    split; [vm_compute; reflexivity|].
    split; [vm_compute; reflexivity|].
    repeat (constructor; [vm_compute; reflexivity|]). constructor.
Qed.

Lemma selectAlpha_halving_fallback_witness :
  let C := Sample.collaborators (-(1)) in
  let objective_at :=
    @objective C (Sample.one_cell 0) Sample.one_point Sample.one_point
      [0] [-(1)] [1] 1 (-(2)) 3 in
  exists r,
    @selectAlpha C (Sample.one_cell 0) Sample.one_point Sample.one_point
      [0] [-(1)] [1] 1 1 (-(2)) 3 4 0 1 2 = Done r /\
    toParabolicFit r = false /\
    (forall j, (j <= 5)%nat -> r_obj_val2 r <= objective_at (candidate 1 j)) /\
    r_alpha3 r == Qmin (2 * r_alpha2 r) 4.
Proof.
  intros C objective_at.
  assert (Hb : -(2) < 3) by reflexivity.
  assert (Hap : forall i j, (i <= 5)%nat -> (j <= 5)%nat ->
                  apart (objective_at (candidate 1 i)) (objective_at (candidate 1 j))).
  { intros i j Hi Hj.
    do 6 (destruct i as [|i];
          [do 6 (destruct j as [|j];
                 [first [ left; vm_compute; reflexivity
                        | right; left; vm_compute; discriminate
                        | right; right; vm_compute; discriminate ] |]); lia |]).
    lia. }
  assert (Hall : forall j, (j <= 5)%nat -> 1 < objective_at (candidate 1 j)).
  { intros j Hj. do 6 (destruct j as [|j]; [vm_compute; reflexivity|]). lia. }
  destruct (@selectAlpha_halving_fallback C (Sample.one_cell 0) Sample.one_point
              Sample.one_point [0] [-(1)] [1] 1 1 (-(2)) 3 4 0 1 2 Hb Hap)
    as [_ Hfall].
  destruct (Hfall Hall) as (r & Hr & Hp & _ & Hleast & H3).
  exists r. split; [exact Hr|]. split; [exact Hp|]. split; [exact Hleast | exact H3].
Defined.

End SelectExamples.

Section StepLenClaims.
Import StepLen StepLenFacts ParabolaFacts.
Context `{Collaborators}.
Variables (fuel : nat) (fmVel : Velocity) (allSrcPos allGeoPos : ShotPosition).
Variables (encsrc encobs updateDirection : list Q) (iter nt ivel : Z) (dt dx fm : Q).
Variables (obj_val1 min_vel max_vel : Q).

(** C3: when [selectAlpha] reports a bracket ([toParabolicFit]), [calStepLen]
    fits the parabola through [(0, obj_val1)], [(alpha2, obj_val2)],
    [(alpha3, obj_val3)] and returns the abscissa of its vertex, capped at
    [max_alpha3]; but when the two secant slopes satisfy
    [|k2 - k1| < 0.001 * max(|k2|, |k1|)] it returns [min(2 * alpha3, max_alpha3)]
    and the misfit value that goes with it is NaN. *)
Theorem parabolic_step_length (st : PreservedAlpha) (r : selected) :
  let max_alpha3 := snd (calMaxAlpha2_3 fmVel updateDirection dt dx maxdv) in
  let init := initAlpha2_3 ivel max_alpha3 st in
  selectAlpha fmVel allSrcPos allGeoPos encsrc encobs updateDirection nt
    obj_val1 min_vel max_vel max_alpha3 fuel (fst (fst init)) (snd (fst init)) = Done r ->
  toParabolicFit r = true ->
  let x2 := r_alpha2 r in
  let y2 := r_obj_val2 r in
  let x3 := r_alpha3 r in
  let y3 := r_obj_val3 r in
  let k2 := (y3 - y2) / (x3 - x2) in
  let k1 := (y2 - obj_val1) / (x2 - 0) in
  let A := coeff_A 0 obj_val1 x2 y2 x3 y3 in
  let B := coeff_B 0 obj_val1 x2 y2 x3 y3 in
  let C := coeff_C 0 obj_val1 x2 y2 x3 y3 in
  exists alpha4 obj_val4 st',
    calStepLen fuel fmVel allSrcPos allGeoPos encsrc encobs updateDirection iter nt ivel
      dt dx fm obj_val1 min_vel max_vel st = Done ((alpha4, obj_val4), st')
    /\ (~ 0 == x2 -> ~ 0 == x3 -> ~ x2 == x3 ->
        parabola A B C 0 == obj_val1 /\ parabola A B C x2 == y2 /\ parabola A B C x3 == y3)
    /\ (~ A == 0 ->
        forall x, parabola A B C x
                  == A * (x - - B / (2 * A)) * (x - - B / (2 * A)) + (C - B * B / (4 * A)))
    /\ (~ Qabs (k2 - k1) < 0.001 * Qmax (Qabs k2) (Qabs k1) ->
        alpha4 == Qmin (- B / (2 * A)) max_alpha3 /\
        obj_val4 = Num (C - B * B / (4 * A)))
    /\ (Qabs (k2 - k1) < 0.001 * Qmax (Qabs k2) (Qabs k1) ->
        alpha4 == Qmin (2 * x3) max_alpha3 /\ obj_val4 = NaN).
Proof.
  intros max_alpha3 init Hsel Hfit x2 y2 x3 y3 k2 k1 A B C.
  rewrite calStepLen_unfold. fold max_alpha3 init. rewrite Hsel.
  cbn [mbind outcome_bind mret outcome_ret].
  destruct (settle obj_val1 max_alpha3 r) as [alpha4 obj_val4] eqn:Es.
  exists alpha4, obj_val4. eexists. split; [reflexivity|].
  split; [apply parabola_through_points|].
  split; [intros HA x; apply parabola_vertex_form; exact HA|].
  unfold settle in Es. rewrite Hfit in Es.
  fold x2 y2 x3 y3 in Es.
  pose proof (nearly_collinear_true 0 obj_val1 x2 y2 x3 y3) as Hnc.
  cbv zeta in Hnc. fold k2 k1 in Hnc.
  split.
  - intros Hno.
    assert (E : nearly_collinear 0 obj_val1 x2 y2 x3 y3 = false).
    { destruct (nearly_collinear 0 obj_val1 x2 y2 x3 y3); [|reflexivity].
      exfalso. apply Hno, Hnc. reflexivity. }
    rewrite (enhanced_keeps _ _ _ _ _ _ _ E), calcParabolaVertex_coeffs in Es.
    cbn [fst snd] in Es. fold A B C in Es. injection Es as <- <-.
    split; [apply cap_Qmin | reflexivity].
  - intros Hyes. apply Hnc in Hyes.
    rewrite (enhanced_discards _ _ _ _ _ _ _ Hyes) in Es. cbn [fst snd] in Es.
    rewrite cap_std_min in Es. injection Es as <- <-.
    split; [apply std_min_Qmin | reflexivity].
Qed.

(** C5: the first call of [initAlpha2_3] for an index [ivel] sets its flag and
    stores [max_alpha3]; every call returns as [alpha3] the stored value, or
    [1.0E-4] when the stored value is below [1.0E-7], and as [alpha2] half of
    [alpha3]; [calStepLen] returns, and when it does the value stored for
    [ivel] is the step length [alpha4] it returns. *)
Theorem warm_start_state (max_alpha3 : Q) (st st0 : PreservedAlpha) :
  min_vel < max_vel ->
  let r := initAlpha2_3 ivel max_alpha3 st in
  let initAlpha2 := fst (fst r) in
  let initAlpha3 := snd (fst r) in
  let st1 := snd r in
  (getIsInit st ivel = false ->
     getIsInit st1 ivel = true /\ getAlpha st1 ivel = max_alpha3)
  /\ (getIsInit st ivel = true -> st1 = st)
  /\ initAlpha3 = (if Qltb (getAlpha st1 ivel) minAlpha then resetAlpha else getAlpha st1 ivel)
  /\ initAlpha2 == initAlpha3 / 2
  /\ (forall n alpha4 obj_val4 st',
        calStepLen n fmVel allSrcPos allGeoPos encsrc encobs updateDirection iter nt
          ivel dt dx fm obj_val1 min_vel max_vel st0 = Done ((alpha4, obj_val4), st') ->
        getAlpha st' ivel = alpha4)
  /\ (exists n0, forall n, (n0 <= n)%nat ->
        exists alpha4 obj_val4 st',
          calStepLen n fmVel allSrcPos allGeoPos encsrc encobs updateDirection iter nt
            ivel dt dx fm obj_val1 min_vel max_vel st0 = Done ((alpha4, obj_val4), st')).
Proof.
  intros Hb r initAlpha2 initAlpha3 st1.
  split; [apply init_state_first|].
  split; [apply init_state_later|].
  pose proof (initAlpha2_3_returns ivel max_alpha3 st) as [E3 E2].
  split; [exact E3|]. split; [exact E2|]. split.
  - intros n alpha4 obj_val4 st' Hcal. eapply calStepLen_stores. exact Hcal.
  - destruct (ReturnFacts.calStepLen_returns fmVel allSrcPos allGeoPos encsrc encobs
                updateDirection iter nt ivel dt dx fm obj_val1 min_vel max_vel st0 Hb)
      as [n0 Hret].
    exists n0. intros n Hn. destruct (Hret n Hn) as [[[alpha4 obj_val4] st'] Hr].
    exists alpha4, obj_val4, st'. exact Hr.
Qed.

End StepLenClaims.

Section StepLenExamples.
Import StepLen StepLenFacts ParabolaFacts.

Lemma parabolic_step_length_witness :
  let C := Sample.collaborators 30 in
  exists alpha4 obj_val4 st',
    @calStepLen C 8 (Sample.one_cell 16) Sample.one_point Sample.one_point
      [0] [30] [1] 0 1 0 0.001 10 10 196 4 40 Sample.warm_state
    = Done ((alpha4, obj_val4), st') /\
    alpha4 == 14.
Proof.
  intros C.
  destruct (@parabolic_step_length C 8 (Sample.one_cell 16) Sample.one_point
              Sample.one_point [0] [30] [1] 0 1 0 0.001 10 10 196 4 40 Sample.warm_state
              (mkSelected 4.0 100.00 8 36 true))
    as (alpha4 & obj_val4 & st' & Hrun & _ & _ & Hfit & _).
  - vm_compute. reflexivity.
  - reflexivity.
  - exists alpha4, obj_val4, st'. split; [exact Hrun|].
    destruct Hfit as [Ha _].
    + vm_compute. discriminate.
    + rewrite Ha. vm_compute. reflexivity.
Defined.

Lemma warm_start_state_witness :
  let C := Sample.collaborators 30 in
  let fresh := mkPreservedAlpha ∅ ∅ in
  let r := initAlpha2_3 0 5 fresh in
  (getIsInit (snd r) 0 = true /\ getAlpha (snd r) 0 = 5)
  /\ snd (fst r) = 5
  /\ fst (fst r) == 5 / 2
  /\ exists n0, forall n, (n0 <= n)%nat ->
       exists alpha4 obj_val4 st',
         @calStepLen C n (Sample.one_cell 16) Sample.one_point Sample.one_point
           [0] [30] [1] 0 1 0 0.001 10 10 196 4 40 Sample.warm_state
         = Done ((alpha4, obj_val4), st') /\
         getAlpha st' 0 = alpha4.
Proof.
  intros C fresh r.
  destruct (@warm_start_state C (Sample.one_cell 16) Sample.one_point Sample.one_point
              [0] [30] [1] 0 1 0 0.001 10 10 196 4 40 5 fresh Sample.warm_state)
    as (Hfirst & _ & H3 & H2 & Hstored & n0 & Hret); [reflexivity|].
  split; [apply Hfirst; reflexivity|].
  split; [exact H3|]. split; [exact H2|].
  exists n0. intros n Hn. destruct (Hret n Hn) as (alpha4 & obj_val4 & st' & Hrun).
  exists alpha4, obj_val4, st'. split; [exact Hrun|].
  exact (Hstored n alpha4 obj_val4 st' Hrun).
Defined.

End StepLenExamples.

Section GradientClaim.
Import Gradient GradientFacts.

(** C4: the gradient image [hello] returns is the image it was given with the
    cross-correlation of every time step [it] of the pass accumulated under
    the time ramp: weight [1] when [dt * it > 0.4], weight
    [(dt * it - 0.3) / 0.1] when [0.3 < dt * it <= 0.4], and nothing at all
    for a time step with [dt * it <= 0.3]. *)
Theorem hello_time_ramp `{Collaborators}
    (vel : Velocity) (allSrcPos allGeoPos : ShotPosition)
    (encSrc vsrc : list Q) (nt : Z) (dt : Q) (w : wavefields) (g0 : list Q) :
  let steps := wave_seq vel allSrcPos allGeoPos encSrc vsrc nt (Z.to_nat nt) w in
  hello vel allSrcPos allGeoPos encSrc vsrc nt dt w g0 = fold_left (contribute dt) steps g0
  /\ (forall i x, g0 !! i = Some x ->
        hello vel allSrcPos allGeoPos encSrc vsrc nt dt w g0 !! i
        = Some (fold_left (contribute_cell dt i) steps x))
  /\ (forall it, 0.4 < dt * inject_Z it -> time_ramp dt it = Some 1)
  /\ (forall it, 0.3 < dt * inject_Z it -> dt * inject_Z it <= 0.4 ->
        time_ramp dt it = Some ((dt * inject_Z it - 0.3) / 0.1))
  /\ (forall it, dt * inject_Z it <= 0.3 -> time_ramp dt it = None).
Proof.
  intros steps.
  assert (Hfold : hello vel allSrcPos allGeoPos encSrc vsrc nt dt w g0
                  = fold_left (contribute dt) steps g0) by apply hello_loop_ramp.
  split; [exact Hfold|]. split; [|split; [|split]].
  - intros i x Hx. rewrite Hfold. apply contribute_lookup. exact Hx.
  - intros it Hit. unfold time_ramp.
    assert (E : Qltb 0.4 (dt * inject_Z it) = true) by (apply Qltb_lt; exact Hit).
    rewrite E. reflexivity.
  - intros it Hlo Hhi. unfold time_ramp.
    assert (E1 : Qltb 0.4 (dt * inject_Z it) = false) by (apply Qltb_ge; exact Hhi).
    assert (E2 : Qltb 0.3 (dt * inject_Z it) = true) by (apply Qltb_lt; exact Hlo).
    rewrite E1, E2. reflexivity.
  - intros it. apply time_ramp_none.
Qed.

End GradientClaim.

Section UpdateVelClaims.
Import UpdateVel UpdateVelFacts.




(** C8: called with [vmax <= vmin], [update_vel] writes its diagnostic and
    ends the process before the loop touches [new_vel]; the status it passes
    to [exit] is [0]. *)
Theorem update_vel_bad_bounds_exit_status
    (vel grad new_vel : list Q) (size steplen vmin vmax : Q) :
  vmax <= vmin ->
  update_vel vel grad size steplen vmin vmax new_vel = Exit 0 (VmaxBelowVmin vmax vmin)
  /\ forall out, update_vel vel grad size steplen vmin vmax new_vel <> Done out.
Proof.
  intros Hle. rewrite (update_vel_exit vel grad size steplen vmin vmax new_vel Hle).
  split; [reflexivity|]. intros out Habs. discriminate Habs.
Qed.

Lemma update_vel_bad_bounds_exit_status_witness :
  update_vel [2000; 3000] [1; 1] 2 1 1500 1500 [0; 0]
  = Exit 0 (VmaxBelowVmin 1500 1500)
  /\ forall out, update_vel [2000; 3000] [1; 1] 2 1 1500 1500 [0; 0] <> Done out.
Proof.
  apply (update_vel_bad_bounds_exit_status [2000; 3000] [1; 1] [0; 0] 2 1 1500 1500).
  vm_compute. discriminate.
Defined.

End UpdateVelClaims.

Section VelocityBoundsClaim.
Import UpdateVel UpdateVelFacts StepLen DriverFacts.

(** Whenever [update_vel] is called with [vmax > vmin] on arrays of [size]
    cells it returns, the array it leaves in [new_vel] has the same length,
    and every cell holds the clamped update, a value in [[vmin, vmax]].
    Each pass of the loop of [main] on a model of at most [2^24] cells
    applies this clamped update to every cell of the model in place and then
    hands the result to [refillBoundary]. *)
Theorem velocity_clamped_after_update `{Collaborators}
    (vel grad new_vel : list Q) (size steplen vmin vmax : Q)
    (allSrcPos allGeoPos : ShotPosition) (nt : Z) (dt dx fm : Q)
    (iter : Z) (s : driver) :
  vmin < vmax ->
  length new_vel = trip_count size ->
  (Z.of_nat (length (dat (exvel s))) <= 2 ^ 24)%Z ->
  ~ dx == 0 -> ~ dt == 0 ->
  (exists out,
      update_vel vel grad size steplen vmin vmax new_vel = Done out /\
      length out = length new_vel /\
      (forall i, (i < length new_vel)%nat ->
         out !! i = Some (clamp vmin vmax (vel !!! i + steplen * grad !!! i))) /\
      Forall (fun v => vmin <= v <= vmax) out)
  /\
  (let min_vel := (dx / dt / StepLen.vmax) * (dx / dt / StepLen.vmax) in
   let max_vel := (dx / dt / StepLen.vmin) * (dx / dt / StepLen.vmin) in
   exists fuel0, forall fuel, (fuel0 <= fuel)%nat ->
   exists s' (updateDirection : list Q) step updated,
      main_iteration fuel allSrcPos allGeoPos nt dt dx fm iter s = Done s' /\
      length updated = length (dat (exvel s)) /\
      (forall i, (i < length (dat (exvel s)))%nat ->
         updated !! i
         = Some (clamp min_vel max_vel
                   (dat (exvel s) !!! i + step * updateDirection !!! i))) /\
      Forall (fun v => min_vel <= v <= max_vel) updated /\
      dat (exvel s')
      = refillBoundary (mkVelocity updated (vnx (exvel s)) (vnz (exvel s))) updated).
Proof.
  intros Hlt Hlen Hsmall Hdx Hdt. split.
  - pose proof (update_vel_done vel grad size steplen vmin vmax new_vel Hlt) as E.
    eexists. split; [exact E|].
    split; [exact (update_vel_length _ _ _ _ _ _ _ _ E)|]. split.
    + intros i Hi. apply (update_vel_lookup _ _ _ _ _ _ _ _ i E); lia.
    + eapply update_vel_all_clamped; [exact E | exact Hlen].
  - intros min_vel max_vel.
    destruct (main_iteration_returns allSrcPos allGeoPos nt dt dx fm iter s Hdx Hdt)
      as [fuel0 Hret].
    exists fuel0. intros fuel Hfuel. destruct (Hret fuel Hfuel) as [s' Hrun].
    destruct (main_iteration_velocity _ _ _ _ _ _ _ _ _ _ Hrun)
      as (dir & step & updated & Hup & Hrefill).
    exists s', dir, step, updated. split; [exact Hrun|].
    rewrite update_vel_inplace_same in Hup.
    rewrite float_of_Z_exact in Hup by lia.
    pose proof (trip_count_length (length (dat (exvel s)))) as Htrip.
    split; [exact (update_vel_length _ _ _ _ _ _ _ _ Hup)|]. split; [|split].
    + intros i Hi. apply (update_vel_lookup _ _ _ _ _ _ _ _ i Hup); lia.
    + eapply update_vel_all_clamped; [exact Hup|]. symmetry. exact Htrip.
    + exact Hrefill.
Qed.

Lemma velocity_clamped_after_update_witness :
  let C := Sample.collaborators 20 in
  let s := mkDriver (Sample.one_cell 16) [0] (mkPreservedAlpha ∅ ∅) in
  (exists out,
      update_vel [16; 50] [1; 1] 2 3 4 25 [0; 0] = Done out /\
      length out = 2%nat /\
      (forall i, (i < 2)%nat ->
         out !! i = Some (clamp 4 25 ([16; 50] !!! i + 3 * [1; 1] !!! i))) /\
      Forall (fun v => 4 <= v <= 25) out)
  /\
  (let min_vel := (10 / 0.001 / StepLen.vmax) * (10 / 0.001 / StepLen.vmax) in
   let max_vel := (10 / 0.001 / StepLen.vmin) * (10 / 0.001 / StepLen.vmin) in
   exists fuel0, forall fuel, (fuel0 <= fuel)%nat ->
   exists s' (updateDirection : list Q) step updated,
      @main_iteration C fuel Sample.one_point Sample.one_point 1 0.001 10 10 0 s
      = Done s' /\
      length updated = 1%nat /\
      (forall i, (i < 1)%nat ->
         updated !! i
         = Some (clamp min_vel max_vel ([16] !!! i + step * updateDirection !!! i))) /\
      Forall (fun v => min_vel <= v <= max_vel) updated /\
      dat (exvel s')
      = @refillBoundary C (mkVelocity updated (vnx (exvel s)) (vnz (exvel s))) updated).
Proof.
  intros C s.
  apply (@velocity_clamped_after_update C [16; 50] [1; 1] [0; 0] 2 3 4 25
           Sample.one_point Sample.one_point 1 0.001 10 10 0 s).
  - reflexivity.
  - reflexivity.
  - vm_compute. discriminate.
  - vm_compute. discriminate.
  - vm_compute. discriminate.
Defined.

(** C7: [main] passes the number of cells of the model, [exvel.dat.size()],
    for the [float] parameter [size] of [update_vel].  For a model of
    [2^24 + 1] cells the size converts to the [float] [2^24], the loop stops
    one cell short, and the last cell is left outside [[vmin, vmax]].  Here
    every cell holds [9], the bounds are [1] and [2] and the direction is
    zero: every cell but the last becomes [2], the last one stays [9]. *)
Theorem update_vel_float_size_skips_last_cell :
  let cells := Z.to_nat 16777217 in
  let dat := replicate cells 9 in
  let updateDirection := replicate cells 0 in
  let size := float_of_Z (Z.of_nat (length dat)) in
  size = inject_Z 16777216 /\
  exists updated,
    update_vel_inplace updateDirection size 1 1 2 dat = Done updated /\
    length updated = length dat /\
    (forall i, (Z.of_nat i < 16777216)%Z -> updated !! i = Some 2) /\
    updated !! Z.to_nat 16777216 = Some 9 /\
    ~ 9 <= 2.
Proof.
  intros cells dat updateDirection size.
  assert (Hcells : Z.of_nat cells = 16777217%Z) by (apply Z2Nat.id; lia).
  assert (Hlen : length dat = cells) by apply length_replicate.
  assert (Hsize : size = inject_Z 16777216).
  { unfold size. rewrite Hlen, Hcells. reflexivity. }
  split; [exact Hsize|].
  assert (Htrip : trip_count size = Z.to_nat 16777216).
  { rewrite Hsize. unfold trip_count. rewrite Qceiling_Z. reflexivity. }
  pose proof (update_vel_done dat updateDirection size 1 1 2 dat ltac:(reflexivity)) as E.
  eexists. rewrite update_vel_inplace_same. split; [exact E|].
  split; [exact (update_vel_length _ _ _ _ _ _ _ _ E)|]. split; [|split].
  - intros i Hi.
    rewrite (update_vel_lookup _ _ _ _ _ _ _ _ i E) by (rewrite ?Htrip, ?Hlen; lia).
    unfold dat, updateDirection.
    rewrite !lookup_total_replicate_2 by lia. reflexivity.
  - rewrite (update_vel_untouched _ _ _ _ _ _ _ _ (Z.to_nat 16777216) E)
      by (rewrite Htrip; lia).
    unfold dat. apply lookup_replicate_2. lia.
  - intros Hle. apply Qle_bool_iff in Hle. discriminate.
Qed.

End VelocityBoundsClaim.

Section BornClaim.
Import Born BornFacts.

(** C9: a geometry whose source lattice runs backwards ([jsx = -100]) passes
    [Params::check], so the program goes on to build its lattices, and the
    second source then lies at column [-100], outside the grid and outside
    its absorbing margin, at a negative absolute index. *)
Theorem check_accepts_backward_lattice :
  let p := mkParams 30 10 10 2 1 0 0 0 0 (-100) 0 1 0 in
  check p = Done tt /\
  startup p = Done (allSrcPos p, allGeoPos p) /\
  pos_x (allSrcPos p) 1 = (-100)%Z /\
  pos_index (allSrcPos p) 1 = (-1000)%Z /\
  (in_grid p (allSrcPos p) 1 -> False) /\
  (in_padded_grid p (allSrcPos p) 1 -> False).
Proof.
  intros p. split; [reflexivity|]. split; [reflexivity|]. split; [reflexivity|].
  split; [reflexivity|]. split.
  - unfold in_grid. vm_compute. intros [[Hneg _] _]. apply Hneg. reflexivity.
  - unfold in_padded_grid. vm_compute. intros [[Hneg _] _]. apply Hneg. reflexivity.
Qed.

End BornClaim.

Section VirtualSourceClaim.
Import VirtualSource VirtualSourceFacts.

(** C10: [second_order_virtual_source_forth_accuracy] stores zero in the first
    two and the last two samples of the trace it is given, and its output is
    the same for any two values of [dt]; the same holds through [transVsrc]:
    its results do not depend on [dt], and in the filtered array every trace
    has its first two and last two samples zero. *)
Theorem virtual_source_filter_dt_free `{Collaborators}
    (trace : list Q) (num : Z) (vsrc : list Q) (nt ng : Z) (dt1 dt2 : Q) :
  (Z.to_nat num <= length trace)%nat ->
  length (matrix_transpose vsrc ng nt) = (Z.to_nat ng * Z.to_nat nt)%nat ->
  (forall i, (Z.of_nat i < num)%Z -> edge num i ->
     second_order_virtual_source_forth_accuracy trace num dt1 !! i = Some 0)
  /\ second_order_virtual_source_forth_accuracy trace num dt1
     = second_order_virtual_source_forth_accuracy trace num dt2
  /\ transVsrc vsrc nt ng dt1 = transVsrc vsrc nt ng dt2
  /\ (forall ig i, (ig < Z.to_nat ng)%nat -> (Z.of_nat i < nt)%Z -> edge nt i ->
        snd (transVsrc vsrc nt ng dt1) !! (ig * Z.to_nat nt + i)%nat = Some 0).
Proof.
  intros Hlen Htr. split; [|split; [|split]].
  - intros i Hi He. apply filter_edge_zero; assumption.
  - reflexivity.
  - reflexivity.
  - intros ig i Hig Hi He. unfold transVsrc. simpl.
    apply (filter_traces_edge_zero nt dt1 (Z.to_nat ng)); try assumption.
    rewrite Htr. lia.
Qed.

Lemma virtual_source_filter_dt_free_witness :
  let C := Sample.collaborators 0 in
  let trace := [1; 2; 3; 4; 5; 6] in
  let vsrc := [1; 2; 3; 4; 5; 6; 7; 8; 9; 10] in
  (forall i, (Z.of_nat i < 6)%Z -> edge 6 i ->
     second_order_virtual_source_forth_accuracy trace 6 0.001 !! i = Some 0)
  /\ second_order_virtual_source_forth_accuracy trace 6 0.001
     = second_order_virtual_source_forth_accuracy trace 6 0.002
  /\ @transVsrc C vsrc 5 2 0.001 = @transVsrc C vsrc 5 2 0.002
  /\ (forall ig i, (ig < Z.to_nat 2)%nat -> (Z.of_nat i < 5)%Z -> edge 5 i ->
        snd (@transVsrc C vsrc 5 2 0.001) !! (ig * Z.to_nat 5 + i)%nat = Some 0).
Proof.
  intros C trace vsrc.
  apply (@virtual_source_filter_dt_free C trace 6 vsrc 5 2 0.001 0.002).
  - vm_compute. lia.
  - reflexivity.
Defined.

End VirtualSourceClaim.

(** * Further properties

    Properties of the code beyond the main results: the finite-difference
    time step, the forward pass and its files, the backward pass, the loops
    over arrays, the step-length search, the loop of [main], and the
    distribution and validation of the shots. *)

Import Notions.

(** ** Loops over a block of a two-dimensional array *)

Section GridLoops.
Context {A : Type} `{Inhabited A}.

Lemma elem_of_grid xlo xhi zlo zhi ix iz :
  (ix, iz) ∈ grid xlo xhi zlo zhi <-> (xlo <= ix < xhi /\ zlo <= iz < zhi)%Z.
Proof.
  unfold grid. rewrite list_elem_of_bind. split.
  - intros (x & Hin & Hx). apply list_elem_of_fmap in Hin as (z & [= -> ->] & Hz).
    apply elem_of_seqZ in Hx, Hz. lia.
  - intros [Hx Hz]. exists ix. split.
    + apply list_elem_of_fmap. exists iz. split; [reflexivity|]. apply elem_of_seqZ. lia.
    + apply elem_of_seqZ. lia.
Qed.

Lemma NoDup_grid xlo xhi zlo zhi : NoDup (grid xlo xhi zlo zhi).
Proof.
  unfold grid. apply NoDup_bind.
  - intros x1 x2 [x z] _ _ H1 H2.
    apply list_elem_of_fmap in H1 as (z1 & [= -> ->] & _).
    apply list_elem_of_fmap in H2 as (z2 & [= -> _] & _). reflexivity.
  - intros x _. apply NoDup_fmap_2; [|apply NoDup_seqZ].
    intros z1 z2 [= ->]. reflexivity.
  - apply NoDup_seqZ.
Qed.

Lemma cell_inj nz ix iz ix' iz' :
  (0 <= ix)%Z -> (0 <= ix')%Z -> (0 <= iz < nz)%Z -> (0 <= iz' < nz)%Z ->
  cell nz (ix, iz) = cell nz (ix', iz') -> ix = ix' /\ iz = iz'.
Proof.
  unfold cell. simpl. intros Hx Hx' Hz Hz' E.
  assert (E' : (ix * nz + iz = ix' * nz + iz')%Z) by nia.
  assert (ix = ix') by nia. subst. lia.
Qed.

Lemma NoDup_cells nz xlo xhi zlo zhi :
  (0 <= xlo)%Z -> (0 <= zlo)%Z -> (zhi <= nz)%Z ->
  NoDup (cell nz <$> grid xlo xhi zlo zhi).
Proof.
  intros Hx Hz Hn. apply NoDup_fmap_2_strong; [|apply NoDup_grid].
  intros [ix iz] [ix' iz'] H1 H2 E.
  apply elem_of_grid in H1, H2.
  destruct (cell_inj nz ix iz ix' iz' ltac:(lia) ltac:(lia) ltac:(lia) ltac:(lia) E)
    as [-> ->].
  reflexivity.
Qed.

Lemma nest_as_fold {S : Type} xlo xhi zlo zhi (body : Z -> Z -> S -> S) (s : S) :
  for_range xlo xhi (fun ix s => for_range zlo zhi (fun iz s => body ix iz s) s) s
  = fold_left (fun acc p => body (fst p) (snd p) acc) (grid xlo xhi zlo zhi) s.
Proof.
  unfold for_range, grid. generalize (seqZ zlo (zhi - zlo)) as zs.
  generalize (seqZ xlo (xhi - xlo)) as xs. intros xs zs. revert s.
  induction xs as [|x xs IH]; intros s; [reflexivity|].
  cbn [fold_left mbind list_bind]. rewrite fold_left_app, <- IH. f_equal.
  clear IH. revert s. induction zs as [|z zs IHz]; intros s; [reflexivity|].
  cbn [fold_left fmap list_fmap]. apply IHz.
Qed.

Lemma writes_length {K : Type} (pos : K -> nat) (g : K -> A -> A) keys s :
  length (writes pos g keys s) = length s.
Proof.
  unfold writes. revert s. induction keys as [|k keys IH]; intros s; [reflexivity|].
  cbn [fold_left]. rewrite IH. apply length_insert.
Qed.

Lemma writes_elsewhere {K : Type} (pos : K -> nat) (g : K -> A -> A) keys s j :
  j ∉ pos <$> keys -> writes pos g keys s !! j = s !! j.
Proof.
  unfold writes. revert s. induction keys as [|k keys IH]; intros s Hj; [reflexivity|].
  cbn [fold_left]. rewrite fmap_cons, not_elem_of_cons in Hj. destruct Hj as [Hne Hj].
  rewrite IH by exact Hj. apply list_lookup_insert_ne. congruence.
Qed.

Lemma writes_at {K : Type} (pos : K -> nat) (g : K -> A -> A) keys s k :
  NoDup (pos <$> keys) -> k ∈ keys ->
  writes pos g keys s !! pos k = g k <$> s !! pos k.
Proof.
  unfold writes. revert s. induction keys as [|k0 keys IH]; intros s Hnd Hk.
  - apply elem_of_nil in Hk. contradiction.
  - cbn [fold_left]. rewrite fmap_cons in Hnd. apply NoDup_cons in Hnd as [Hfresh Hnd].
    apply elem_of_cons in Hk as [->|Hk].
    + fold (writes pos g keys (<[pos k0:=g k0 (s !!! pos k0)]> s)).
      rewrite writes_elsewhere by exact Hfresh.
      destruct (s !! pos k0) as [x|] eqn:E.
      * rewrite list_lookup_insert_eq by (eapply lookup_lt_Some; eauto).
        simpl. rewrite (list_lookup_total_correct _ _ _ E). reflexivity.
      * simpl. apply lookup_ge_None. rewrite length_insert. apply lookup_ge_None. exact E.
    + rewrite IH by assumption.
      assert (Hne : pos k0 <> pos k).
      { intros E. apply Hfresh. rewrite E. apply list_elem_of_fmap_2. exact Hk. }
      rewrite list_lookup_insert_ne by exact Hne. reflexivity.
Qed.

End GridLoops.

(** ** The finite-difference time step *)

Module StencilFacts.
Import Stencil.

Lemma inner_cell_bound lo nx nz ix iz :
  (0 <= lo)%Z -> inner lo nx nz ix iz -> (0 <= ix * nz + iz < nx * nz)%Z.
Proof. unfold inner. intros Hlo [Hx Hz]. nia. Qed.

Lemma laplace_pass_writes (curr_wave u2 : list Q) (nx nz : Z) :
  laplace_pass curr_wave u2 nx nz
  = writes (cell nz) (fun p _ => laplace curr_wave nz (fst p * nz + snd p))
      (grid (d - 1) (nx - (d - 1)) (d - 1) (nz - (d - 1))) u2.
Proof. unfold laplace_pass. rewrite nest_as_fold. reflexivity. Qed.

Lemma advance_pass_writes (prev_wave curr_wave vel u2 : list Q) (nx nz nb : Z) :
  advance_pass prev_wave curr_wave vel u2 nx nz nb
  = writes (cell nz)
      (fun p prev => advance prev curr_wave vel u2 nx nz nb (fst p) (snd p))
      (grid d (nx - d) d (nz - d)) prev_wave.
Proof. unfold advance_pass. rewrite nest_as_fold. reflexivity. Qed.

Lemma grid_cells_NoDup lo nx nz :
  (0 <= lo)%Z -> NoDup (cell nz <$> grid lo (nx - lo) lo (nz - lo)).
Proof. intros Hlo. apply NoDup_cells; lia. Qed.

Lemma outside_not_written lo nx nz ix iz :
  (0 <= lo)%Z -> (0 <= ix)%Z -> (0 <= iz < nz)%Z -> ~ inner lo nx nz ix iz ->
  cell nz (ix, iz) ∉ cell nz <$> grid lo (nx - lo) lo (nz - lo).
Proof.
  intros Hlo Hx Hz Hout Hin. apply list_elem_of_fmap in Hin as ([ix' iz'] & E & Hg).
  apply elem_of_grid in Hg.
  destruct (cell_inj nz ix iz ix' iz' ltac:(lia) ltac:(lia) ltac:(lia) ltac:(lia) E)
    as [-> ->].
  apply Hout. exact Hg.
Qed.

Lemma beyond_not_written lo nx nz j :
  (0 <= lo)%Z -> (Z.to_nat (nx * nz) <= j)%nat ->
  j ∉ cell nz <$> grid lo (nx - lo) lo (nz - lo).
Proof.
  intros Hlo Hj Hin. apply list_elem_of_fmap in Hin as ([ix iz] & -> & Hg).
  apply elem_of_grid in Hg.
  pose proof (inner_cell_bound lo nx nz ix iz Hlo Hg). unfold cell in Hj. simpl in Hj. lia.
Qed.

Lemma laplace_pass_inner (curr_wave u2 : list Q) (nx nz ix iz : Z) :
  (Z.to_nat (nx * nz) <= length u2)%nat -> inner (d - 1) nx nz ix iz ->
  rd (laplace_pass curr_wave u2 nx nz) (ix * nz + iz) = laplace curr_wave nz (ix * nz + iz).
Proof.
  intros Hlen Hin. unfold rd. rewrite laplace_pass_writes.
  apply list_lookup_total_correct.
  change (Z.to_nat (ix * nz + iz)) with (cell nz (ix, iz)).
  rewrite writes_at.
  - pose proof (inner_cell_bound (d - 1) nx nz ix iz ltac:(unfold d; lia) Hin).
    destruct (lookup_lt_is_Some_2 u2 (cell nz (ix, iz))) as [x ->]; [|reflexivity].
    unfold cell. simpl. lia.
  - apply grid_cells_NoDup. unfold d. lia.
  - apply elem_of_grid. exact Hin.
Qed.

Lemma laplacian_lookup (curr_wave : list Q) (nx nz c : Z) :
  (0 <= c < nx * nz)%Z -> rd (laplacian curr_wave nx nz) c = laplace curr_wave nz c.
Proof.
  intros Hc. unfold rd, laplacian. apply list_lookup_total_correct.
  rewrite list_lookup_fmap, lookup_seqZ_lt by lia. simpl. f_equal. f_equal. lia.
Qed.

Lemma laplace_pass_read (curr_wave u2 : list Q) (nx nz c ix iz : Z) :
  (Z.to_nat (nx * nz) <= length u2)%nat -> inner (d - 1) nx nz ix iz ->
  c = (ix * nz + iz)%Z ->
  rd (laplace_pass curr_wave u2 nx nz) c = rd (laplacian curr_wave nx nz) c.
Proof.
  intros Hlen Hin ->. rewrite laplace_pass_inner by assumption.
  symmetry. apply laplacian_lookup.
  apply (inner_cell_bound (d - 1)); [unfold d; lia | exact Hin].
Qed.

Lemma advance_laplacian (prev : Q) (curr_wave vel u2 : list Q) (nx nz nb ix iz : Z) :
  (Z.to_nat (nx * nz) <= length u2)%nat -> inner d nx nz ix iz ->
  advance prev curr_wave vel (laplace_pass curr_wave u2 nx nz) nx nz nb ix iz
  = advance prev curr_wave vel (laplacian curr_wave nx nz) nx nz nb ix iz.
Proof.
  intros Hlen [Hx Hz]. unfold advance. unfold d in *.
  rewrite (laplace_pass_read curr_wave u2 nx nz (ix * nz + iz) ix iz);
    [|exact Hlen | unfold inner, d; lia | reflexivity].
  rewrite (laplace_pass_read curr_wave u2 nx nz (ix * nz + iz - 1) ix (iz - 1));
    [|exact Hlen | unfold inner, d; lia | ring].
  rewrite (laplace_pass_read curr_wave u2 nx nz (ix * nz + iz + 1) ix (iz + 1));
    [|exact Hlen | unfold inner, d; lia | ring].
  rewrite (laplace_pass_read curr_wave u2 nx nz (ix * nz + iz - nz) (ix - 1) iz);
    [|exact Hlen | unfold inner, d; lia | ring].
  rewrite (laplace_pass_read curr_wave u2 nx nz (ix * nz + iz + nz) (ix + 1) iz);
    [|exact Hlen | unfold inner, d; lia | ring].
  reflexivity.
Qed.

Lemma advance_pass_inner (prev_wave curr_wave vel u2 : list Q) (nx nz nb ix iz : Z) :
  (Z.to_nat (nx * nz) <= length prev_wave)%nat -> inner d nx nz ix iz ->
  advance_pass prev_wave curr_wave vel u2 nx nz nb !! Z.to_nat (ix * nz + iz)
  = Some (advance (rd prev_wave (ix * nz + iz)) curr_wave vel u2 nx nz nb ix iz).
Proof.
  intros Hlen Hin. rewrite advance_pass_writes.
  change (Z.to_nat (ix * nz + iz)) with (cell nz (ix, iz)).
  rewrite writes_at.
  - pose proof (inner_cell_bound d nx nz ix iz ltac:(unfold d; lia) Hin).
    destruct (lookup_lt_is_Some_2 prev_wave (cell nz (ix, iz))) as [x E].
    { unfold cell. simpl. lia. }
    rewrite E. simpl. unfold rd.
    change (Z.to_nat (ix * nz + iz)) with (cell nz (ix, iz)).
    rewrite (list_lookup_total_correct _ _ _ E). reflexivity.
  - apply grid_cells_NoDup. unfold d. lia.
  - apply elem_of_grid. exact Hin.
Qed.

Lemma empty_grid xlo xhi zlo zhi :
  (xhi <= xlo \/ zhi <= zlo)%Z -> grid xlo xhi zlo zhi = [].
Proof.
  intros Hempty. apply elem_of_nil_inv. intros [ix iz] Hin.
  apply elem_of_grid in Hin. lia.
Qed.

(** The damping weight on the cells the second loop nest visits. *)
Lemma ratio_bounds (p q : Z) : (0 < p < q)%Z -> 0 < inject_Z p / inject_Z q < 1.
Proof.
  intros Hpq.
  assert (Hq : 0 < inject_Z q) by (change 0 with (inject_Z 0); rewrite <- Zlt_Qlt; lia).
  assert (Hp : 0 < inject_Z p) by (change 0 with (inject_Z 0); rewrite <- Zlt_Qlt; lia).
  assert (Hlt : inject_Z p < inject_Z q) by (rewrite <- Zlt_Qlt; lia).
  split.
  - apply Qlt_shift_div_l; lra.
  - apply Qlt_shift_div_r; lra.
Qed.

Lemma dist_of_bounds (nx nz nb ix iz : Z) :
  inner d nx nz ix iz -> 0 <= dist_of nx nz nb nb ix iz < 1.
Proof.
  unfold inner, d, dist_of. intros [Hx Hz].
  destruct (Z.leb_spec (nz - nb) iz).
  { pose proof (ratio_bounds (iz - (nz - nb) + 1) nb ltac:(lia)). lra. }
  destruct (Z.leb_spec (nx - nb) ix).
  { pose proof (ratio_bounds (ix - (nx - nb) + 1) nb ltac:(lia)). lra. }
  destruct (Z.ltb_spec ix nb).
  { pose proof (ratio_bounds (nb - ix) nb ltac:(lia)). lra. }
  destruct ((nb <=? ix)%Z && (ix <? nx - nb)%Z && (iz <? nz - nb)%Z); lra.
Qed.

Lemma dist_of_clear (nx nz nb ix iz : Z) :
  (nb <= ix < nx - nb)%Z -> (iz < nz - nb)%Z -> dist_of nx nz nb nb ix iz = 0.
Proof.
  unfold dist_of. intros Hx Hz.
  destruct (Z.leb_spec (nz - nb) iz); [lia|].
  destruct (Z.leb_spec (nx - nb) ix); [lia|].
  destruct (Z.ltb_spec ix nb); [lia|].
  destruct ((nb <=? ix)%Z && (ix <? nx - nb)%Z && (iz <? nz - nb)%Z); reflexivity.
Qed.

Lemma rd_zero (l : list Q) (i : Z) : Forall (fun x => x == 0) l -> rd l i == 0.
Proof.
  intros Hall. unfold rd. rewrite list_lookup_total_alt.
  destruct (l !! Z.to_nat i) as [x|] eqn:E; [|reflexivity].
  apply (Forall_lookup_1 _ _ _ _ Hall E).
Qed.

Lemma laplace_zero (curr_wave : list Q) (nz c : Z) :
  Forall (fun x => x == 0) curr_wave -> laplace curr_wave nz c == 0.
Proof.
  intros Hall. unfold laplace. rewrite !(rd_zero curr_wave) by exact Hall. ring.
Qed.

End StencilFacts.

Section StencilResults.
Import Stencil StencilFacts.

(** X1: [fd4t10s_damp_zjh_2d_vtrans] keeps the lengths of [prev_wave] and
    [u2]; it writes [prev_wave] only in the block [6 <= ix < nx - 6],
    [6 <= iz < nz - 6], so the six outermost rows and columns of the grid and
    everything past [nx * nz] keep their content, and on a grid with
    [nx <= 12] or [nz <= 12] the whole of [prev_wave] comes back unchanged. *)
Theorem fd4t10s_writes_only_inner_block
    (prev_wave curr_wave vel u2 : list Q) (nx nz nb : Z) :
  let r := fd4t10s_damp_zjh_2d_vtrans prev_wave curr_wave vel u2 nx nz nb in
  length (fst r) = length prev_wave /\ length (snd r) = length u2
  /\ (forall ix iz, (0 <= ix)%Z -> (0 <= iz < nz)%Z -> ~ inner 6 nx nz ix iz ->
        fst r !! Z.to_nat (ix * nz + iz) = prev_wave !! Z.to_nat (ix * nz + iz))
  /\ (forall j, (Z.to_nat (nx * nz) <= j)%nat -> fst r !! j = prev_wave !! j)
  /\ ((nx <= 12 \/ nz <= 12)%Z -> fst r = prev_wave).
Proof.
  intros r. subst r. unfold fd4t10s_damp_zjh_2d_vtrans. cbn [fst snd].
  rewrite advance_pass_writes, laplace_pass_writes.
  split; [apply writes_length|]. split; [apply writes_length|].
  split; [|split].
  - intros ix iz Hx Hz Hout.
    change (Z.to_nat (ix * nz + iz)) with (cell nz (ix, iz)).
    apply writes_elsewhere. apply outside_not_written; try assumption. unfold d. lia.
  - intros j Hj. apply writes_elsewhere. apply beyond_not_written; [unfold d; lia | exact Hj].
  - intros Hsmall. rewrite (empty_grid d (nx - d) d (nz - d)) by (unfold d; lia). reflexivity.
Qed.

(** X2: on a grid that fits the arrays, every cell of the block
    [6 <= ix < nx - 6], [6 <= iz < nz - 6] of [prev_wave] receives the update
    formula evaluated on its own old value and on the Laplacian of [curr_wave]
    that the first loop nest has just stored in [u2]; the result in
    [prev_wave] is therefore the same whatever [u2] held on entry. *)
Theorem fd4t10s_inner_update
    (prev_wave curr_wave vel u2 u2' : list Q) (nx nz nb ix iz : Z) :
  fits nx nz prev_wave -> fits nx nz u2 -> fits nx nz u2' ->
  inner 6 nx nz ix iz ->
  let r := fd4t10s_damp_zjh_2d_vtrans prev_wave curr_wave vel u2 nx nz nb in
  let curPos := (ix * nz + iz)%Z in
  snd r !! Z.to_nat curPos = Some (laplace curr_wave nz curPos)
  /\ fst r !! Z.to_nat curPos
     = Some (advance (rd prev_wave curPos) curr_wave vel (laplacian curr_wave nx nz)
               nx nz nb ix iz)
  /\ fst r = fst (fd4t10s_damp_zjh_2d_vtrans prev_wave curr_wave vel u2' nx nz nb).
Proof.
  intros Hp Hu Hu' Hin r curPos. unfold fits in Hp, Hu, Hu'. subst r curPos.
  unfold fd4t10s_damp_zjh_2d_vtrans. cbn [fst snd].
  assert (Hin5 : inner (d - 1) nx nz ix iz) by (unfold inner, d in *; lia).
  pose proof (inner_cell_bound d nx nz ix iz ltac:(unfold d; lia) Hin) as Hc.
  split; [|split].
  - pose proof (laplace_pass_inner curr_wave u2 nx nz ix iz Hu Hin5) as E.
    unfold rd in E. rewrite <- E. apply list_lookup_lookup_total_lt.
    rewrite laplace_pass_writes, writes_length. lia.
  - rewrite advance_pass_inner by assumption.
    rewrite advance_laplacian by assumption. reflexivity.
  - apply list_eq. intros j. rewrite !advance_pass_writes.
    destruct (decide (j ∈ cell nz <$> grid d (nx - d) d (nz - d))) as [Hj|Hj].
    + apply list_elem_of_fmap in Hj as ([jx jz] & -> & Hg).
      rewrite !writes_at by (try exact Hg; apply grid_cells_NoDup; unfold d; lia).
      apply elem_of_grid in Hg. cbn [fst snd].
      destruct (prev_wave !! cell nz (jx, jz)) as [x|]; [|reflexivity]. simpl.
      rewrite !advance_laplacian by assumption. reflexivity.
    + rewrite !writes_elsewhere by exact Hj. reflexivity.
Qed.

Lemma fd4t10s_inner_update_witness :
  let ones := replicate 169 1 in
  let r := fd4t10s_damp_zjh_2d_vtrans ones ones (replicate 169 2) (replicate 169 7) 13 13 2 in
  snd r !! 84%nat = Some (laplace ones 13 84)
  /\ fst r !! 84%nat
     = Some (advance (rd ones 84) ones (replicate 169 2) (laplacian ones 13 13) 13 13 2 6 6)
  /\ fst r = fst (fd4t10s_damp_zjh_2d_vtrans ones ones (replicate 169 2) (replicate 169 0)
                    13 13 2).
Proof.
  intros ones.
  apply (fd4t10s_inner_update ones ones (replicate 169 2) (replicate 169 7)
           (replicate 169 0) 13 13 2 6 6).
  - unfold fits. vm_compute. lia.
  - unfold fits. vm_compute. lia.
  - unfold fits. vm_compute. lia.
  - unfold inner. lia.
Defined.

(** X3: on every cell the second loop nest visits, the distance that scales
    the damping lies in [[0, 1)], so the damping weight [delta] lies in
    [[0, 0.05)]; it is zero on the cells with [nb <= ix < nx - nb] and
    [iz < nz - nb], which include the rows next to the top edge. *)
Theorem fd4t10s_damping_profile (nx nz nb ix iz : Z) :
  inner 6 nx nz ix iz ->
  let dist := dist_of nx nz nb nb ix iz in
  let delta := max_delta * dist * dist in
  0 <= dist < 1 /\ 0 <= delta < 0.05
  /\ ((nb <= ix < nx - nb)%Z -> (iz < nz - nb)%Z -> dist = 0 /\ delta == 0).
Proof.
  intros Hin dist delta.
  pose proof (dist_of_bounds nx nz nb ix iz Hin) as Hd. fold dist in Hd.
  split; [exact Hd|]. split.
  - unfold delta, max_delta. nra.
  - intros Hx Hz. unfold delta, dist. rewrite dist_of_clear by assumption.
    split; [reflexivity | ring].
Qed.

Lemma fd4t10s_damping_profile_witness :
  let dist := dist_of 100 100 30 30 90 20 in
  let delta := max_delta * dist * dist in
  0 <= dist < 1 /\ 0 <= delta < 0.05
  /\ ((30 <= 90 < 100 - 30)%Z -> (20 < 100 - 30)%Z -> dist = 0 /\ delta == 0).
Proof.
  apply (fd4t10s_damping_profile 100 100 30 90 20). unfold inner. lia.
Defined.

(** X4: a wavefield at rest stays at rest: on a grid that fits the arrays,
    when [curr_wave] and [prev_wave] hold only zeros and no velocity cell is
    zero (the code divides by the velocity), [prev_wave] holds only zeros on
    return. *)
Theorem fd4t10s_rest_stays_rest
    (prev_wave curr_wave vel u2 : list Q) (nx nz nb : Z) :
  fits nx nz prev_wave -> fits nx nz curr_wave -> fits nx nz vel -> fits nx nz u2 ->
  Forall (fun v => ~ v == 0) vel ->
  Forall (fun x => x == 0) curr_wave ->
  Forall (fun x => x == 0) prev_wave ->
  Forall (fun x => x == 0)
    (fst (fd4t10s_damp_zjh_2d_vtrans prev_wave curr_wave vel u2 nx nz nb)).
Proof.
  unfold fits. intros _ _ _ Hu _ Hcurr Hprev. unfold fd4t10s_damp_zjh_2d_vtrans. cbn [fst].
  rewrite advance_pass_writes. apply Forall_lookup_2. intros j x.
  destruct (decide (j ∈ cell nz <$> grid d (nx - d) d (nz - d))) as [Hj|Hj].
  - apply list_elem_of_fmap in Hj as ([jx jz] & -> & Hg).
    rewrite writes_at by (try exact Hg; apply grid_cells_NoDup; unfold d; lia).
    apply elem_of_grid in Hg. cbn [fst snd].
    destruct (prev_wave !! cell nz (jx, jz)) as [y|] eqn:E; [|discriminate].
    simpl. intros [= <-].
    rewrite advance_laplacian by assumption.
    pose proof (Forall_lookup_1 _ _ _ _ Hprev E) as Hy. simpl in Hy.
    unfold advance.
    assert (Hl : forall c, rd (laplacian curr_wave nx nz) c == 0).
    { intros c. unfold rd. rewrite list_lookup_total_alt.
      destruct (laplacian curr_wave nx nz !! Z.to_nat c) as [v|] eqn:Ev; [|reflexivity].
      unfold laplacian in Ev. rewrite list_lookup_fmap in Ev.
      destruct (seqZ 0 (nx * nz) !! Z.to_nat c); [|discriminate].
      injection Ev as <-. simpl. apply laplace_zero. exact Hcurr. }
    rewrite !Hl, (rd_zero curr_wave) by exact Hcurr. rewrite Hy. ring.
  - rewrite writes_elsewhere by exact Hj. intros E.
    apply (Forall_lookup_1 _ _ _ _ Hprev E).
Qed.

Lemma fd4t10s_rest_stays_rest_witness :
  Forall (fun x => x == 0)
    (fst (fd4t10s_damp_zjh_2d_vtrans (replicate 169 0) (replicate 169 0) (replicate 169 2)
            (replicate 169 7) 13 13 2)).
Proof.
  apply (fd4t10s_rest_stays_rest (replicate 169 0) (replicate 169 0) (replicate 169 2)
           (replicate 169 7) 13 13 2).
  - unfold fits. vm_compute. lia.
  - unfold fits. vm_compute. lia.
  - unfold fits. vm_compute. lia.
  - unfold fits. vm_compute. lia.
  - apply Forall_replicate. vm_compute. discriminate.
  - apply Forall_replicate. reflexivity.
  - apply Forall_replicate. reflexivity.
Defined.

(** X5: without an absorbing layer ([nb = 0]) the time step can be undone:
    on a grid that fits the arrays, applying it a second time to its own
    result, with the same [curr_wave], gives [prev_wave] back. *)
Theorem fd4t10s_undamped_step_reverts
    (prev_wave curr_wave vel u2 u2' : list Q) (nx nz : Z) :
  fits nx nz prev_wave -> fits nx nz curr_wave -> fits nx nz vel ->
  fits nx nz u2 -> fits nx nz u2' ->
  let once := fst (fd4t10s_damp_zjh_2d_vtrans prev_wave curr_wave vel u2 nx nz 0) in
  let twice := fst (fd4t10s_damp_zjh_2d_vtrans once curr_wave vel u2' nx nz 0) in
  Forall2 Qeq twice prev_wave.
Proof.
  intros _ _ _ Hu Hu' once twice. unfold fits in Hu, Hu'. subst once twice.
  unfold fd4t10s_damp_zjh_2d_vtrans. cbn [fst].
  rewrite !advance_pass_writes.
  apply Forall2_same_length_lookup_2; [rewrite !writes_length; reflexivity|].
  intros j x y.
  destruct (decide (j ∈ cell nz <$> grid d (nx - d) d (nz - d))) as [Hj|Hj].
  - apply list_elem_of_fmap in Hj as ([jx jz] & -> & Hg).
    rewrite !writes_at by (try exact Hg; apply grid_cells_NoDup; unfold d; lia).
    apply elem_of_grid in Hg. cbn [fst snd].
    intros Hx Hy. rewrite Hy in Hx. simpl in Hx. injection Hx as <-.
    rewrite !advance_laplacian by assumption.
    unfold advance. rewrite dist_of_clear by (unfold d in Hg; lia). ring.
  - rewrite !writes_elsewhere by exact Hj. intros Hx Hy.
    rewrite Hy in Hx. injection Hx as <-. reflexivity.
Qed.

Lemma fd4t10s_undamped_step_reverts_witness :
  let prev := inject_Z <$> seqZ 1 169 in
  let curr := (fun k => inject_Z k / 3) <$> seqZ 5 169 in
  let once := fst (fd4t10s_damp_zjh_2d_vtrans prev curr (replicate 169 2) (replicate 169 7)
                     13 13 0) in
  let twice := fst (fd4t10s_damp_zjh_2d_vtrans once curr (replicate 169 2) (replicate 169 0)
                      13 13 0) in
  Forall2 Qeq twice prev.
Proof.
  apply (fd4t10s_undamped_step_reverts _ _ (replicate 169 2) (replicate 169 7)
           (replicate 169 0) 13 13).
  - unfold fits. vm_compute. lia.
  - unfold fits. vm_compute. lia.
  - unfold fits. vm_compute. lia.
  - unfold fits. vm_compute. lia.
  - unfold fits. vm_compute. lia.
Defined.

End StencilResults.

(** ** The forward pass and its files *)

Module ForwardFacts.
Import Gradient Forward.

Section Facts.
Context `{Collaborators}.
Variables (vel : Velocity) (allSrcPos : ShotPosition) (encSrc : list Q) (nt : Z).

Abbreviation fields := (forward_fields vel allSrcPos encSrc).

Lemma forward_fields_S (n : nat) :
  fields (S n)
  = (addSource (snd (fields n)) (drop (n * Z.to_nat (count allSrcPos)) encSrc) allSrcPos,
     stepForward vel (fst (fields n))
       (addSource (snd (fields n)) (drop (n * Z.to_nat (count allSrcPos)) encSrc)
          allSrcPos)).
Proof.
  unfold forward_fields. rewrite for_upto_S.
  destruct (for_upto n _ _) as [p0 p1]. reflexivity.
Qed.

Lemma saved_S (n : nat) :
  saved vel allSrcPos encSrc nt (S n)
  = saved vel allSrcPos encSrc nt n
    ++ (if kept nt (Z.of_nat n)
        then [(CheckAt (Z.of_nat n) 1, fst (fields (S n)));
              (CheckAt (Z.of_nat n) 2, snd (fields (S n)))]
        else []).
Proof.
  unfold saved. rewrite seq_S, bind_app. cbn [mbind list_bind].
  rewrite app_nil_r. reflexivity.
Qed.

Lemma forward_loop_saved (k : nat) :
  forward_loop vel allSrcPos encSrc nt k
  = (fst (fields k), snd (fields k), saved vel allSrcPos encSrc nt k).
Proof.
  unfold forward_loop. induction k as [|k IH]; [reflexivity|].
  rewrite for_upto_S, IH, saved_S, forward_fields_S. cbn [fst snd].
  unfold kept. destruct (_ && _ && _)%Z; [reflexivity|].
  rewrite app_nil_r. reflexivity.
Qed.

Lemma forwardPropagate_saved :
  forwardPropagate vel allSrcPos encSrc nt
  = saved vel allSrcPos encSrc nt (Z.to_nat nt)
    ++ [(CheckLast 1, fst (fields (Z.to_nat nt)));
        (CheckLast 2, snd (fields (Z.to_nat nt)))].
Proof. unfold forwardPropagate. rewrite forward_loop_saved. reflexivity. Qed.

Lemma elem_of_saved (n : nat) (f : checkpoint) (data : list Q) :
  (f, data) ∈ saved vel allSrcPos encSrc nt n <->
  exists it, (it < n)%nat /\ kept nt (Z.of_nat it) = true /\
    ((f, data) = (CheckAt (Z.of_nat it) 1, fst (fields (S it))) \/
     (f, data) = (CheckAt (Z.of_nat it) 2, snd (fields (S it)))).
Proof.
  unfold saved. rewrite list_elem_of_bind. split.
  - intros (it & Hin & Hit). apply elem_of_seq in Hit.
    destruct (kept nt (Z.of_nat it)) eqn:E; [|apply elem_of_nil in Hin; contradiction].
    exists it. split; [lia|]. split; [exact E|].
    apply elem_of_cons in Hin as [Hin|Hin]; [left; exact Hin|].
    apply elem_of_cons in Hin as [Hin|Hin]; [right; exact Hin|].
    apply elem_of_nil in Hin. contradiction.
  - intros (it & Hit & Hk & Hin). exists it. rewrite Hk. split.
    + destruct Hin as [->| ->]; [left | right; left].
    + apply elem_of_seq. lia.
Qed.

Lemma kept_true (it : Z) :
  (0 <= it < nt)%Z -> kept nt it = true <-> (0 < it < nt - 1 /\ it mod 50 = 0)%Z.
Proof.
  intros Hit. unfold kept, check_step.
  rewrite Z.rem_mod_nonneg by lia.
  destruct (Z.ltb_spec 0 it); destruct (Z.eqb_spec it (nt - 1));
    destruct (Z.eqb_spec (it mod 50) 0); simpl; split; try discriminate; try lia;
    intros; reflexivity.
Qed.

Lemma written_files (f : checkpoint) (data : list Q) :
  (f, data) ∈ forwardPropagate vel allSrcPos encSrc nt <->
  (f, data) = (CheckLast 1, fst (fields (Z.to_nat nt))) \/
  (f, data) = (CheckLast 2, snd (fields (Z.to_nat nt))) \/
  exists it : nat,
    (0 < Z.of_nat it < nt - 1)%Z /\ (Z.of_nat it mod 50 = 0)%Z /\
    ((f, data) = (CheckAt (Z.of_nat it) 1, fst (fields (S it))) \/
     (f, data) = (CheckAt (Z.of_nat it) 2, snd (fields (S it)))).
Proof.
  rewrite forwardPropagate_saved, elem_of_app, elem_of_saved.
  rewrite !elem_of_cons, elem_of_nil. split.
  - intros [(it & Hit & Hk & Hin)|[E|[E|[]]]]; [|left; exact E | right; left; exact E].
    right; right. exists it. apply kept_true in Hk; [|lia]. tauto.
  - intros [E|[E|(it & Hit & Hmod & Hin)]];
      [right; left; exact E | right; right; left; exact E|].
    left. exists it. split; [lia|]. split; [|exact Hin].
    apply kept_true; lia.
Qed.

End Facts.


End ForwardFacts.

Section ForwardResults.
Import Gradient Forward ForwardFacts.
Context `{Collaborators}.
Variables (vel : Velocity) (allSrcPos allGeoPos : ShotPosition).
Variables (encSrc vsrc : list Q) (nt : Z).

Abbreviation fields := (forward_fields vel allSrcPos encSrc).

(** X6: [forwardPropagate] writes the two files [check_time_last_1/2], which
    hold the wavefields [p0] and [p1] as they are after the last time step
    (at rest when [nt <= 0]), and, for every time step [it] with
    [0 < it < nt - 1] and [it % 50 == 0], the two files [check_time_<it>_1/2]
    with the wavefields [p0] and [p1] as they are after step [it]; it writes
    nothing else. *)
Theorem forwardPropagate_files (f : checkpoint) (data : list Q) :
  (f, data) ∈ forwardPropagate vel allSrcPos encSrc nt <->
  (f, data) = (CheckLast 1, fst (fields (Z.to_nat nt))) \/
  (f, data) = (CheckLast 2, snd (fields (Z.to_nat nt))) \/
  exists it : nat,
    (0 < Z.of_nat it < nt - 1)%Z /\ (Z.of_nat it mod 50 = 0)%Z /\
    ((f, data) = (CheckAt (Z.of_nat it) 1, fst (fields (S it))) \/
     (f, data) = (CheckAt (Z.of_nat it) 2, snd (fields (S it)))).
Proof.
  apply written_files.
Qed.

(** X7: when [readBin] returns what [forwardPropagate] wrote, the backward
    pass of [hello] restarts, at its first time step [nt - 1] and at every
    later step [it > 0] with [it % 50 == 0], from the pair of wavefields the
    forward pass had after step [it]: [stepBackward] receives the newer one
    (file 2) as the field to overwrite and the older one (file 1) as the
    current field, and the source is then taken off the older one. *)
Theorem hello_resumes_from_saved_fields (k : nat) (w : wavefields) :
  (forall f data,
     (f, data) ∈ forwardPropagate vel allSrcPos encSrc nt -> readBin f = data) ->
  (Z.of_nat k < nt)%Z ->
  (Z.of_nat k = nt - 1 \/ (0 < Z.of_nat k /\ Z.of_nat k mod 50 = 0))%Z ->
  let older := fst (fields (S k)) in
  let newer := snd (fields (S k)) in
  let w' := propagate vel allSrcPos allGeoPos encSrc vsrc nt (Z.of_nat k) w in
  sp1 w' = stepBackward vel newer older /\
  sp0 w' = subSource older (drop (Z.to_nat (Z.of_nat k * count allSrcPos)) encSrc) allSrcPos.
Proof.
  intros Hread Hk Hload older newer w'. subst w'. unfold propagate.
  assert (Hfiles :
    (if (Z.of_nat k =? nt - 1)%Z then (readBin (CheckLast 2), readBin (CheckLast 1))
     else if ((0 <? check_step) && (Z.rem (Z.of_nat k) check_step =? 0)
              && negb (Z.of_nat k =? 0))%Z
          then (readBin (CheckAt (Z.of_nat k) 2), readBin (CheckAt (Z.of_nat k) 1))
          else (sp0 w, sp1 w)) = (newer, older)).
  { destruct (Z.eqb_spec (Z.of_nat k) (nt - 1)) as [Elast|Hne].
    - assert (Ek : S k = Z.to_nat nt) by lia.
      subst older newer. rewrite Ek.
      rewrite (Hread (CheckLast 2) (snd (fields (Z.to_nat nt))))
        by (apply written_files; right; left; reflexivity).
      rewrite (Hread (CheckLast 1) (fst (fields (Z.to_nat nt))))
        by (apply written_files; left; reflexivity).
      reflexivity.
    - destruct Hload as [Elast|[Hpos Hmod]]; [contradiction|].
      unfold check_step. rewrite Z.rem_mod_nonneg, Hmod by lia.
      destruct (Z.eqb_spec (Z.of_nat k) 0); [lia|]. cbn [andb negb Z.ltb Z.compare Z.eqb].
      rewrite (Hread (CheckAt (Z.of_nat k) 2) newer).
      2:{ apply written_files. right; right. exists k.
          split; [lia|]. split; [exact Hmod | right; reflexivity]. }
      rewrite (Hread (CheckAt (Z.of_nat k) 1) older).
      2:{ apply written_files. right; right. exists k.
          split; [lia|]. split; [exact Hmod | left; reflexivity]. }
      reflexivity. }
  rewrite Hfiles. split; reflexivity.
Qed.

(** X8: [forwardModeling] runs the same forward recursion as
    [forwardPropagate], whatever it records: the row of [dobs] for time step
    [it] is what [recordSeis] takes from the newer of the two wavefields
    after step [it] (the one [forwardPropagate] keeps as file 2). *)
Theorem forwardModeling_records_forward_fields (dobs : list Q) :
  StepLen.forwardModeling vel allSrcPos allGeoPos encSrc dobs nt
  = for_upto (Z.to_nat nt)
      (fun it dobs =>
         at_offset (it * Z.to_nat (count allGeoPos))
           (fun d => recordSeis d (snd (fields (S it))) allGeoPos) dobs)
      dobs.
Proof.
  unfold StepLen.forwardModeling.
  match goal with
  | |- snd (for_upto ?n ?body ?init) = for_upto ?n ?body' ?d =>
      assert (E : forall k, for_upto k body init = (fields k, for_upto k body' d))
  end.
  { induction k as [|k IH]; [reflexivity|].
    rewrite !for_upto_S, IH.
    rewrite (forward_fields_S vel allSrcPos encSrc k).
    destruct (fields k) as [p0 p1]. reflexivity. }
  rewrite E. reflexivity.
Qed.

End ForwardResults.

Section ForwardExamples.
Import Gradient Forward ForwardFacts.

Lemma hello_resumes_from_saved_fields_witness :
  let C := Replay.counting in
  let w' := @propagate C (Sample.one_cell 0) Sample.one_point Sample.one_point
              [0] [0] 52 50 (mkWavefields [7] [7] [7] [7]) in
  sp1 w' = @stepBackward C (Sample.one_cell 0) [51] [50] /\
  sp0 w' = @subSource C [50] (drop (Z.to_nat (50 * 1)) [0]) Sample.one_point.
Proof.
  intros C.
  assert (Hread : forall f data,
            (f, data) ∈ @forwardPropagate C (Sample.one_cell 0) Sample.one_point [0] 52 ->
            @readBin C f = data).
  { intros f data Hin.
    set (l := @forwardPropagate C (Sample.one_cell 0) Sample.one_point [0] 52) in Hin.
    vm_compute in l. subst l.
    repeat (apply elem_of_cons in Hin as [Hin|Hin];
            [injection Hin as -> ->; reflexivity|]).
    apply elem_of_nil in Hin. contradiction. }
  exact (@hello_resumes_from_saved_fields C (Sample.one_cell 0) Sample.one_point
           Sample.one_point [0] [0] 52 50 (mkWavefields [7] [7] [7] [7]) Hread
           ltac:(reflexivity) ltac:(right; split; reflexivity)).
Defined.

End ForwardExamples.

(** ** The backward pass *)

Module HelloFacts.
Import Gradient.

Section Facts.
Context `{Collaborators}.
Variables (vel : Velocity) (allSrcPos allGeoPos : ShotPosition).
Variables (encSrc vsrc : list Q) (nt : Z) (dt : Q).

Lemma cross_correlation_length (src v image : list Q) (n : nat) (scale : Q) :
  length (cross_correlation src v image n scale) = length image.
Proof.
  unfold cross_correlation.
  change (fun i img => <[ i := img !!! i - src !!! i * v !!! i * scale ]> img)
    with (cell_pass (fun i y => y - src !!! i * v !!! i * scale)).
  apply cell_loop_length.
Qed.

Lemma hello_loop_length (k : nat) (w : wavefields) (g0 : list Q) :
  length (snd (hello_loop vel allSrcPos allGeoPos encSrc vsrc nt dt k w g0)) = length g0.
Proof.
  revert w g0. induction k as [|k IH]; intros w g0; [reflexivity|].
  cbn [hello_loop].
  destruct (Qltb 0.4 (dt * inject_Z (Z.of_nat k))).
  - rewrite IH. apply cross_correlation_length.
  - destruct (Qltb 0.3 (dt * inject_Z (Z.of_nat k))); [|reflexivity].
    rewrite IH. apply cross_correlation_length.
Qed.

Lemma propagate_last_reloads (w w' : wavefields) :
  gp0 w = gp0 w' -> gp1 w = gp1 w' ->
  propagate vel allSrcPos allGeoPos encSrc vsrc nt (nt - 1) w
  = propagate vel allSrcPos allGeoPos encSrc vsrc nt (nt - 1) w'.
Proof.
  intros E0 E1. unfold propagate. rewrite Z.eqb_refl, E0, E1. reflexivity.
Qed.

End Facts.

End HelloFacts.

Section HelloResults.
Import Gradient HelloFacts.
Context `{Collaborators}.
Variables (vel : Velocity) (allSrcPos allGeoPos : ShotPosition).
Variables (encSrc vsrc : list Q) (nt : Z) (dt : Q).

(** X9: [hello] keeps the length of the gradient image, and when the pass
    has no time step, or its last time step [nt - 1] already has
    [dt * (nt - 1) <= 0.3], it leaves the image exactly as it was given. *)
Theorem hello_short_record_adds_nothing (w : wavefields) (g0 : list Q) :
  length (hello vel allSrcPos allGeoPos encSrc vsrc nt dt w g0) = length g0
  /\ ((nt <= 0)%Z \/ dt * inject_Z (nt - 1) <= 0.3 ->
      hello vel allSrcPos allGeoPos encSrc vsrc nt dt w g0 = g0).
Proof.
  split; [apply hello_loop_length|].
  intros Hshort. unfold hello.
  destruct (Z.to_nat nt) as [|k] eqn:Ek; [reflexivity|].
  destruct Hshort as [Hnt|Hdt]; [lia|].
  assert (Eit : Z.of_nat k = (nt - 1)%Z) by lia.
  cbn [hello_loop]. rewrite Eit.
  assert (E1 : Qltb 0.4 (dt * inject_Z (nt - 1)) = false) by (apply Qltb_ge; lra).
  assert (E2 : Qltb 0.3 (dt * inject_Z (nt - 1)) = false) by (apply Qltb_ge; lra).
  rewrite E1, E2. reflexivity.
Qed.

(** X10: the [rand() % 100] values [hello] puts into [sp0] and [sp1] never
    reach the gradient: with at least one time step both arrays are loaded
    from the files of the last time step before they are read, so the image
    returned is the same for any two initial contents of [sp0] and [sp1]. *)
Theorem hello_ignores_initial_source_fields
    (sp0a sp1a sp0b sp1b gp0 gp1 g0 : list Q) :
  (1 <= nt)%Z ->
  hello vel allSrcPos allGeoPos encSrc vsrc nt dt (mkWavefields sp0a sp1a gp0 gp1) g0
  = hello vel allSrcPos allGeoPos encSrc vsrc nt dt (mkWavefields sp0b sp1b gp0 gp1) g0.
Proof.
  intros Hnt. unfold hello.
  destruct (Z.to_nat nt) as [|k] eqn:Ek; [lia|].
  assert (Eit : Z.of_nat k = (nt - 1)%Z) by lia.
  cbn [hello_loop]. rewrite Eit.
  rewrite (propagate_last_reloads vel allSrcPos allGeoPos encSrc vsrc nt
             (mkWavefields sp0a sp1a gp0 gp1) (mkWavefields sp0b sp1b gp0 gp1))
    by reflexivity.
  reflexivity.
Qed.

End HelloResults.

Section HelloExamples.
Import Gradient.

Lemma hello_ignores_initial_source_fields_witness :
  let C := Sample.collaborators 0 in
  @hello C (Sample.one_cell 1) Sample.one_point Sample.one_point [0] [0] 3 0.2
    (mkWavefields [11] [12] [3] [4]) [5]
  = @hello C (Sample.one_cell 1) Sample.one_point Sample.one_point [0] [0] 3 0.2
      (mkWavefields [21] [22] [3] [4]) [5].
Proof.
  intros C.
  apply (@hello_ignores_initial_source_fields C (Sample.one_cell 1) Sample.one_point
           Sample.one_point [0] [0] 3 0.2 [11] [12] [21] [22] [3] [4] [5]).
  lia.
Defined.

End HelloExamples.

(** ** Loops over arrays *)

Module LoopFacts.
Import StepLen Gradient.

Lemma vectorMinus_as_cell_loop (dobs dcal vsrc : list Q) :
  vectorMinus dobs dcal vsrc
  = for_upto (length dobs) (cell_pass (fun i (_ : Q) => dobs !!! i - dcal !!! i)) vsrc.
Proof. reflexivity. Qed.

Lemma cross_correlation_as_cell_loop (src vsrc image : list Q) (n : nat) (scale : Q) :
  cross_correlation src vsrc image n scale
  = for_upto n (cell_pass (fun i y => y - src !!! i * vsrc !!! i * scale)) image.
Proof. reflexivity. Qed.

End LoopFacts.

Section LoopResults.
Import StepLen Gradient LoopFacts UpdateVel UpdateVelFacts.

(** X11: [vectorMinus] stores [dobs[i] - dcal[i]] in the first [dobs.size()]
    cells of [vsrc] and leaves the length and every later cell of [vsrc] as
    they were; two equal inputs give zeros. *)
Theorem vectorMinus_cells (dobs dcal vsrc : list Q) :
  (length dobs <= length dcal)%nat ->
  (length dobs <= length vsrc)%nat ->
  let r := vectorMinus dobs dcal vsrc in
  length r = length vsrc
  /\ (forall i, (i < length dobs)%nat -> r !! i = Some (dobs !!! i - dcal !!! i))
  /\ (forall i, (length dobs <= i)%nat -> r !! i = vsrc !! i)
  /\ (dcal = dobs -> forall i x, (i < length dobs)%nat -> r !! i = Some x -> x == 0).
Proof.
  intros _ Hv r. subst r. rewrite vectorMinus_as_cell_loop.
  assert (Hcell : forall i, (i < length dobs)%nat ->
            for_upto (length dobs) (cell_pass (fun i (_ : Q) => dobs !!! i - dcal !!! i)) vsrc
              !! i = Some (dobs !!! i - dcal !!! i)).
  { intros i Hi. rewrite cell_loop_lookup.
    destruct (decide (i < length dobs)%nat); [|lia].
    destruct (lookup_lt_is_Some_2 vsrc i ltac:(lia)) as [x ->]. reflexivity. }
  split; [apply cell_loop_length|]. split; [exact Hcell|]. split.
  - intros i Hi. rewrite cell_loop_lookup.
    destruct (decide (i < length dobs)%nat); [lia | reflexivity].
  - intros -> i x Hi Hx. rewrite Hcell in Hx by exact Hi. injection Hx as <-. ring.
Qed.

Lemma vectorMinus_cells_witness :
  let r := vectorMinus [5; 7] [1; 2; 3] [9; 9; 9] in
  length r = length [9; 9; 9]
  /\ (forall i, (i < length [5; 7])%nat -> r !! i = Some ([5; 7] !!! i - [1; 2; 3] !!! i))
  /\ (forall i, (length [5; 7] <= i)%nat -> r !! i = [9; 9; 9] !! i)
  /\ ([1; 2; 3] = [5; 7] ->
      forall i x, (i < length [5; 7])%nat -> r !! i = Some x -> x == 0).
Proof.
  apply (vectorMinus_cells [5; 7] [1; 2; 3] [9; 9; 9]); simpl; lia.
Defined.

(** X12: [cross_correlation] takes [src_wave[i] * vsrc_wave[i] * scale] off
    every cell of the image; accumulating with weight [s1] and then with
    weight [s2] gives the same image as accumulating once with weight
    [s1 + s2], and weight [0] leaves the image as it is. *)
Theorem cross_correlation_adds_weights (src vsrc image : list Q) (s1 s2 : Q) :
  let n := length image in
  Forall2 Qeq
    (cross_correlation src vsrc (cross_correlation src vsrc image n s1) n s2)
    (cross_correlation src vsrc image n (s1 + s2))
  /\ Forall2 Qeq (cross_correlation src vsrc image n 0) image.
Proof.
  intros n. subst n. rewrite !cross_correlation_as_cell_loop. split.
  - apply Forall2_same_length_lookup_2; [rewrite !cell_loop_length; reflexivity|].
    intros i x y. rewrite !cell_loop_lookup.
    destruct (decide (i < length image)%nat) as [Hi|Hi].
    + destruct (lookup_lt_is_Some_2 image i Hi) as [v ->]. simpl.
      intros [= <-] [= <-]. ring.
    + rewrite (lookup_ge_None_2 image i) by lia. discriminate.
  - apply Forall2_same_length_lookup_2; [rewrite !cell_loop_length; reflexivity|].
    intros i x y. rewrite !cell_loop_lookup.
    destruct (decide (i < length image)%nat) as [Hi|Hi].
    + intros Hx Hy. rewrite Hy in Hx. simpl in Hx. injection Hx as <-. ring.
    + rewrite (lookup_ge_None_2 image i) by lia. discriminate.
Qed.



End LoopResults.

Module FilterFacts.
Import VirtualSource VirtualSourceFacts.

Lemma sampled_total (p : Q -> Q) (n j : nat) :
  (j < n)%nat -> sampled p n !!! j = p (inject_Z (Z.of_nat j)).
Proof.
  intros Hj. apply list_lookup_total_correct. unfold sampled.
  rewrite list_lookup_fmap, lookup_seq_lt by exact Hj. reflexivity.
Qed.

Lemma filter_inner (trace : list Q) (num : Z) (dt : Q) (i : nat) :
  num = Z.of_nat (length trace) -> (2 <= i)%nat -> (i + 2 < length trace)%nat ->
  second_order_virtual_source_forth_accuracy trace num dt !! i
  = Some (-(1) / 12 * trace !!! (i - 2)%nat + 4 / 3 * trace !!! (i - 1)%nat
          - 2.5 * trace !!! i + 4 / 3 * trace !!! (i + 1)%nat
          - 1 / 12 * trace !!! (i + 2)%nat).
Proof.
  intros -> Hlo Hhi. rewrite filter_as_cell_loop, cell_loop_lookup.
  rewrite Nat2Z.id, firstn_all.
  destruct (decide (i < length trace)%nat); [|lia].
  destruct (lookup_lt_is_Some_2 trace i ltac:(lia)) as [x ->]. simpl.
  unfold filter_value.
  destruct (Z.leb_spec (Z.of_nat i) 1); [lia|].
  destruct (Z.eqb_spec (Z.of_nat (length trace) - 1) (Z.of_nat i)); [lia|].
  destruct (Z.eqb_spec (Z.of_nat (length trace) - 2) (Z.of_nat i)); [lia|].
  reflexivity.
Qed.

End FilterFacts.

Section FilterResults.
Import VirtualSource VirtualSourceFacts FilterFacts.

(** X14: away from the two samples at either end, the filter is an exact
    second difference for polynomials up to degree five: on the samples
    [p(0), ..., p(n - 1)] of [p(x) = c0 + c1 x + ... + c5 x^5] it stores
    [p''(i) = 2 c2 + 6 c3 i + 12 c4 i^2 + 20 c5 i^3] in sample [i]. *)
Theorem filter_exact_on_quintics (c0 c1 c2 c3 c4 c5 dt : Q) (n i : nat) :
  (2 <= i)%nat -> (i + 2 < n)%nat ->
  exists v,
    second_order_virtual_source_forth_accuracy
      (sampled (quintic c0 c1 c2 c3 c4 c5) n) (Z.of_nat n) dt !! i = Some v
    /\ let x := inject_Z (Z.of_nat i) in
       v == 2 * c2 + 6 * c3 * x + 12 * c4 * x * x + 20 * c5 * x * x * x.
Proof.
  intros Hlo Hhi.
  assert (Hlen : length (sampled (quintic c0 c1 c2 c3 c4 c5) n) = n).
  { unfold sampled. rewrite length_fmap, length_seq. reflexivity. }
  eexists. split.
  - apply filter_inner; rewrite ?Hlen; [reflexivity | exact Hlo | exact Hhi].
  - intros x. rewrite !sampled_total by lia.
    replace (Z.of_nat (i - 2)) with (Z.of_nat i - 2)%Z by lia.
    replace (Z.of_nat (i - 1)) with (Z.of_nat i - 1)%Z by lia.
    replace (Z.of_nat (i + 1)) with (Z.of_nat i + 1)%Z by lia.
    replace (Z.of_nat (i + 2)) with (Z.of_nat i + 2)%Z by lia.
    unfold Zminus. rewrite !inject_Z_plus. fold x.
    change (inject_Z (- (2))) with (- (2)). change (inject_Z (- (1))) with (- (1)).
    change (inject_Z 1) with 1. change (inject_Z 2) with 2.
    unfold quintic. field.
Qed.

Lemma filter_exact_on_quintics_witness :
  exists v,
    second_order_virtual_source_forth_accuracy
      (sampled (quintic 1 2 3 4 5 6) 7) (Z.of_nat 7) 0.001 !! 3%nat = Some v
    /\ let x := inject_Z (Z.of_nat 3) in
       v == 2 * 3 + 6 * 4 * x + 12 * 5 * x * x + 20 * 6 * x * x * x.
Proof.
  apply (filter_exact_on_quintics 1 2 3 4 5 6 0.001 7 3); lia.
Defined.

End FilterResults.

(** ** The step-length search *)

Section ComparatorResults.
Import StepLen SelectFacts.

(** X15: [parabolicLessComp] looks at the misfit only, not at the step
    length; it holds between every point and itself and, for any two points,
    in at least one direction, and in both when their misfits differ by less
    than [1e-10]: it is not the strict ordering a [std::set] asks for. *)
Theorem parabolicLessComp_is_reflexive_and_total (a b : ParaPoint) :
  parabolicLessComp a a = true
  /\ (parabolicLessComp a b = true \/ parabolicLessComp b a = true)
  /\ (Qabs (snd a - snd b) < tolerance <->
      parabolicLessComp a b = true /\ parabolicLessComp b a = true)
  /\ (forall x y, parabolicLessComp (x, snd a) (y, snd b) = parabolicLessComp a b).
Proof.
  split; [apply comp_le; lra|]. split; [|split].
  - destruct (parabolicLessComp a b) eqn:E; [left; reflexivity|].
    right. apply (comp_false _ _ E).
  - unfold parabolicLessComp. rewrite !Qltb_lt. split.
    + intros Habs. apply Qabs_Qlt_condition in Habs. lra.
    + intros [H1 H2]. apply Qabs_Qlt_condition. lra.
  - intros x y. reflexivity.
Qed.

End ComparatorResults.

Section WarmStartResults.
Import StepLen StepLenFacts.

(** X16: when the step length stored for [ivel] and [max_alpha3] are finite
    numbers (not the infinity that [2 * FLT_MAX] gives [calMaxAlpha2_3] when
    every gradient is negligible, and no NaN), [initAlpha2_3] starts the
    search from positive step lengths, [alpha3 >= 1.0E-7] and
    [alpha2 = alpha3 / 2 < alpha3]; it marks the index [ivel] as initialised
    and leaves the flag and the value of every other index as they were. *)
Theorem initAlpha2_3_starts_positive (ivel : Z) (max_alpha3 : Q) (st : PreservedAlpha) :
  getAlpha st ivel <= FLT_MAX -> max_alpha3 <= FLT_MAX ->
  let r := initAlpha2_3 ivel max_alpha3 st in
  let initAlpha2 := fst (fst r) in
  let initAlpha3 := snd (fst r) in
  minAlpha <= initAlpha3 /\ 0 < initAlpha2 /\ initAlpha2 < initAlpha3
  /\ getIsInit (snd r) ivel = true
  /\ (forall j, j <> ivel ->
        getIsInit (snd r) j = getIsInit st j /\ getAlpha (snd r) j = getAlpha st j).
Proof.
  intros _ _ r initAlpha2 initAlpha3.
  assert (H3 : minAlpha <= initAlpha3).
  { subst initAlpha3 r. unfold initAlpha2_3. cbn [fst snd].
    match goal with |- _ <= (if Qltb ?s minAlpha then _ else _) =>
      destruct (Qltb s minAlpha) eqn:E end.
    - unfold minAlpha, resetAlpha. lra.
    - apply Qltb_ge in E. exact E. }
  assert (H2 : initAlpha2 == initAlpha3 * 0.5) by reflexivity.
  split; [exact H3|].
  assert (Hpos : 0 < initAlpha2 /\ initAlpha2 < initAlpha3).
  { unfold minAlpha in H3. clearbody initAlpha2 initAlpha3. lra. }
  split; [apply Hpos|]. split; [apply Hpos|].
  subst r. unfold initAlpha2_3. cbn [snd].
  destruct (getIsInit st ivel) eqn:Einit; cbn [negb].
  - split; [exact Einit|]. intros j _. split; reflexivity.
  - split.
    + rewrite getIsInit_setAlpha. apply getIsInit_setIsInit.
    + intros j Hj. split.
      * rewrite getIsInit_setAlpha. unfold getIsInit, setIsInit. simpl.
        rewrite lookup_insert_ne by congruence. reflexivity.
      * rewrite getAlpha_setAlpha_ne by congruence. reflexivity.
Qed.

Lemma initAlpha2_3_starts_positive_witness :
  let r := initAlpha2_3 0 4 Sample.warm_state in
  minAlpha <= snd (fst r) /\ 0 < fst (fst r) /\ fst (fst r) < snd (fst r)
  /\ getIsInit (snd r) 0 = true
  /\ (forall j, j <> 0%Z ->
        getIsInit (snd r) j = getIsInit Sample.warm_state j /\
        getAlpha (snd r) j = getAlpha Sample.warm_state j).
Proof.
  apply (initAlpha2_3_starts_positive 0 4 Sample.warm_state); vm_compute; discriminate.
Defined.

End WarmStartResults.

Module BoundFacts.
Import StepLen.

Lemma running_min (skip : nat -> bool) (c : nat -> Q) (init : Q) (n : nat) :
  let r := for_upto n
             (fun i a => if skip i then a else if Qltb (c i) a then c i else a) init in
  r <= init
  /\ (forall i, (i < n)%nat -> skip i = false -> r <= c i)
  /\ (r = init \/ exists i, (i < n)%nat /\ skip i = false /\ r = c i).
Proof.
  induction n as [|n IH]; intros r; subst r.
  - split; [apply Qle_refl|]. split; [intros i Hi; lia | left; reflexivity].
  - rewrite for_upto_S. cbv zeta in IH.
    set (r := for_upto n _ init) in *. destruct IH as (Hle & Hlow & Hatt).
    destruct (skip n) eqn:Es.
    + split; [exact Hle|]. split.
      * intros i Hi Hsk. destruct (decide (i = n)) as [->|Hne]; [congruence|].
        apply Hlow; [lia | exact Hsk].
      * destruct Hatt as [E|(i & Hi & Hsk & E)]; [left; exact E|].
        right. exists i. split; [lia|]. split; assumption.
    + destruct (Qltb (c n) r) eqn:Ec.
      * apply Qltb_lt in Ec. split; [lra|]. split.
        -- intros i Hi Hsk. destruct (decide (i = n)) as [->|Hne]; [apply Qle_refl|].
           specialize (Hlow i ltac:(lia) Hsk). lra.
        -- right. exists n. split; [lia|]. split; [exact Es | reflexivity].
      * apply Qltb_ge in Ec. split; [exact Hle|]. split.
        -- intros i Hi Hsk. destruct (decide (i = n)) as [->|Hne]; [exact Ec|].
           apply Hlow; [lia | exact Hsk].
        -- destruct Hatt as [E|(i & Hi & Hsk & E)]; [left; exact E|].
           right. exists i. split; [lia|]. split; assumption.
Qed.

End BoundFacts.

Section StepBoundResults.
Import StepLen BoundFacts.
Context `{Collaborators}.

(** X17: the bound [ret_alpha2] of [calMaxAlpha2_3] is the running minimum,
    started at [FLT_MAX], of the step lengths
    [(tmpv - vel[i]) / |grad[i]|] over the cells whose gradient is not below
    [1e-10] in magnitude: it is at most each of them, it is one of them or
    [FLT_MAX], and it stays [FLT_MAX] when every gradient is that small. *)
Theorem calMaxAlpha2_3_is_least_bound (exvel : Velocity) (grad : list Q) (dt dx maxdv : Q) :
  let n := Z.to_nat (vnx exvel * vnz exvel) in
  let ret_alpha2 := fst (calMaxAlpha2_3 exvel grad dt dx maxdv) in
  ret_alpha2 <= FLT_MAX
  /\ (forall i, (i < n)%nat -> negligible grad i = false ->
        ret_alpha2 <= step_bound exvel grad dt dx maxdv i)
  /\ (ret_alpha2 = FLT_MAX \/
      exists i, (i < n)%nat /\ negligible grad i = false /\
                ret_alpha2 = step_bound exvel grad dt dx maxdv i)
  /\ ((forall i, (i < n)%nat -> negligible grad i = true) -> ret_alpha2 = FLT_MAX).
Proof.
  intros n ret_alpha2.
  pose proof (running_min (negligible grad) (step_bound exvel grad dt dx maxdv) FLT_MAX n)
    as Hmin.
  cbv zeta in Hmin.
  change (for_upto n _ FLT_MAX) with ret_alpha2 in Hmin.
  destruct Hmin as (Hle & Hlow & Hatt).
  split; [exact Hle|]. split; [exact Hlow|]. split; [exact Hatt|].
  intros Hall. destruct Hatt as [E|(i & Hi & Hsk & _)]; [exact E|].
  rewrite (Hall i Hi) in Hsk. discriminate.
Qed.

End StepBoundResults.

Module SearchFacts.
Import StepLen SelectFacts ReturnFacts.

Section Search.
Context `{Collaborators}.
Variables (fmVel : Velocity) (allSrcPos allGeoPos : ShotPosition).
Variables (encsrc encobs grad : list Q) (nt : Z).
Variables (obj_val1 vmin vmax maxAlpha3 : Q).
Variable (alpha2 : Q).
Hypothesis bounds : vmin < vmax.

Abbreviation misfit := (misfit fmVel allSrcPos allGeoPos encsrc encobs grad nt vmin vmax).
Abbreviation objective :=
  (objective fmVel allSrcPos allGeoPos encsrc encobs grad nt vmin vmax).
Abbreviation halving :=
  (halving fmVel allSrcPos allGeoPos encsrc encobs grad nt obj_val1 vmin vmax).
Abbreviation doubling :=
  (doubling fmVel allSrcPos allGeoPos encsrc encobs grad nt obj_val1 vmin vmax maxAlpha3).
Abbreviation candidate := (candidate alpha2).

Abbreviation bracket :=
  (bracket fmVel allSrcPos allGeoPos encsrc encobs grad nt vmin vmax).

Lemma candidate_S (k : nat) : candidate (S k) = candidate k / 2.
Proof. reflexivity. Qed.

Lemma candidate_positive (k : nat) : 0 < alpha2 -> 0 < candidate k.
Proof.
  intros Ha. induction k as [|k IH]; [exact Ha|].
  rewrite candidate_S. apply Qlt_shift_div_l; lra.
Qed.

Lemma candidate_decreases (k : nat) : 0 < alpha2 -> candidate (S k) < candidate k.
Proof.
  intros Ha. pose proof (candidate_positive k Ha) as Hk. rewrite candidate_S.
  apply Qlt_shift_div_r; lra.
Qed.

Lemma halving_trace (left k : nat) (t : tuning) :
  t_alpha2 t = candidate k -> t_obj_val2 t = objective (candidate k) ->
  exists n t',
    halving left t = Done t' /\
    (k <= n <= k + left)%nat /\
    t_alpha2 t' = candidate n /\ t_obj_val2 t' = objective (candidate n) /\
    (n = k -> t_alpha3 t' = t_alpha3 t /\ t_obj_val3 t' = t_obj_val3 t) /\
    ((k < n)%nat ->
       t_alpha3 t' = candidate (n - 1) /\ t_obj_val3 t' = objective (candidate (n - 1))) /\
    (forall j, (k <= j < n)%nat -> obj_val1 < objective (candidate j)) /\
    ((n < k + left)%nat -> objective (candidate n) <= obj_val1).
Proof.
  revert k t. induction left as [|left IH]; intros k t Ha Ho.
  - exists k, t. split; [reflexivity|]. split; [lia|]. split; [exact Ha|].
    split; [exact Ho|]. split; [intros _; split; reflexivity|].
    split; [intros Hlt; lia|]. split; [intros j Hj; lia | intros Hlt; lia].
  - rewrite (halving_S fmVel allSrcPos allGeoPos encsrc encobs grad nt obj_val1 vmin vmax).
    destruct (Qltb obj_val1 (t_obj_val2 t)) eqn:E.
    + rewrite (misfit_done fmVel allSrcPos allGeoPos encsrc encobs grad nt vmin vmax bounds).
      cbn [mbind outcome_bind].
      assert (Hc : t_alpha2 t / 2 = candidate (S k)) by (rewrite Ha; reflexivity).
      rewrite Hc.
      destruct (IH (S k)
                  (mkTuning (candidate (S k)) (objective (candidate (S k)))
                     (t_alpha2 t) (t_obj_val2 t)
                     (set_insert parabolicLessComp
                        (candidate (S k), objective (candidate (S k))) (tunedAlpha t))))
        as (n & t' & Hrun & Hn & Ha' & Ho' & Hsame & Hprev & Hbig & Hstop);
        [reflexivity | reflexivity |].
      exists n, t'. split; [exact Hrun|]. split; [lia|].
      split; [exact Ha'|]. split; [exact Ho'|].
      split; [intros Hnk; lia|]. split; [|split].
      * intros _. destruct (decide (n = S k)) as [->|Hne].
        -- destruct (Hsame eq_refl) as [E3 E4]. cbn [t_alpha3 t_obj_val3] in E3, E4.
           replace (S k - 1)%nat with k by lia. rewrite E3, E4, Ha, Ho.
           split; reflexivity.
        -- apply Hprev. lia.
      * intros j Hj. destruct (decide (j = k)) as [->|Hne].
        -- apply Qltb_lt in E. rewrite <- Ho. exact E.
        -- apply Hbig. lia.
      * intros Hlt. apply Hstop. lia.
    + exists k, t. split; [reflexivity|]. split; [lia|]. split; [exact Ha|].
      split; [exact Ho|]. split; [intros _; split; reflexivity|].
      split; [intros Hlt; lia|]. split; [intros j Hj; lia|].
      intros _. apply Qltb_ge in E. rewrite <- Ho. exact E.
Qed.

Lemma doubling_keeps (fuel : nat) (lin : Q) (t t' : tuning) :
  bracket t -> t_obj_val2 t <= obj_val1 ->
  doubling fuel lin t = Done t' ->
  bracket t' /\ t_obj_val2 t' <= obj_val1 /\
  ((t_alpha2 t' = t_alpha2 t /\ t_obj_val2 t' = t_obj_val2 t /\
    t_alpha3 t' = t_alpha3 t /\ t_obj_val3 t' = t_obj_val3 t /\
    tunedAlpha t' = tunedAlpha t)
   \/ t_alpha3 t' <= maxAlpha3).
Proof.
  revert t. induction fuel as [|fuel IH]; intros t Hb Ho;
    rewrite (doubling_eq fmVel allSrcPos allGeoPos encsrc encobs grad nt obj_val1
               vmin vmax maxAlpha3).
  - destruct (_ && _ && _); [discriminate|]. intros [= <-].
    split; [exact Hb|]. split; [exact Ho|]. left. repeat split; reflexivity.
  - destruct (Qltb (t_obj_val3 t) lin) eqn:E1; cbn [andb].
    2:{ intros [= <-]. split; [exact Hb|]. split; [exact Ho|].
        left. repeat split; reflexivity. }
    destruct (Qltb (t_obj_val3 t) obj_val1) eqn:E2; cbn [andb].
    2:{ intros [= <-]. split; [exact Hb|]. split; [exact Ho|].
        left. repeat split; reflexivity. }
    destruct (Qltb (t_alpha3 t) maxAlpha3) eqn:E3.
    2:{ intros [= <-]. split; [exact Hb|]. split; [exact Ho|].
        left. repeat split; reflexivity. }
    rewrite (misfit_done fmVel allSrcPos allGeoPos encsrc encobs grad nt vmin vmax bounds).
    cbn [mbind outcome_bind]. intros Hrun.
    apply Qltb_lt in E2, E3. destruct Hb as (Hp & Hlt & Hv2 & Hv3).
    assert (Hmin : t_alpha3 t < std_min (t_alpha3 t * 2) maxAlpha3
                   /\ std_min (t_alpha3 t * 2) maxAlpha3 <= maxAlpha3).
    { split; [|apply std_min_le_r].
      unfold std_min. destruct (Qltb maxAlpha3 (t_alpha3 t * 2)); lra. }
    apply IH in Hrun.
    + destruct Hrun as (Hb' & Ho' & Hend). split; [exact Hb'|]. split; [exact Ho'|].
      right. destruct Hend as [(_ & _ & E & _)|Hle]; [|exact Hle].
      rewrite E. cbn [t_alpha3]. apply Hmin.
    + unfold bracket. cbn [t_alpha2 t_alpha3 t_obj_val2 t_obj_val3].
      split; [lra|]. split; [apply Hmin|]. split; [exact Hv3 | reflexivity].
    + cbn [t_obj_val2]. lra.
Qed.

End Search.

End SearchFacts.

Section SearchResults.
Import StepLen SelectFacts ReturnFacts SearchFacts.
Context `{Collaborators}.
Variables (fmVel : Velocity) (allSrcPos allGeoPos : ShotPosition).
Variables (encsrc encobs grad : list Q) (nt : Z).
Variables (obj_val1 vmin vmax maxAlpha3 : Q).
Variables (fuel : nat) (alpha2 alpha3 : Q).

Abbreviation misfit_at :=
  (objective fmVel allSrcPos allGeoPos encsrc encobs grad nt vmin vmax).
Abbreviation halved := (candidate alpha2).
Abbreviation search :=
  (selectAlpha fmVel allSrcPos allGeoPos encsrc encobs grad nt obj_val1 vmin vmax
     maxAlpha3 fuel alpha2 alpha3).

(** What [selectAlpha] has after its first loop. *)
Lemma after_halving :
  vmin < vmax -> 0 < alpha2 -> alpha2 < alpha3 ->
  exists n t,
    halving fmVel allSrcPos allGeoPos encsrc encobs grad nt obj_val1 vmin vmax
      max_iter_select_alpha3
      (mkTuning alpha2 (misfit_at alpha2) alpha3 (misfit_at alpha3)
         (set_insert parabolicLessComp (alpha2, misfit_at alpha2) Nil)) = Done t /\
    (n <= 5)%nat /\
    bracket fmVel allSrcPos allGeoPos encsrc encobs grad nt vmin vmax t /\
    t_alpha2 t = halved n /\
    (t_alpha3 t = alpha3 \/ exists j, (j < 5)%nat /\ t_alpha3 t = halved j) /\
    (n = 5%nat -> t_alpha3 t = halved 4 /\ t_obj_val3 t = misfit_at (halved 4)) /\
    (forall j, (j < n)%nat -> obj_val1 < misfit_at (halved j)) /\
    ((n < 5)%nat -> misfit_at (halved n) <= obj_val1).
Proof.
  intros Hb H2 H3.
  destruct (halving_trace fmVel allSrcPos allGeoPos encsrc encobs grad nt obj_val1
              vmin vmax alpha2 Hb max_iter_select_alpha3 0
              (mkTuning alpha2 (misfit_at alpha2) alpha3 (misfit_at alpha3)
                 (set_insert parabolicLessComp (alpha2, misfit_at alpha2) Nil)))
    as (n & t & Hrun & Hn & Ha & Ho & Hsame & Hprev & Hbig & Hstop);
    [reflexivity | reflexivity |].
  unfold max_iter_select_alpha3 in Hn, Hstop.
  exists n, t. split; [exact Hrun|]. split; [lia|].
  assert (Hbr : bracket fmVel allSrcPos allGeoPos encsrc encobs grad nt vmin vmax t
                /\ (t_alpha3 t = alpha3 \/ exists j, (j < 5)%nat /\ t_alpha3 t = halved j)).
  { unfold bracket. rewrite Ha, Ho.
    destruct (decide (n = 0%nat)) as [->|Hpos].
    - destruct (Hsame eq_refl) as [E3 E4]. cbn [t_alpha3 t_obj_val3] in E3, E4.
      rewrite E3, E4. split; [|left; reflexivity].
      split; [exact H2|]. split; [exact H3|]. split; reflexivity.
    - destruct (Hprev ltac:(lia)) as [E3 E4]. rewrite E3, E4.
      split; [|right; exists (n - 1)%nat; split; [lia | reflexivity]].
      split; [apply candidate_positive; exact H2|]. split; [|split; reflexivity].
      replace n with (S (n - 1)) at 1 by lia. apply candidate_decreases. exact H2. }
  split; [apply Hbr|]. split; [exact Ha|]. split; [apply Hbr|]. split; [|split].
  - intros ->. apply Hprev. lia.
  - intros j Hj. apply Hbig. lia.
  - intros Hlt. apply Hstop. lia.
Qed.

(** X18: started from [0 < alpha2 < alpha3] with bounds [vmin < vmax], a
    search that asks for the parabolic fit returns a bracket: step lengths
    [0 < alpha2 < alpha3 <= maxAlpha3 + 0.1], each with the misfit evaluated
    at it, and a misfit at [alpha2] that is not above [obj_val1]; the three
    abscissae [0], [alpha2], [alpha3] of the fit are therefore distinct and
    the denominator of [calcParabolaVertex] does not vanish. *)
Theorem selectAlpha_returns_bracket (r : selected) :
  vmin < vmax -> 0 < alpha2 -> alpha2 < alpha3 ->
  search = Done r -> toParabolicFit r = true ->
  0 < r_alpha2 r /\ r_alpha2 r < r_alpha3 r /\ r_alpha3 r <= maxAlpha3 + 0.1
  /\ r_obj_val2 r = misfit_at (r_alpha2 r) /\ r_obj_val3 r = misfit_at (r_alpha3 r)
  /\ r_obj_val2 r <= obj_val1
  /\ (0 - r_alpha2 r) * (0 - r_alpha3 r) * (r_alpha2 r - r_alpha3 r) < 0.
Proof.
  intros Hb H2 H3.
  destruct (after_halving Hb H2 H3) as (n & t & Hrun & Hn & Hbr & Ha & _ & _ & Hbig & Hstop).
  unfold selectAlpha.
  rewrite !(misfit_done fmVel allSrcPos allGeoPos encsrc encobs grad nt vmin vmax Hb).
  cbn [mbind outcome_bind]. rewrite Hrun. cbn [mbind outcome_bind].
  destruct (Qltb obj_val1 (t_obj_val2 t)) eqn:E.
  { rewrite (misfit_done fmVel allSrcPos allGeoPos encsrc encobs grad nt vmin vmax Hb).
    cbn [mbind outcome_bind mret outcome_ret]. intros [= <-]. discriminate. }
  apply Qltb_ge in E.
  destruct (doubling _ _ _ _ _ _ _ _ _ _ _ _ _ _) as [t'| |] eqn:Ed;
    cbn [mbind outcome_bind]; try discriminate.
  apply (doubling_keeps fmVel allSrcPos allGeoPos encsrc encobs grad nt obj_val1
           vmin vmax maxAlpha3 Hb) in Ed; [|exact Hbr | exact E].
  destruct Ed as ((Hp & Hlt & Hv2 & Hv3) & Ho & _).
  destruct (Qltb (maxAlpha3 + 0.1) (t_alpha3 t')) eqn:Ecap.
  { rewrite (misfit_done fmVel allSrcPos allGeoPos encsrc encobs grad nt vmin vmax Hb).
    cbn [mbind outcome_bind mret outcome_ret]. intros [= <-]. discriminate. }
  apply Qltb_ge in Ecap. cbn [mret outcome_ret]. intros [= <-] _.
  cbn [r_alpha2 r_alpha3 r_obj_val2 r_obj_val3].
  split; [exact Hp|]. split; [exact Hlt|]. split; [exact Ecap|].
  split; [exact Hv2|]. split; [exact Hv3|]. split; [exact Ho|].
  set (x2 := t_alpha2 t') in *. set (x3 := t_alpha3 t') in *.
  assert (Hprod : 0 < x2 * x3 * (x3 - x2)).
  { apply Qmult_lt_0_compat; [apply Qmult_lt_0_compat|]; lra. }
  assert (Hring : (0 - x2) * (0 - x3) * (x2 - x3) == - (x2 * x3 * (x3 - x2))) by ring.
  rewrite Hring. lra.
Qed.

(** X19: the branch "unable to tune alpha3 by doubling" is taken only when
    the doubling loop has not run at all: a search that gives up although
    one of the six halved candidates brought the misfit down to [obj_val1]
    returns the [alpha3] it had after the halving, which exceeds
    [maxAlpha3 + 0.1], with its misfit, and [alpha2 = alpha3 / 2]; started
    with [alpha3 <= maxAlpha3 + 0.1] such a search always asks for the fit. *)
Theorem selectAlpha_gives_up_without_doubling (r : selected) (j : nat) :
  vmin < vmax -> 0 < alpha2 -> alpha2 < alpha3 ->
  (j <= 5)%nat -> misfit_at (halved j) <= obj_val1 ->
  search = Done r ->
  (toParabolicFit r = false ->
     maxAlpha3 + 0.1 < r_alpha3 r
     /\ (r_alpha3 r = alpha3 \/ exists i, (i < 5)%nat /\ r_alpha3 r = halved i)
     /\ r_obj_val3 r = misfit_at (r_alpha3 r)
     /\ r_alpha2 r = r_alpha3 r / 2)
  /\ (alpha3 <= maxAlpha3 + 0.1 -> toParabolicFit r = true).
Proof.
  intros Hb H2 H3 Hj Hgood.
  destruct (after_halving Hb H2 H3)
    as (n & t & Hrun & Hn & Hbr & Ha & Hfrom & _ & Hbig & Hstop).
  assert (Hn5 : misfit_at (halved n) <= obj_val1).
  { destruct (decide (n < 5)%nat) as [Hlt|Hge]; [apply Hstop; exact Hlt|].
    destruct (decide (j = n)) as [->|Hne]; [exact Hgood|].
    specialize (Hbig j ltac:(lia)). lra. }
  unfold selectAlpha.
  rewrite !(misfit_done fmVel allSrcPos allGeoPos encsrc encobs grad nt vmin vmax Hb).
  cbn [mbind outcome_bind]. rewrite Hrun. cbn [mbind outcome_bind].
  pose proof Hbr as (Hp & Hlt & Hv2 & Hv3).
  assert (E : Qltb obj_val1 (t_obj_val2 t) = false).
  { apply Qltb_ge. rewrite Hv2, Ha. exact Hn5. }
  rewrite E.
  destruct (doubling _ _ _ _ _ _ _ _ _ _ _ _ _ _) as [t'| |] eqn:Ed;
    cbn [mbind outcome_bind]; try discriminate.
  apply (doubling_keeps fmVel allSrcPos allGeoPos encsrc encobs grad nt obj_val1
           vmin vmax maxAlpha3 Hb) in Ed;
    [|exact Hbr | apply Qltb_ge; exact E].
  cbn [t_alpha2 t_alpha3 t_obj_val2 t_obj_val3 tunedAlpha] in Ed.
  destruct Ed as (_ & _ & Hend).
  assert (Hsmall : forall i, (i < 5)%nat -> halved i < alpha3).
  { intros i _. apply Qle_lt_trans with alpha2; [|exact H3].
    clear -H2. induction i as [|i IH]; [apply Qle_refl|].
    pose proof (candidate_decreases alpha2 i H2). lra. }
  destruct (Qltb (maxAlpha3 + 0.1) (t_alpha3 t')) eqn:Ecap.
  - rewrite (misfit_done fmVel allSrcPos allGeoPos encsrc encobs grad nt vmin vmax Hb).
    cbn [mbind outcome_bind mret outcome_ret]. intros [= <-].
    cbn [toParabolicFit r_alpha2 r_alpha3 r_obj_val2 r_obj_val3].
    apply Qltb_lt in Ecap.
    destruct Hend as [(_ & _ & E3 & E4 & Eset)|Hle]; [|lra].
    rewrite Eset. cbn [set_insert set_begin hd fst snd].
    rewrite E3 in Ecap. split.
    + intros _. split; [exact Ecap|]. split; [exact Hfrom|].
      split; [exact Hv3 | reflexivity].
    + intros Hcap. exfalso.
      destruct Hfrom as [E0|(i & Hi & E0)]; rewrite E0 in Ecap; [lra|].
      specialize (Hsmall i Hi). lra.
  - cbn [mret outcome_ret]. intros [= <-]. cbn [toParabolicFit].
    split; [discriminate | reflexivity].
Qed.

(** X20: when none of the six halved candidates brings the misfit down to
    [obj_val1], the search gives up with [toParabolicFit] false and returns
    [alpha3 = min(2 * alpha2, maxAlpha3)]; the misfit it returns with it is
    the one evaluated at the step length [alpha2] had before its last
    halving, not at the [alpha3] returned. *)
Theorem selectAlpha_fallback_reports_earlier_misfit :
  vmin < vmax -> 0 < alpha2 -> alpha2 < alpha3 ->
  (forall j, (j <= 5)%nat -> obj_val1 < misfit_at (halved j)) ->
  exists r,
    search = Done r /\ toParabolicFit r = false
    /\ r_alpha3 r = std_min (r_alpha2 r * 2) maxAlpha3
    /\ r_obj_val3 r = misfit_at (halved 4).
Proof.
  intros Hb H2 H3 Hall.
  destruct (after_halving Hb H2 H3)
    as (n & t & Hrun & Hn & Hbr & Ha & _ & Hlast & Hbig & Hstop).
  assert (n = 5)%nat as ->.
  { destruct (decide (n < 5)%nat) as [Hlt|Hge]; [|lia].
    specialize (Hall n ltac:(lia)). specialize (Hstop Hlt). lra. }
  destruct (Hlast eq_refl) as [E3 E4].
  destruct Hbr as (_ & _ & Hv2 & _).
  unfold selectAlpha.
  rewrite !(misfit_done fmVel allSrcPos allGeoPos encsrc encobs grad nt vmin vmax Hb).
  cbn [mbind outcome_bind]. rewrite Hrun. cbn [mbind outcome_bind].
  assert (E : Qltb obj_val1 (t_obj_val2 t) = true).
  { apply Qltb_lt. rewrite Hv2, Ha. apply Hall. lia. }
  rewrite E.
  rewrite (misfit_done fmVel allSrcPos allGeoPos encsrc encobs grad nt vmin vmax Hb).
  cbn [mbind outcome_bind mret outcome_ret].
  eexists. split; [reflexivity|].
  cbn [toParabolicFit r_alpha2 r_alpha3 r_obj_val3].
  split; [reflexivity|]. split; [reflexivity|]. rewrite E3. reflexivity.
Qed.

End SearchResults.

Section SearchExamples.
Import StepLen SelectFacts.

Lemma selectAlpha_returns_bracket_witness :
  let C := Sample.collaborators 30 in
  let misfit_at :=
    @objective C (Sample.one_cell 16) Sample.one_point Sample.one_point
      [0] [30] [1] 1 4 40 in
  exists r,
    @selectAlpha C (Sample.one_cell 16) Sample.one_point Sample.one_point
      [0] [30] [1] 1 196 4 40 20 8 4 8 = Done r
    /\ toParabolicFit r = true
    /\ 0 < r_alpha2 r /\ r_alpha2 r < r_alpha3 r /\ r_alpha3 r <= 20 + 0.1
    /\ r_obj_val2 r = misfit_at (r_alpha2 r) /\ r_obj_val3 r = misfit_at (r_alpha3 r)
    /\ r_obj_val2 r <= 196
    /\ (0 - r_alpha2 r) * (0 - r_alpha3 r) * (r_alpha2 r - r_alpha3 r) < 0.
Proof.
  intros C misfit_at.
  match goal with
  | |- exists r, ?run = Done r /\ _ =>
      let v := eval vm_compute in run in
      match v with Done ?r => exists r end
  end.
  split; [vm_compute; reflexivity|]. split; [reflexivity|].
  apply (@selectAlpha_returns_bracket C (Sample.one_cell 16) Sample.one_point
           Sample.one_point [0] [30] [1] 1 196 4 40 20 8 4 8);
    [reflexivity | reflexivity | reflexivity | vm_compute; reflexivity | reflexivity].
Defined.

Lemma selectAlpha_gives_up_without_doubling_witness :
  let C := Sample.collaborators 30 in
  let misfit_at :=
    @objective C (Sample.one_cell 16) Sample.one_point Sample.one_point
      [0] [30] [1] 1 4 40 in
  exists r,
    @selectAlpha C (Sample.one_cell 16) Sample.one_point Sample.one_point
      [0] [30] [1] 1 196 4 40 5 8 4 8 = Done r
    /\ toParabolicFit r = false
    /\ (toParabolicFit r = false ->
          5 + 0.1 < r_alpha3 r
          /\ (r_alpha3 r = 8 \/ exists i, (i < 5)%nat /\ r_alpha3 r = candidate 4 i)
          /\ r_obj_val3 r = misfit_at (r_alpha3 r)
          /\ r_alpha2 r = r_alpha3 r / 2)
    /\ (8 <= 5 + 0.1 -> toParabolicFit r = true).
Proof.
  intros C misfit_at.
  match goal with
  | |- exists r, ?run = Done r /\ _ =>
      let v := eval vm_compute in run in
      match v with Done ?r => exists r end
  end.
  split; [vm_compute; reflexivity|]. split; [reflexivity|].
  apply (@selectAlpha_gives_up_without_doubling C (Sample.one_cell 16) Sample.one_point
           Sample.one_point [0] [30] [1] 1 196 4 40 5 8 4 8 _ 0%nat);
    [reflexivity | reflexivity | reflexivity | lia | vm_compute; discriminate
    | vm_compute; reflexivity].
Defined.

Lemma selectAlpha_fallback_reports_earlier_misfit_witness :
  let C := Sample.collaborators (-(1)) in
  let misfit_at :=
    @objective C (Sample.one_cell 0) Sample.one_point Sample.one_point
      [0] [-(1)] [1] 1 (-(2)) 3 in
  exists r,
    @selectAlpha C (Sample.one_cell 0) Sample.one_point Sample.one_point
      [0] [-(1)] [1] 1 1 (-(2)) 3 4 0 1 2 = Done r
    /\ toParabolicFit r = false
    /\ r_alpha3 r = std_min (r_alpha2 r * 2) 4
    /\ r_obj_val3 r = misfit_at (candidate 1 4).
Proof.
  intros C misfit_at.
  apply (@selectAlpha_fallback_reports_earlier_misfit C (Sample.one_cell 0)
           Sample.one_point Sample.one_point [0] [-(1)] [1] 1 1 (-(2)) 3 4 0 1 2);
    [reflexivity | reflexivity | reflexivity |].
  intros j Hj. do 6 (destruct j as [|j]; [vm_compute; reflexivity|]). lia.
Defined.

End SearchExamples.

(** ** The loop of [main] *)

Module DriverMoreFacts.
Import Direction DirectionFacts StepLen UpdateVel.

Lemma fresh_direction (pre g1 : list Q) (iter : Z) :
  length g1 = length pre ->
  let r := prevCurrCorrDirection pre g1 (replicate (length pre) 0)
             (Z.of_nat (length pre)) iter in
  fst r = g1 /\ Forall2 Qeq (snd r) g1.
Proof.
  intros Hlen r. subst r. unfold prevCurrCorrDirection. rewrite Nat2Z.id.
  destruct (iter =? 0)%Z.
  - cbn [fst snd]. rewrite !std_copy_all by (rewrite ?length_replicate; lia).
    split; [reflexivity|]. apply Forall2_same_length_lookup_2; [reflexivity|].
    intros i x y Hx Hy. rewrite Hy in Hx. injection Hx as <-. reflexivity.
  - destruct (for_upto _ (sums_body pre g1) _) as [[a b] c]. cbn [fst snd].
    split; [apply std_copy_all; lia|].
    apply Forall2_same_length_lookup_2.
    { rewrite direction_loop_length, length_replicate. lia. }
    intros i x y Hx Hy. pose proof (lookup_lt_Some _ _ _ Hy) as Hi.
    rewrite (direction_loop_lookup g1 _ _ _ i y 0) in Hx.
    + injection Hx as <-. ring.
    + lia.
    + exact Hy.
    + apply lookup_replicate_2. lia.
Qed.

Section Parts.
Context `{Collaborators}.

Lemma main_iteration_parts fuel allSrcPos allGeoPos nt dt dx fm iter s s' :
  main_iteration fuel allSrcPos allGeoPos nt dt dx fm iter s = Done s' ->
  let pc := prevCurrCorrDirection (g0 s) (gradient_of iter (exvel s))
              (replicate (Z.to_nat (vnx (exvel s) * vnz (exvel s))) 0)
              (Z.of_nat (length (g0 s))) iter in
  exists steplen updated,
    update_vel_inplace (snd pc) (float_of_Z (Z.of_nat (length (dat (exvel s))))) steplen
      ((dx / dt / vmax) * (dx / dt / vmax)) ((dx / dt / vmin) * (dx / dt / vmin))
      (dat (exvel s)) = Done updated /\
    g0 s' = fst pc /\
    dat (exvel s')
    = refillBoundary (mkVelocity updated (vnx (exvel s)) (vnz (exvel s))) updated.
Proof.
  unfold main_iteration.
  destruct (prevCurrCorrDirection _ _ _ _ _) as [g0' dir]. cbn [fst snd].
  destruct (calStepLen _ _ _ _ _ _ _ _ _ _ _ _ _ _ _ _ _) as [[[steplen o4] st]| |];
    simpl; try discriminate.
  destruct (update_vel_inplace _ _ _ _ _ _) as [dat'| |] eqn:E; simpl; try discriminate.
  intros [= <-]. exists steplen, dat'. split; [exact E|]. split; reflexivity.
Qed.

End Parts.

End DriverMoreFacts.

Section DriverResults.
Import Direction StepLen UpdateVel DriverMoreFacts.
Context `{Collaborators}.

(** X21: [main] hands [prevCurrCorrDirection] a freshly zeroed
    [updateDirection] on every pass of its loop.  On the first pass, and on
    every later pass whose previous gradient [g0] is not zero everywhere (so
    that the divisor of [beta] does not vanish and [beta] is a number), the
    direction that comes back is therefore the current gradient: the pass
    updates the model along [g1] itself, and keeps [g1] as [g0] for the next
    pass. *)
Theorem main_steps_along_current_gradient
    (fuel : nat) (allSrcPos allGeoPos : ShotPosition) (nt : Z) (dt dx fm : Q)
    (iter : Z) (s s' : driver) :
  let g1 := gradient_of iter (exvel s) in
  (iter = 0)%Z \/ Exists (fun x => ~ x == 0) (g0 s) ->
  length (g0 s) = Z.to_nat (vnx (exvel s) * vnz (exvel s)) ->
  length g1 = Z.to_nat (vnx (exvel s) * vnz (exvel s)) ->
  main_iteration fuel allSrcPos allGeoPos nt dt dx fm iter s = Done s' ->
  g0 s' = g1 /\
  exists updateDirection steplen updated,
    Forall2 Qeq updateDirection g1 /\
    update_vel_inplace updateDirection (float_of_Z (Z.of_nat (length (dat (exvel s)))))
      steplen ((dx / dt / vmax) * (dx / dt / vmax)) ((dx / dt / vmin) * (dx / dt / vmin))
      (dat (exvel s)) = Done updated /\
    dat (exvel s')
    = refillBoundary (mkVelocity updated (vnx (exvel s)) (vnz (exvel s))) updated.
Proof.
  intros g1 _ Hg0 Hg1 Hrun.
  destruct (main_iteration_parts _ _ _ _ _ _ _ _ _ _ Hrun)
    as (steplen & updated & Hup & Hpre & Hdat).
  rewrite <- Hg0 in Hup, Hpre.
  destruct (fresh_direction (g0 s) g1 iter ltac:(lia)) as [Hfst Hsnd].
  split; [rewrite Hpre; exact Hfst|].
  eexists _, steplen, updated. split; [exact Hsnd|]. split; [exact Hup | exact Hdat].
Qed.

End DriverResults.

Section DriverExamples.
Import Direction StepLen UpdateVel DriverMoreFacts.

Lemma main_steps_along_current_gradient_witness :
  let C := Sample.collaborators 20 in
  let s := mkDriver (Sample.one_cell 16) [5] (mkPreservedAlpha ∅ ∅) in
  exists s',
    @main_iteration C 8 Sample.one_point Sample.one_point 1 0.001 10 10 3 s = Done s' /\
    g0 s' = [1] /\
    exists updateDirection steplen updated,
      Forall2 Qeq updateDirection [1] /\
      update_vel_inplace updateDirection (float_of_Z (Z.of_nat (length (dat (exvel s)))))
        steplen ((10 / 0.001 / vmax) * (10 / 0.001 / vmax))
        ((10 / 0.001 / vmin) * (10 / 0.001 / vmin)) (dat (exvel s)) = Done updated /\
      dat (exvel s')
      = @refillBoundary C (mkVelocity updated (vnx (exvel s)) (vnz (exvel s))) updated.
Proof.
  intros C s.
  match goal with
  | |- exists s', ?run = Done s' /\ _ =>
      let v := eval vm_compute in run in
      match v with Done ?r => exists r end
  end.
  split; [vm_compute; reflexivity|].
  refine (@main_steps_along_current_gradient C 8 Sample.one_point Sample.one_point 1
            0.001 10 10 3 s _ _ _ _ _).
  - right. constructor. vm_compute. discriminate.
  - reflexivity.
  - reflexivity.
  - vm_compute. reflexivity.
Defined.

End DriverExamples.

(** ** Distribution and validation of the shots *)

Module TaskFacts.
Import BornTasks.

Lemma k_of_bounds (ns np : Z) :
  (0 < np)%Z -> (ns <= k_of ns np * np /\ (k_of ns np - 1) * np < ns)%Z.
Proof.
  intros Hnp. unfold k_of. set (x := inject_Z ns * 1.0 / inject_Z np).
  assert (Hq : 0 < inject_Z np) by (change 0 with (inject_Z 0); rewrite <- Zlt_Qlt; lia).
  assert (Hx : inject_Z ns == x * inject_Z np) by (unfold x; field; lra).
  pose proof (Qle_ceiling x) as Hup. pose proof (Qceiling_lt x) as Hlow.
  split.
  - rewrite Zle_Qle, inject_Z_mult, Hx. apply Qmult_le_compat_r; lra.
  - rewrite Zlt_Qlt, inject_Z_mult, Hx. apply Qmult_lt_compat_r; lra.
Qed.

(** With [np] processes, [ns] shots and vectors of a size that an [int]
    holds, the [int] expressions of the distribution do not wrap around. *)
Section NoWrap.
Variables (ns np nt ng : Z).
Hypothesis Hnp : (0 < np)%Z.
Hypothesis Hns : (0 <= ns)%Z.
Hypothesis Hnt : (0 < nt)%Z.
Hypothesis Hng : (0 < ng)%Z.
Hypothesis Hsize : ((ns + np) * nt * ng < 2 ^ 31)%Z.

Lemma k_of_range : (0 <= k_of ns np /\ k_of ns np * np < ns + np)%Z.
Proof. destruct (k_of_bounds ns np Hnp) as [Hup Hlow]. nia. Qed.

Lemma total_fits : (ns + np <= (ns + np) * nt /\ (ns + np) * nt < 2 ^ 31)%Z.
Proof.
  assert (H1 : ((ns + np) * 1 <= (ns + np) * nt)%Z)
    by (apply Z.mul_le_mono_nonneg_l; lia).
  assert (H2 : ((ns + np) * nt * 1 <= (ns + np) * nt * ng)%Z)
    by (apply Z.mul_le_mono_nonneg_l; lia).
  lia.
Qed.

Lemma first_shot (rank : Z) :
  (0 <= rank < np)%Z -> int_mul rank (k_of ns np) = (rank * k_of ns np)%Z.
Proof.
  intros Hr. destruct k_of_range as [Hk0 Hk]. pose proof total_fits.
  unfold int_mul. apply int32_fits. nia.
Qed.

Lemma ntask_of_min (rank : Z) :
  (0 <= rank < np)%Z ->
  ntask_of ns np rank = Z.min (k_of ns np) (ns - rank * k_of ns np).
Proof.
  intros Hr. destruct k_of_range as [Hk0 Hk]. pose proof total_fits.
  unfold ntask_of. cbv zeta. rewrite (first_shot rank Hr).
  unfold int_sub. rewrite int32_fits by nia.
  destruct (Z.ltb_spec (ns - rank * k_of ns np) (k_of ns np)); lia.
Qed.

Lemma elem_of_shots_of (rank shot : Z) :
  (0 <= rank < np)%Z ->
  shot ∈ shots_of ns np rank <->
  (rank * k_of ns np <= shot < rank * k_of ns np + ntask_of ns np rank)%Z.
Proof.
  intros Hr. destruct k_of_range as [Hk0 Hk]. pose proof total_fits.
  pose proof (ntask_of_min rank Hr) as Hmin.
  unfold shots_of. cbv zeta. rewrite (first_shot rank Hr).
  unfold int_add. rewrite int32_fits by nia.
  rewrite elem_of_seqZ. lia.
Qed.

Lemma trans_cells_ntask (rank : Z) :
  (0 <= rank < np)%Z ->
  trans_cells (ntask_of ns np rank) nt ng = None <-> (ntask_of ns np rank < 0)%Z.
Proof.
  intros Hr. destruct k_of_range as [Hk0 Hk].
  pose proof (ntask_of_min rank Hr) as Hmin.
  set (ntask := ntask_of ns np rank) in *.
  assert (Hbound : (- (ns + np) <= ntask <= ns + np)%Z) by nia.
  assert (Hnt' : (- ((ns + np) * nt) <= ntask * nt <= (ns + np) * nt)%Z) by nia.
  assert (Hng' : (- ((ns + np) * nt * ng) <= ntask * nt * ng <= (ns + np) * nt * ng)%Z)
    by nia.
  assert (Hnt1 : ((ns + np) * nt <= (ns + np) * nt * ng)%Z) by nia.
  unfold trans_cells, int_mul. cbv zeta.
  rewrite (int32_fits (ntask * nt)) by lia.
  rewrite (int32_fits (ntask * nt * ng)) by lia.
  destruct (Z.ltb_spec (ntask * nt * ng) 0) as [Hneg|Hpos].
  - split; [intros _; nia | reflexivity].
  - split; [discriminate | intros Hlt; nia].
Qed.

Lemma simulated_spec (rank : Z) :
  (0 <= rank < np)%Z ->
  simulated ns np nt ng rank
  = if (ns <? rank * k_of ns np)%Z then None else Some (shots_of ns np rank).
Proof.
  intros Hr. destruct k_of_range as [Hk0 Hk].
  pose proof (trans_cells_ntask rank Hr) as Ht.
  pose proof (ntask_of_min rank Hr) as Hmin.
  unfold simulated.
  destruct (trans_cells (ntask_of ns np rank) nt ng) as [cells|] eqn:E;
    destruct (Z.ltb_spec ns (rank * k_of ns np)) as [Hlt|Hge]; try reflexivity.
  - exfalso. assert (Hneg : (ntask_of ns np rank < 0)%Z) by lia.
    apply Ht in Hneg. discriminate.
  - exfalso. assert (Hneg : (ntask_of ns np rank < 0)%Z) by (apply Ht; reflexivity).
    lia.
Qed.

Lemma received_spec (shot : Z) :
  shot ∈ received ns np <-> (Z.min (k_of ns np) ns <= shot < ns)%Z.
Proof.
  destruct k_of_range as [Hk0 Hk]. pose proof total_fits.
  pose proof (ntask_of_min 0 ltac:(lia)) as Hmin.
  unfold received. cbv zeta. unfold int_add, int_mul.
  rewrite Z.mul_0_l, (int32_fits 0) by lia.
  rewrite int32_fits by lia.
  rewrite elem_of_seqZ, Hmin. lia.
Qed.

End NoWrap.

End TaskFacts.

Section TaskResults.
Import BornTasks TaskFacts.

(** X22: take [np >= 1] processes, [ns >= 0] shots, and [nt], [ng >= 1]
    with [(ns + np) * nt * ng] a number that an [int] holds.  A process
    whose first shot [rank * k] lies beyond [ns] has a negative [ntask]: it
    asks for a vector of negative size and is terminated before its shot
    loop.  Every other process reaches its loop.  When [(np - 1) * k <= ns]
    no process is lost, and the loops of the ranks [0 .. np - 1] share out
    the shots [0 .. ns - 1]: a rank only simulates shots below [ns], every
    shot [is] is simulated by exactly one rank, the rank [is / k] that rank
    0 expects to receive it from, and rank 0 receives the shots it does
    not simulate itself. *)
Theorem shots_are_shared_out (ns np nt ng : Z) :
  (0 < np)%Z -> (0 <= ns)%Z -> (0 < nt)%Z -> (0 < ng)%Z ->
  ((ns + np) * nt * ng < 2 ^ 31)%Z ->
  let k := k_of ns np in
  (forall rank, (0 <= rank < np)%Z ->
     ((ns < rank * k)%Z -> simulated ns np nt ng rank = None) /\
     ((rank * k <= ns)%Z -> simulated ns np nt ng rank = Some (shots_of ns np rank)))
  /\ (((np - 1) * k <= ns)%Z ->
       (forall rank, (0 <= rank < np)%Z ->
          simulated ns np nt ng rank = Some (shots_of ns np rank) /\
          forall shot, shot ∈ shots_of ns np rank -> (0 <= shot < ns)%Z)
       /\ (forall shot, (0 <= shot < ns)%Z ->
             let owner := sender_of ns np shot in
             (0 <= owner < np)%Z /\ shot ∈ shots_of ns np owner /\
             forall rank, (0 <= rank < np)%Z -> shot ∈ shots_of ns np rank ->
                          rank = owner)
       /\ (forall shot, shot ∈ received ns np <->
             (0 <= shot < ns)%Z /\ shot ∉ shots_of ns np 0)).
Proof.
  intros Hnp Hns Hnt Hng Hsize k.
  destruct (k_of_bounds ns np Hnp) as [Hup Hlow].
  destruct (k_of_range ns np Hnp Hns) as [Hk0 Hk]. fold k in Hup, Hlow, Hk0, Hk.
  assert (Hsim : forall rank, (0 <= rank < np)%Z ->
            simulated ns np nt ng rank
            = if (ns <? rank * k)%Z then None else Some (shots_of ns np rank)).
  { intros rank Hr. apply (simulated_spec ns np nt ng Hnp Hns Hnt Hng Hsize rank Hr). }
  assert (Hin : forall rank shot, (0 <= rank < np)%Z ->
            shot ∈ shots_of ns np rank <->
            (rank * k <= shot < rank * k + Z.min k (ns - rank * k))%Z).
  { intros rank shot Hr.
    rewrite (elem_of_shots_of ns np nt ng Hnp Hns Hnt Hng Hsize rank shot Hr).
    rewrite (ntask_of_min ns np nt ng Hnp Hns Hnt Hng Hsize rank Hr). reflexivity. }
  split.
  - intros rank Hr. rewrite (Hsim rank Hr).
    destruct (Z.ltb_spec ns (rank * k)); split; intros; first [reflexivity | lia].
  - intros Hall. split; [|split].
    + intros rank Hr. split.
      * rewrite (Hsim rank Hr).
        destruct (Z.ltb_spec ns (rank * k)); [nia | reflexivity].
      * intros shot Hs. apply (Hin rank shot Hr) in Hs. nia.
    + intros shot His owner. subst owner. unfold sender_of. fold k.
      assert (Hkpos : (0 < k)%Z) by nia.
      rewrite Z.quot_div_nonneg by lia.
      pose proof (Z.mul_div_le shot k Hkpos) as Hle.
      pose proof (Z.mul_succ_div_gt shot k Hkpos) as Hgt.
      assert (Hown : (0 <= shot / k < np)%Z).
      { split; [apply Z.div_pos; lia | nia]. }
      split; [exact Hown|]. split.
      * apply (Hin _ _ Hown). lia.
      * intros rank Hr Hs. apply (Hin rank shot Hr) in Hs.
        apply (Z.div_unique shot k rank (shot - rank * k)); lia.
    + intros shot.
      rewrite (received_spec ns np nt ng Hnp Hns Hnt Hng Hsize shot).
      rewrite (Hin 0%Z shot ltac:(lia)). lia.
Qed.

Lemma shots_are_shared_out_witness :
  (simulated 5 4 2 3 3 = None /\ simulated 5 4 2 3 2 = Some [4%Z])
  /\ (forall rank, (0 <= rank < 3)%Z ->
        simulated 5 3 2 3 rank = Some (shots_of 5 3 rank) /\
        forall shot, shot ∈ shots_of 5 3 rank -> (0 <= shot < 5)%Z)
  /\ (forall shot, (0 <= shot < 5)%Z ->
        let owner := sender_of 5 3 shot in
        (0 <= owner < 3)%Z /\ shot ∈ shots_of 5 3 owner /\
        forall rank, (0 <= rank < 3)%Z -> shot ∈ shots_of 5 3 rank -> rank = owner)
  /\ (forall shot, shot ∈ received 5 3 <-> (0 <= shot < 5)%Z /\ shot ∉ shots_of 5 3 0).
Proof.
  split.
  - destruct (shots_are_shared_out 5 4 2 3) as [Hlost _]; try lia.
    split.
    + apply (Hlost 3%Z); [lia | vm_compute; reflexivity].
    + rewrite (proj2 (Hlost 2%Z ltac:(lia))); [reflexivity | vm_compute; discriminate].
  - destruct (shots_are_shared_out 5 3 2 3) as [_ Hshare]; try lia.
    apply Hshare. vm_compute. discriminate.
Defined.

End TaskResults.

Section CheckResults.
Import Born BornFacts.

(** X23: when [Params::check] lets a geometry pass, no jump is negative and
    the last position of each lattice is a number that an [int] holds (the
    sums [sxbeg + (ns - 1)*jsx], ... do not wrap around), every source
    position [(sxbeg + i*jsx, szbeg + i*jsz)], [0 <= i < ns], and every
    receiver position [(gxbeg + i*jgx, gzbeg + i*jgz)], [0 <= i < ng], lies
    on the [nx] by [nz] grid. *)
Theorem check_bounds_forward_lattices (p : Params) (i : Z) :
  check p = Done tt -> ends_fit p ->
  (0 <= jsx p)%Z -> (0 <= jsz p)%Z -> (0 <= jgx p)%Z -> (0 <= jgz p)%Z ->
  ((0 <= i < ns p)%Z ->
     (0 <= sxbeg p + i * jsx p < nx p)%Z /\ (0 <= szbeg p + i * jsz p < nz p)%Z)
  /\ ((0 <= i < ng p)%Z ->
        (0 <= gxbeg p + i * jgx p < nx p)%Z /\ (0 <= gzbeg p + i * jgz p < nz p)%Z).
Proof.
  intros Hc Hfit Hsx Hsz Hgx Hgz. apply (check_done p Hfit) in Hc.
  destruct Hc as [(S1 & S2 & S3 & S4) (G1 & G2 & G3 & G4)].
  split; intros Hi; split; nia.
Qed.

Lemma check_bounds_forward_lattices_witness :
  let p := mkParams 30 100 200 4 8 10 2 5 3 50 0 20 1 in
  ((0 <= 3 < ns p)%Z ->
     (0 <= sxbeg p + 3 * jsx p < nx p)%Z /\ (0 <= szbeg p + 3 * jsz p < nz p)%Z)
  /\ ((0 <= 3 < ng p)%Z ->
        (0 <= gxbeg p + 3 * jgx p < nx p)%Z /\ (0 <= gzbeg p + 3 * jgz p < nz p)%Z).
Proof.
  intros p.
  apply (check_bounds_forward_lattices p 3);
    [reflexivity | repeat split; vm_compute; congruence | | | |];
    vm_compute; discriminate.
Defined.

End CheckResults.
